(** * delft3dfmpy: 1D mesh spacing, network topology and 1D-2D links

    A shallow embedding of the mesh and link code of
    [delft3dfmpy/core/dfm.py] (classes [Network] and [Links1d2d]).

    Conventions of the embedding
    - A Python [float] is an exact rational ([Q]); comparisons of computed
      values are stated up to [Qeq].  Rounding error of IEEE arithmetic is
      outside the model.
    - A Python exception is a [Raise e] result.  A [while] loop without a
      bound in the source gets a fuel argument; [OutOfFuel] stands for
      a loop that is still running when the fuel is used up.
    - Methods of [Links1d2d] mutate [self.nodes1d] and [self.faces2d]; they
      are functions from the store to a result and the store left behind,
      also when an exception is raised. *)

From Stdlib Require Import ZArith QArith Qround Lqa Lia Bool List Sorted Permutation.
From stdpp Require Import base option list sorting gmap strings.

Local Open Scope Q_scope.

(** ** Exceptions and results *)

Inductive exn : Set :=
| ValueError | KeyError | IndexError | ZeroDivisionError
| AttributeError | NameError.

Inductive result (A : Type) : Type :=
| OK (a : A)
| Raise (e : exn)
| OutOfFuel.
Arguments OK {A} a.
Arguments Raise {A} e.
Arguments OutOfFuel {A}.

#[global] Instance result_ret : MRet result := fun A a => OK a.
#[global] Instance result_bind : MBind result := fun A B f r =>
  match r with
  | OK a => f a
  | Raise e => Raise e
  | OutOfFuel => OutOfFuel
  end.

(** Indexing a Python list: [l[i]] raises [IndexError] out of range. *)
Definition getitem {A} (l : list A) (i : nat) : result A :=
  match l !! i with
  | Some a => OK a
  | None => Raise IndexError
  end.

(** ** Numbers *)

Definition Qlt_bool (x y : Q) : bool := negb (Qle_bool y x).

(** Python 3 [round(x)] of a float: nearest integer, ties to even. *)
Definition py_round (x : Q) : Z :=
  let f := Qfloor x in
  match Qcompare (x - inject_Z f) (1 # 2) with
  | Lt => f
  | Gt => (f + 1)%Z
  | Eq => if Z.even f then f else (f + 1)%Z
  end.

(** [np.linspace(start, stop, num, endpoint=False)]:
    [step = (stop - start) / num] and the points [i * step + start],
    [0 <= i < num]. *)
Definition linspace (start stop : Q) (num : Z) : list Q :=
  let step := (stop - start) / inject_Z num in
  map (fun i : nat => inject_Z (Z.of_nat i) * step + start)
      (seq 0 (Z.to_nat num)).

(** A stable insertion sort: [insert_by] puts [x] behind every element that
    is not greater.  [sorted(l)] on floats, [np.unique] on ids, the key order
    of [groupby] and [argsort] on lengths are instances. *)
Fixpoint insert_by {A : Type} (lt : A -> A -> bool) (x : A) (l : list A) : list A :=
  match l with
  | [] => [x]
  | y :: l' => if lt x y then x :: y :: l' else y :: insert_by lt x l'
  end.

Definition sort_by {A : Type} (lt : A -> A -> bool) (l : list A) : list A :=
  fold_left (fun acc x => insert_by lt x acc) l [].

Definition sorted (l : list Q) : list Q := sort_by Qlt_bool l.

(** [Series.unique()]: the distinct values in order of first appearance. *)
Fixpoint unique (l : list Q) : list Q :=
  match l with
  | [] => []
  | x :: l' => x :: List.filter (fun y => negb (Qeq_bool x y)) (unique l')
  end.

(** Membership and distinctness of floats, up to [==]. *)
Definition Qin (x : Q) (l : list Q) : Prop := exists y, y ∈ l /\ y == x.

Fixpoint distinct (l : list Q) : Prop :=
  match l with
  | [] => True
  | x :: l' => Forall (fun y => ~ x == y) l' /\ distinct l'
  end.

(** ** Spacer: [Network._generate_1d_spacing] *)

Module Spacer.

(** Number of nodes of a section of length [section_length]. *)
Definition nnodes (section_length one_d_mesh_distance : Q) : Z :=
  Z.max 2 (py_round (section_length / one_d_mesh_distance) + 1).

(** The [for] loop over consecutive anchor pairs followed by
    [offsets.append(anchor_pts[-1])].  Dividing by a zero spacing raises
    [ZeroDivisionError]; an empty anchor list fails at [anchor_pts[-1]]. *)
Fixpoint _generate_1d_spacing (anchor_pts : list Q) (one_d_mesh_distance : Q)
  : result (list Q) :=
  match anchor_pts with
  | [] => Raise IndexError
  | a :: rest =>
      match rest with
      | [] => OK [a]
      | b :: _ =>
          let section_length := b - a in
          if Qle_bool section_length 0 then Raise ValueError
          else if Qeq_bool one_d_mesh_distance 0 then Raise ZeroDivisionError
          else
            let n := nnodes section_length one_d_mesh_distance in
            offsets ← _generate_1d_spacing rest one_d_mesh_distance;
            OK (linspace a b (n - 1) ++ offsets)
      end
  end.

(** The section between the anchors [a] and [b]: its [node_count - 1]
    points start at [a], are [(b - a) / (node_count - 1)] apart and stay
    below [b]; the offsets of the later sections follow them. *)
Definition section_filled (a b : Q) (rest : list Q) (d : Q) : Prop :=
  let node_count := Z.max 2 (py_round ((b - a) / d) + 1) in
  exists pts,
    _generate_1d_spacing (a :: b :: rest) d =
      (offsets ← _generate_1d_spacing (b :: rest) d; OK (pts ++ offsets)) /\
    Z.of_nat (List.length pts) = (node_count - 1)%Z /\
    forall (i : nat) (x : Q), pts !! i = Some x ->
      x == a + inject_Z (Z.of_nat i) * ((b - a) / inject_Z (node_count - 1)) /\
      x < b.

(** The offsets of [anchors] are strictly increasing, start at the first
    anchor and end at the last. *)
Definition ends_kept (anchors : list Q) (d : Q) : Prop :=
  exists offs first_anchor last_anchor,
    _generate_1d_spacing anchors d = OK offs /\
    StronglySorted Qlt offs /\
    head anchors = Some first_anchor /\ last anchors = Some last_anchor /\
    (exists o, head offs = Some o /\ o == first_anchor) /\
    last offs = Some last_anchor.

End Spacer.

(** ** Mesh1DBuilder: [Network.generate_offsets] *)

(** Monadic [for x in l: s = body(x, s)]. *)
Fixpoint for_each {A S : Type} (l : list A) (body : A -> S -> result S) (s : S)
  : result S :=
  match l with
  | [] => OK s
  | x :: l' => s' ← body x s; for_each l' body s'
  end.

Module Network.

(** A row of [self.branches]: the index, the coordinates of the polyline
    ([geometry.coords]) and [geometry.length]. *)
Record Branch (point : Type) : Type := mkBranch {
  Index : string;
  coords : list point;
  geom_length : Q
}.
Arguments mkBranch {point} _ _ _.
Arguments Index {point} _.
Arguments coords {point} _.
Arguments geom_length {point} _.

(** A row of the structures data frame ([Structures.as_dataframe]): the
    index is the structure id; only [branchid] and [chainage] are read. *)
Record Structure : Type := mkStructure {
  struct_id : string;
  branchid : string;
  chainage : Q
}.

(** Messages of [logger.warning]. *)
Inductive warning : Type :=
| NotLinkedToBranch
| SameLocation (ids : list string).

Section Offsets.
Context {point : Type}.
Implicit Types (branches : list (Branch point)) (offsets : list Q).

(** [self.branches.at[branch_id, 'geometry']]. *)
Definition branch_at branches (branch_id : string) : result (Branch point) :=
  match find (fun b => String.eqb (Index b) branch_id) branches with
  | Some b => OK b
  | None => Raise KeyError
  end.

(** [ids_offsets.groupby('branchid')]: one group per key, keys ascending,
    rows in their order. *)
Definition groupby_branchid (rows : list Structure)
  : list (string * list Structure) :=
  map (fun k => (k, List.filter (fun r => String.eqb (branchid r) k) rows))
      (sort_by String.ltb (remove_dups (map branchid rows))).

(** The structures of a group that share their chainage with another one. *)
Definition same_location (group : list Structure) : list string :=
  map struct_id
      (List.filter (fun r =>
                 Nat.ltb 1 (List.length
                   (List.filter (fun r' => Qeq_bool (chainage r') (chainage r)) group)))
              group).

(** [any(limits)]: some limit is not [0.0]. *)
Definition any_limit (limits : list Q) : bool :=
  existsb (fun c => negb (Qeq_bool c 0)) limits.

(** [((offsets > lower) & (offsets < upper)).any()]. *)
Definition covered offsets (w : Q * Q) : bool :=
  existsb (fun o => Qlt_bool (fst w) o && Qlt_bool o (snd w)) offsets.

Definition in_range offsets (lower_limits upper_limits : list Q) : list bool :=
  map (covered offsets) (combine lower_limits upper_limits).

(** [in_range.index(False)]. *)
Fixpoint index_false (l : list bool) : result nat :=
  match l with
  | [] => Raise ValueError
  | b :: l' => if b then i ← index_false l'; OK (S i) else OK O
  end.

(** [while not all(in_range): ...], with the anchors and offsets it ends on. *)
Fixpoint coverage_loop (fuel : nat) (lower_limits upper_limits : list Q)
    (one_d_mesh_distance : Q) (anchor_pts offsets : list Q)
  : result (list Q * list Q) :=
  let inr := in_range offsets lower_limits upper_limits in
  if forallb id inr then OK (anchor_pts, offsets)
  else
    match fuel with
    | O => OutOfFuel
    | S fuel' =>
        i ← index_false inr;
        lower ← getitem lower_limits i;
        upper ← getitem upper_limits i;
        let anchor_pts' := sorted (anchor_pts ++ [(lower + upper) / 2]) in
        offsets' ← Spacer._generate_1d_spacing anchor_pts' one_d_mesh_distance;
        coverage_loop fuel' lower_limits upper_limits one_d_mesh_distance
                      anchor_pts' offsets'
    end.

(** [limits], [upper_limits] and [lower_limits] of a group of structures
    on a branch of length [branch_length]. *)
Definition limits_of (chainages : list Q) : list Q := sorted (unique chainages).

Definition upper_limits (limits : list Q) (branch_length : Q) : list Q :=
  limits ++ [branch_length + (1 # 10)].

Definition lower_limits (limits : list Q) : list Q := (- (1 # 10)) :: limits.

(** The body of the loop over groups, from [limits = ...] to the offsets
    stored for the branch. *)
Definition structure_offsets (fuel : nat) (branch_length : Q)
    (chainages : list Q) (one_d_mesh_distance : Q) : result (list Q) :=
  let limits := limits_of chainages in
  let anchor_pts := [0; branch_length] in
  offsets ← Spacer._generate_1d_spacing anchor_pts one_d_mesh_distance;
  if any_limit limits then
    r ← coverage_loop fuel (lower_limits limits)
                      (upper_limits limits branch_length)
                      one_d_mesh_distance anchor_pts offsets;
    OK (snd r)
  else OK offsets.

(** [self.offsets] and the warnings logged so far. *)
Definition offsets_state : Type := gmap string (list Q) * list warning.

(** The body of the first loop: the spacing of a branch without structures. *)
Definition store_spacing (one_d_mesh_distance : Q) (branch : Branch point)
    (self_offsets : gmap string (list Q)) : result (gmap string (list Q)) :=
  offsets ← Spacer._generate_1d_spacing [0; geom_length branch]
                                        one_d_mesh_distance;
  OK (<[Index branch := offsets]> self_offsets).

(** The body of the loop over the groups of structures. *)
Definition store_structure_offsets (fuel : nat) branches
    (one_d_mesh_distance : Q) (g : string * list Structure)
    (st : offsets_state) : result offsets_state :=
  let '(branch_id, group) := g in
  let '(self_offsets, log) := st in
  let dup := same_location group in
  let log := match dup with [] => log | _ => log ++ [SameLocation dup] end in
  branch ← branch_at branches branch_id;
  offsets ← structure_offsets fuel (geom_length branch) (map chainage group)
                              one_d_mesh_distance;
  OK (<[branch_id := offsets]> self_offsets, log).

Definition generate_offsets (fuel : nat) branches (one_d_mesh_distance : Q)
    (structures : option (list Structure)) (self_offsets : gmap string (list Q))
  : result offsets_state :=
  self_offsets ← for_each branches (store_spacing one_d_mesh_distance)
                          self_offsets;
  match structures with
  | None => OK (self_offsets, [])
  | Some rows =>
      (* idx = (structures['branchid'] == '') *)
      let idx := fun r => String.eqb (branchid r) "" in
      let log := if existsb idx rows then [NotLinkedToBranch] else [] in
      (* ids_offsets = ids_offsets.loc[idx, :] *)
      let ids_offsets := List.filter idx rows in
      for_each (groupby_branchid ids_offsets)
               (store_structure_offsets fuel branches one_d_mesh_distance)
               (self_offsets, log)
  end.

(** The offsets stored for every branch contain chainage 0 and the length
    of the branch they were made for (the last one of that index). *)
Definition ends_included branches (self_offsets : gmap string (list Q)) : Prop :=
  forall b, b ∈ branches ->
    exists b' offs, b' ∈ branches /\ Index b' = Index b /\
      self_offsets !! Index b = Some offs /\
      Qin 0 offs /\ Qin (geom_length b') offs.

(** The windows between neighbouring limits that the loop looks at, and
    those among [ws] that no anchor hits yet. *)
Definition windows (branch_length : Q) (chainages : list Q) : list (Q * Q) :=
  combine (lower_limits (limits_of chainages))
          (upper_limits (limits_of chainages) branch_length).

Definition open_windows (anchors : list Q) (ws : list (Q * Q)) : list (Q * Q) :=
  List.filter (fun w => negb (covered anchors w)) ws.

(** Every structure chainage, as the limit [c'] it became, has an offset
    strictly below it in the window that ends at it and one strictly above
    it in the window that starts at it. *)
Definition straddled (branch_length : Q) (chainages offsets : list Q) : Prop :=
  forall c, c ∈ chainages ->
    exists c' lo up o1 o2,
      c' == c /\
      (lo, c') ∈ windows branch_length chainages /\
      (c', up) ∈ windows branch_length chainages /\
      o1 ∈ offsets /\ o2 ∈ offsets /\
      lo < o1 /\ o1 < c /\ c < o2 /\ o2 < up.

End Offsets.

(** *** BranchTopology: the loop of [Network.generate_1dnetwork] *)

Section Topology.
Context {point : Type} `{Countable point}.
Implicit Types (branches : list (Branch point)).

(** The lists and the dictionary the loop over the branches fills. *)
Record net_state : Type := mkNet {
  nodes : list point;
  edge_nodes_dict : gmap point Z;
  network_edge_nodes : list (Z * Z);
  mesh1d_edge_nodes : list (Z * Z);
  mesh1d_branchidx : list Z;
  mesh1d_branchoffset : list Q
}.

Definition net_init : net_state := mkNet [] ∅ [] [] [] [].

(** [x in l] and [l.index(x)]. *)
Definition contains (l : list point) (p : point) : bool :=
  existsb (fun q => bool_decide (q = p)) l.

Fixpoint index_of (l : list point) (p : point) : result nat :=
  match l with
  | [] => Raise ValueError
  | q :: l' => if bool_decide (q = p) then OK O else i ← index_of l' p; OK (S i)
  end.

(** [d[k]] on a dictionary. *)
Definition dict_get (d : gmap point Z) (k : point) : result Z :=
  match d !! k with
  | Some v => OK v
  | None => Raise KeyError
  end.

(** [self.branches.iloc[self.branches.length.argsort().values]]: ascending
    in length; branches of equal length keep their order. *)
Definition sorted_branches branches : list (Branch point) :=
  sort_by (fun b b' => Qlt_bool (geom_length b) (geom_length b')) branches.

(** [[[start + i, start + i + 1] for i in range(nlinks)]]. *)
Definition edge_range (start_index nlinks : Z) : list (Z * Z) :=
  map (fun i : nat => (start_index + Z.of_nat i, start_index + Z.of_nat i + 1)%Z)
      (seq 0 (Z.to_nat nlinks)).

(** [new_edge_nodes[0][0] = v] and [new_edge_nodes[-1][1] = v]. *)
Definition set_first_from (l : list (Z * Z)) (v : Z) : result (list (Z * Z)) :=
  match l with
  | [] => Raise IndexError
  | (_, b) :: l' => OK ((v, b) :: l')
  end.

Definition set_last_to (l : list (Z * Z)) (v : Z) : result (list (Z * Z)) :=
  match List.rev l with
  | [] => Raise IndexError
  | (a, _) :: l' => OK (List.rev ((a, v) :: l'))
  end.

(** The body of [for i_branch, branch in enumerate(...)]. *)
Definition add_branch (self_offsets : gmap string (list Q))
    (i_branch : nat) (branch : Branch point) (st : net_state) : result net_state :=
  let points := coords branch in
  first_point ← getitem points 0;
  last_point ← match last points with Some p => OK p | None => Raise IndexError end;
  offsets ← match self_offsets !! Index branch with
            | Some o => OK o | None => Raise KeyError end;
  let nlinks := (Z.of_nat (List.length offsets) - 1)%Z in
  let first_present := contains (nodes st) first_point in
  let nodes1 := if first_present then nodes st else nodes st ++ [first_point] in
  let offsets := if first_present then tail offsets else offsets in
  let last_present := contains nodes1 last_point in
  let nodes2 := if last_present then nodes1 else nodes1 ++ [last_point] in
  let offsets := if last_present then removelast offsets else offsets in
  let '(offsets, nlinks) :=
    match offsets with
    | [] => ([geom_length branch / 2], (nlinks + 1)%Z)
    | _ => (offsets, nlinks)
    end in
  i_from ← index_of nodes2 first_point;
  i_to ← index_of nodes2 last_point;
  if Nat.eqb i_from i_to then Raise ValueError
  else
    let network_edge_nodes' :=
      network_edge_nodes st ++ [(Z.of_nat i_from + 1, Z.of_nat i_to + 1)%Z] in
    let start_index := (Z.of_nat (List.length (mesh1d_branchidx st)) + 1)%Z in
    let start_index := if first_present then (start_index - 1)%Z else start_index in
    let new_edge_nodes := edge_range start_index nlinks in
    '(new_edge_nodes, dict) ←
      (if first_present then
         v ← dict_get (edge_nodes_dict st) first_point;
         l ← set_first_from new_edge_nodes v;
         OK (l, edge_nodes_dict st)
       else
         e ← getitem new_edge_nodes 0;
         OK (new_edge_nodes, <[first_point := fst e]> (edge_nodes_dict st)));
    '(new_edge_nodes, dict) ←
      (if last_present then
         v ← dict_get dict last_point;
         l ← set_last_to new_edge_nodes v;
         OK (l, dict)
       else
         e ← match last new_edge_nodes with
             | Some e => OK e | None => Raise IndexError end;
         OK (new_edge_nodes, <[last_point := snd e]> dict));
    OK (mkNet nodes2 dict network_edge_nodes'
              (mesh1d_edge_nodes st ++ new_edge_nodes)
              (mesh1d_branchidx st
                 ++ repeat (Z.of_nat i_branch + 1)%Z (List.length offsets))
              (mesh1d_branchoffset st ++ offsets)).

(** [generate_1dnetwork] up to the lists handed to the mesh object: the
    offsets are generated when none are stored, the branches are walked in
    ascending length. *)
Definition generate_1dnetwork (fuel : nat) branches
    (structures : option (list Structure))
    (self_offsets : gmap string (list Q)) (one_d_mesh_distance : Q)
  : result (net_state * gmap string (list Q)) :=
  match branches with
  | [] => Raise ValueError
  | _ =>
      self_offsets ←
        (if Nat.eqb (size self_offsets) 0 then
           r ← generate_offsets fuel branches one_d_mesh_distance structures
                                self_offsets;
           OK (fst r)
         else OK self_offsets);
      let sb := sorted_branches branches in
      st ← for_each (combine (seq 0 (List.length sb)) sb)
             (fun ib st => add_branch self_offsets (fst ib) (snd ib) st) net_init;
      OK (st, self_offsets)
  end.

(** The two end points of a branch and those of all branches. *)
Definition endpoints (b : Branch point) : list point :=
  match head (coords b), last (coords b) with
  | Some p, Some q => [p; q]
  | _, _ => []
  end.

Definition all_endpoints branches : list point := flat_map endpoints branches.

(** The node list holds every end point of the branches once, so it has at
    most two nodes per branch, and exactly two iff no end point occurs
    twice among the branches. *)
Definition nodes_deduplicated branches (st : net_state) : Prop :=
  NoDup (nodes st) /\
  (forall p, p ∈ nodes st <-> p ∈ all_endpoints branches) /\
  (List.length (nodes st) <= 2 * List.length branches)%nat /\
  (List.length (nodes st) = (2 * List.length branches)%nat <->
   NoDup (all_endpoints branches)).

(** A branch the loop accepts has two different end points. *)
Definition open_ended (b : Branch point) : Prop :=
  exists p q, endpoints b = [p; q] /\ p <> q.

(** Every registered node has its mesh node id in the dictionary. *)
Definition dict_covers (st : net_state) : Prop :=
  forall p, p ∈ nodes st -> is_Some (edge_nodes_dict st !! p).

(** The registration of an end point in the node list. *)
Definition register (l : list point) (p : point) : list point :=
  if contains l p then l else l ++ [p].

(** The lists handed to the mesh fit together: one offset per mesh node,
    every mesh edge and every dictionary entry names an existing mesh node
    (1-based), every network edge joins two different existing nodes. *)
Definition mesh_consistent (st : net_state) : Prop :=
  let numnode := Z.of_nat (List.length (mesh1d_branchidx st)) in
  List.length (mesh1d_branchoffset st) = List.length (mesh1d_branchidx st) /\
  (forall a b, (a, b) ∈ mesh1d_edge_nodes st ->
     (1 <= a <= numnode)%Z /\ (1 <= b <= numnode)%Z) /\
  (forall p v, edge_nodes_dict st !! p = Some v -> (1 <= v <= numnode)%Z) /\
  (forall a b, (a, b) ∈ network_edge_nodes st ->
     (1 <= a <= Z.of_nat (List.length (nodes st)))%Z /\
     (1 <= b <= Z.of_nat (List.length (nodes st)))%Z /\ a <> b).

End Topology.

(** Two branches that meet in [(10, 10)]. *)
Definition branch_a : Branch (Z * Z) := mkBranch "a" [(0, 0); (10, 10)]%Z 14.
Definition branch_b : Branch (Z * Z) := mkBranch "b" [(10, 10); (20, 10)]%Z 10.

End Network.

(** ** LinkGenerator and LinkConflictResolver: class [Links1d2d] *)

Module Links.

Definition xy : Type := Q * Q.

(** [max_distance]: a float or [np.inf]. *)
Inductive bound : Type :=
| Finite (m : Q)
| Inf.

(** Squared Euclidean distance; the distance itself is its square root. *)
Definition dist2 (p q : xy) : Q :=
  (fst p - fst q) * (fst p - fst q) + (snd p - snd q) * (snd p - snd q).

(** [distance < max_distance] on a distance given by its square
    ([None] is the infinite distance of a query on an empty tree):
    [sqrt d2 < m] iff [0 < m] and [d2 < m * m]. *)
Definition dist_lt (d2 : option Q) (max_distance : bound) : bool :=
  match d2, max_distance with
  | None, _ => false
  | Some _, Inf => true
  | Some d2, Finite m => Qlt_bool 0 m && Qlt_bool d2 (m * m)
  end.

(** [distance > max_distance] for a finite distance. *)
Definition dist_gt (d2 : Q) (max_distance : bound) : bool :=
  match max_distance with
  | Inf => false
  | Finite m => Qlt_bool m 0 || Qlt_bool (m * m) d2
  end.

(** [np.argmin] of the distances to [p], with the minimum: the first index
    among equal distances. *)
Fixpoint argmin_from (pts : list xy) (p : xy) (i : nat) (best : Q * nat)
  : Q * nat :=
  match pts with
  | [] => best
  | q :: pts' =>
      let d := dist2 q p in
      argmin_from pts' p (S i) (if Qlt_bool d (fst best) then (d, i) else best)
  end.

Definition argmin (pts : list xy) (p : xy) : option (Q * nat) :=
  match pts with
  | [] => None
  | q :: pts' => Some (argmin_from pts' p 1 (dist2 q p, O))
  end.

(** [KDTree(pts).query(p)]: squared distance and index of the nearest
    point, the first one among equally near points; on an empty tree the
    distance is infinite and the index is [len(pts)]. *)
Definition kd_query (pts : list xy) (p : xy) : option Q * nat :=
  match argmin pts p with
  | Some (d, i) => (Some d, i)
  | None => (None, List.length pts)
  end.

(** The link table: [self.nodes1d] and [self.faces2d]. *)
Record Links1d2d : Type := mkLinks {
  nodes1d : list Z;
  faces2d : list Z
}.

Definition no_links : Links1d2d := mkLinks [] [].

(** The pairs (1D node id, 2D face id) of the table. *)
Definition pairs (s : Links1d2d) : list (Z * Z) :=
  combine (nodes1d s) (faces2d s).

(** [l.pop(loc)] and [l.index(item)]. *)
Definition pop (l : list Z) (loc : nat) : result (list Z) :=
  if Nat.ltb loc (List.length l) then OK (delete loc l) else Raise IndexError.

Fixpoint index_Z (item : Z) (l : list Z) : result nat :=
  match l with
  | [] => Raise ValueError
  | x :: l' => if Z.eqb x item then OK O else i ← index_Z item l'; OK (S i)
  end.

(** [a[k]] on a numpy array of length [n]: negative [k] counts from the end. *)
Definition np_getitem {A} (a : list A) (k : Z) : result A :=
  let n := Z.of_nat (List.length a) in
  if (0 <=? k)%Z then getitem a (Z.to_nat k)
  else if (- n <=? k)%Z then getitem a (Z.to_nat (n + k))
  else Raise IndexError.

(** [while item in linkdim: loc = linkdim.index(item);
     self.nodes1d.pop(loc); self.faces2d.pop(loc); rest], where [linkdim]
    is one of the two lists and [rest] the outcome of the statements behind
    the two [pop]s. *)
Fixpoint pop_while (fuel : nat) (linkdim : Links1d2d -> list Z)
    (rest : result unit) (item : Z) (s : Links1d2d) : result unit * Links1d2d :=
  if existsb (Z.eqb item) (linkdim s) then
    match fuel with
    | O => (OutOfFuel, s)
    | S fuel' =>
        match index_Z item (linkdim s) with
        | OK loc =>
            match pop (nodes1d s) loc with
            | OK ns =>
                let s1 := mkLinks ns (faces2d s) in
                match pop (faces2d s1) loc with
                | OK fs =>
                    let s2 := mkLinks ns fs in
                    match rest with
                    | OK _ => pop_while fuel' linkdim rest item s2
                    | Raise e => (Raise e, s2)
                    | OutOfFuel => (OutOfFuel, s2)
                    end
                | Raise e => (Raise e, s1)
                | OutOfFuel => (OutOfFuel, s1)
                end
            | Raise e => (Raise e, s)
            | OutOfFuel => (OutOfFuel, s)
            end
        | Raise e => (Raise e, s)
        | OutOfFuel => (OutOfFuel, s)
        end
    end
  else (OK tt, s).

(** The loop for one [item]; no more passes than [linkdim] has entries. *)
Definition pop_each (linkdim : Links1d2d -> list Z) (rest_of : Z -> result unit)
    (item : Z) (s : Links1d2d) : result unit * Links1d2d :=
  pop_while (List.length (linkdim s)) linkdim (rest_of item) item s.

(** Both lists of the table have one entry per link. *)
Definition aligned (s : Links1d2d) : Prop :=
  List.length (nodes1d s) = List.length (faces2d s).

Definition is_linkdim (linkdim : Links1d2d -> list Z) : Prop :=
  linkdim = nodes1d \/ linkdim = faces2d.

(** [for item in items: body(item)] on the store; an exception ends it. *)
Fixpoint for_store {A : Type} (items : list A)
    (body : A -> Links1d2d -> result unit * Links1d2d) (s : Links1d2d)
  : result unit * Links1d2d :=
  match items with
  | [] => (OK tt, s)
  | x :: items' =>
      match body x s with
      | (OK _, s') => for_store items' body s'
      | r => r
      end
  end.

(** What [get_1d2dlinks] hands out: an array of lines, or a data frame with
    the columns [node1did], [face2did] and the line as geometry. *)
Inductive links_view : Type :=
| LinkArray (lines : list (xy * xy))
| LinkFrame (rows : list (Z * Z * (xy * xy))).

(** The number of links in such a view. *)
Definition view_size (v : links_view) : nat :=
  match v with
  | LinkArray lines => List.length lines
  | LinkFrame rows => List.length rows
  end.

(** [i] is an end of an edge that has [node_id] as an end. *)
Definition on_edge_with (e : list (Z * Z)) (node_id i : Z) : bool :=
  existsb (fun ab => (Z.eqb (fst ab) node_id || Z.eqb (snd ab) node_id) &&
                     (Z.eqb (fst ab) i || Z.eqb (snd ab) i)) e.

Section WithMesh.

(** Polygons of the 2D cells and the branch table are only handed on to the
    geometry module. *)
Context {polygon branch_table : Type}.

(** [delft3dfmpy.core.geometry.find_nearest_branch] is not part of the
    sources at hand: it is a parameter, giving the column [branch_offset]
    it writes for the cells ([None] is NaN).  [true] is
    [method='intersecting'], [false] is [method='overal'] with [maxdist]. *)
Variable find_nearest_branch :
  branch_table -> list (Z * xy * polygon) -> bool -> bound -> list (option Q).

(** The meshes and tables of the network that the link code reads. *)
Record mesh : Type := mkMesh {
  mesh1d_nodes : list xy;          (* self.mesh1d.get_nodes() *)
  edge_nodes : list (Z * Z);       (* mesh1d 'edge_nodes', one row per edge *)
  faces : list (xy * polygon);     (* mesh2d faces: centre and cell polygon *)
  branches : branch_table;         (* self.network.branches *)
  boundaries : list (option xy)    (* centroid of bc.geometry, None without geometry *)
}.

Implicit Types (m : mesh) (s : Links1d2d).

Definition face_centers m : list xy := map fst (faces m).

(** The flattened [edge_nodes] array. *)
Definition ravel (e : list (Z * Z)) : list Z :=
  flat_map (fun ab => [fst ab; snd ab]) e.

(** [nx, ny = nodes1d[item-1]] for the log message. *)
Definition node_of_item m (item : Z) : result unit :=
  _ ← np_getitem (mesh1d_nodes m) (item - 1); OK tt.

Definition check_boundary_link m (centroid : xy) s : result unit * Links1d2d :=
  match nodes1d s, faces2d s with
  | [], _ | _, [] => (OK tt, s)
  | _, _ =>
      let idx_nearest := snd (kd_query (mesh1d_nodes m) centroid) in
      let node_id := (Z.of_nat idx_nearest + 1)%Z in
      (* counts[node_id]; the warning for a node with several edges is
         a log line only *)
      if negb (existsb (Z.eqb node_id) (ravel (edge_nodes m)))
      then (Raise KeyError, s)
      else
        let to_remove :=
          sort_by Z.ltb (remove_dups (ravel
            (List.filter (fun ab => Z.eqb (fst ab) node_id || Z.eqb (snd ab) node_id)
                    (edge_nodes m)))) in
        for_store to_remove (pop_each nodes1d (node_of_item m)) s
  end.

(** [for bc in boundaries: if bc.geometry is None: continue;
     self.check_boundary_link(bc)]. *)
Definition check_boundaries m s : result unit * Links1d2d :=
  for_store (boundaries m)
    (fun bc s => match bc with
                 | None => (OK tt, s)
                 | Some centroid => check_boundary_link m centroid s
                 end) s.

(** [self.nodes1d.extend(a); self.faces2d.extend(b)] for the two columns
    [a] and [b] of [new]. *)
Definition extend s (new : list (Z * Z)) : Links1d2d :=
  mkLinks (nodes1d s ++ map fst new) (faces2d s ++ map snd new).

(** The links of [generate_1d_to_2d]: every 1D node with its nearest face
    centre, kept when [distance < max_distance]; ids are 1-based. *)
Definition links_1d_to_2d m (max_distance : bound) : list (Z * Z) :=
  let all_1d_nodes := mesh1d_nodes m in
  let nearest := map (kd_query (face_centers m)) all_1d_nodes in
  let close :=
    List.filter (fun x => dist_lt (fst (snd x)) max_distance)
                (combine (seq 0 (List.length all_1d_nodes)) nearest) in
  map (fun x => (Z.of_nat (fst x) + 1, Z.of_nat (snd (snd x)) + 1)%Z) close.

Definition generate_1d_to_2d m (max_distance : bound) s
  : result unit * Links1d2d :=
  check_boundaries m (extend s (links_1d_to_2d m max_distance)).

Definition any_id (l : list Z) : bool := existsb (fun x => negb (Z.eqb x 0)) l.

Definition get_1d2dlinks m (as_gdf : bool) s : result (option links_view) :=
  if negb (any_id (nodes1d s)) then OK None
  else
    from ← for_each (nodes1d s)
             (fun i acc => p ← np_getitem (mesh1d_nodes m) (i - 1); OK (acc ++ [p])) [];
    to ← for_each (faces2d s)
             (fun i acc => p ← np_getitem (face_centers m) (i - 1); OK (acc ++ [p])) [];
    (* np.dstack needs arrays of one shape *)
    if negb (Nat.eqb (List.length from) (List.length to)) then Raise ValueError
    else
      let links := combine from to in
      if as_gdf then
        OK (Some (LinkFrame (combine (combine (nodes1d s) (faces2d s)) links)))
      else OK (Some (LinkArray links)).

(** The cells of [generate_2d_to_1d] that get a link: index ([idx + 1]),
    centre and polygon of the pre-selected faces that
    [find_nearest_branch] gives a [branch_offset]. *)
Definition candidate_cells m (max_distance : bound) (intersecting : bool)
  : list (Z * xy * polygon) :=
  let centers2d := face_centers m in
  let idx := seq 0 (List.length centers2d) in
  (* pre-selection *)
  let idx :=
    match max_distance with
    | Inf => idx
    | Finite _ =>
        map fst
            (List.filter
               (fun ic => dist_lt (fst (kd_query (mesh1d_nodes m) (snd ic)))
                                  max_distance)
               (combine idx centers2d))
    end in
  let cells : list (Z * xy * polygon) :=
    omap (fun i => f ← faces m !! i; Some ((Z.of_nat i + 1)%Z, fst f, snd f)) idx in
  let branch_offset :=
    find_nearest_branch (branches m) cells intersecting max_distance in
  (* cells.dropna(subset=['branch_offset']) *)
  map fst (List.filter (fun cb => match snd cb with Some _ => true | None => false end)
                       (combine cells branch_offset)).

(** The links of [generate_2d_to_1d] before any is dropped: every
    candidate cell with its nearest 1D node, kept when
    [distance < max_distance]. *)
Definition links_2d_to_1d m (max_distance : bound) (intersecting : bool)
  : list (Z * Z) :=
  let cells := candidate_cells m max_distance intersecting in
  let close :=
    List.filter (fun cq => dist_lt (fst (snd cq)) max_distance)
                (map (fun c => (c, kd_query (mesh1d_nodes m) (snd (fst c)))) cells) in
  map (fun cq => ((Z.of_nat (snd (snd cq)) + 1)%Z, fst (fst (fst cq)))) close.

Definition generate_2d_to_1d m (max_distance : bound) (intersecting : bool) s
  : result unit * Links1d2d :=
  let s1 := extend s (links_2d_to_1d m max_distance intersecting) in
  if intersecting then check_boundaries m s1
  else
    match get_1d2dlinks m true s1 with
    | OK (Some (LinkFrame rows)) =>
        match rows with
        | _ :: _ =>
            (* first pass of the loop over the links: the name
               possibly_intersecting is bound nowhere in the module *)
            (Raise NameError, s1)
        | [] =>
            (* links.drop(todrop) with nothing to drop, then re-assign *)
            check_boundaries m
              (mkLinks (map (fun r : Z * Z * (xy * xy) => fst (fst r)) rows)
                       (map (fun r : Z * Z * (xy * xy) => snd (fst r)) rows))
        end
    | OK (Some (LinkArray _)) => (Raise AttributeError, s1)   (* not with as_gdf=True *)
    | OK None => (Raise AttributeError, s1)   (* None.itertuples() *)
    | Raise e => (Raise e, s1)
    | OutOfFuel => (OutOfFuel, s1)
    end.

Definition remove_1d2d_link m (x y : Q) (mesh_kind : string)
    (max_distance : bound) s : result unit * Links1d2d :=
  if negb (String.eqb mesh_kind "1d" || String.eqb mesh_kind "2d")
  then (Raise ValueError, s)
  else
    let is1d := String.eqb mesh_kind "1d" in
    let pts := if is1d then mesh1d_nodes m else face_centers m in
    match argmin pts (x, y) with
    | None => (Raise ValueError, s)        (* dists.min() of an empty array *)
    | Some (dmin, imin) =>
        if dist_gt dmin max_distance then (OK tt, s)
        else
          let linkdim := if is1d then nodes1d else faces2d in
          let to_remove :=
            List.filter (fun link => Z.eqb link (Z.of_nat imin + 1)) (linkdim s) in
          for_store to_remove (pop_each linkdim (fun _ => OK tt)) s
    end.

(** Every edge of the 1D mesh joins two of its nodes. *)
Definition edges_valid m : Prop :=
  forall item, item ∈ ravel (edge_nodes m) ->
    (1 <= item <= Z.of_nat (List.length (mesh1d_nodes m)))%Z.

(** What conflict resolution at [centroid] does to the table [s]: it only
    takes links out; run again after a normal return it changes nothing;
    on a mesh with valid edges it gives the same outcome and table again. *)
Definition resolved m (centroid : xy) s : Prop :=
  let r := check_boundary_link m centroid s in
  pairs (snd r) `sublist_of` pairs s /\
  (fst r = OK tt -> check_boundary_link m centroid (snd r) = (OK tt, snd r)) /\
  (edges_valid m -> check_boundary_link m centroid (snd r) = r).

(** The tables reached by one generation pass on an empty table, followed
    by any number of removals. *)
Inductive single_pass : Links1d2d -> Prop :=
| pass_1d_to_2d m md :
    single_pass (snd (generate_1d_to_2d m md no_links))
| pass_2d_to_1d m md b :
    single_pass (snd (generate_2d_to_1d m md b no_links))
| pass_check m c s :
    single_pass s -> single_pass (snd (check_boundary_link m c s))
| pass_remove m x y kind md s :
    single_pass s -> single_pass (snd (remove_1d2d_link m x y kind md s)).

(** Every stored link joins an existing 1D node and an existing 2D face. *)
Definition ids_valid m s : Prop :=
  forall i j, (i, j) ∈ pairs s ->
    (1 <= i <= Z.of_nat (List.length (mesh1d_nodes m)))%Z /\
    (1 <= j <= Z.of_nat (List.length (faces m)))%Z.

(** The link [(i, j)] joins node [i] to a face centre that is nearest to it
    and nearer than [max_distance]. *)
Definition nearest_face m (max_distance : bound) (link : Z * Z) : Prop :=
  exists p c,
    (1 <= fst link)%Z /\ (1 <= snd link)%Z /\
    mesh1d_nodes m !! Z.to_nat (fst link - 1) = Some p /\
    face_centers m !! Z.to_nat (snd link - 1) = Some c /\
    dist_lt (Some (dist2 c p)) max_distance = true /\
    forall c', c' ∈ face_centers m -> dist2 c p <= dist2 c' p.

(** The link [(i, j)] joins face [j] to a node that is nearest to its centre
    and nearer than [max_distance]. *)
Definition nearest_node m (max_distance : bound) (link : Z * Z) : Prop :=
  exists p c,
    (1 <= fst link)%Z /\ (1 <= snd link)%Z /\
    mesh1d_nodes m !! Z.to_nat (fst link - 1) = Some p /\
    face_centers m !! Z.to_nat (snd link - 1) = Some c /\
    dist_lt (Some (dist2 p c)) max_distance = true /\
    forall p', p' ∈ mesh1d_nodes m -> dist2 p c <= dist2 p' c.

(** [remove_1d2d_from_numlimdt(file, threshold, node)].  [rows] holds the
    lines of the file, split and converted: [(float(x), float(y), int(n))].
    [idxmin_distance lines p] is [links.distance(Point(p)).idxmin()] on the
    frame with the geometries [lines].  [links] is bound only for
    [node == '1d'], and is the frame made before the loop. *)
Definition remove_1d2d_from_numlimdt m
    (idxmin_distance : list (xy * xy) -> xy -> nat)
    (rows : list (xy * Z)) (threshold : Q) (node : string) s
  : result unit * Links1d2d :=
  let links : result (option (option links_view)) :=
    if String.eqb node "1d" then v ← get_1d2dlinks m true s; OK (Some v)
    else OK None in
  match links with
  | OK links =>
      for_store rows
        (fun row s =>
           if Qle_bool threshold (inject_Z (snd row)) then
             if String.eqb node "2d" then
               remove_1d2d_link m (fst (fst row)) (snd (fst row)) node (Finite 2) s
             else
               match links with
               | None => (Raise NameError, s)        (* links is not bound *)
               | Some (Some (LinkFrame frows)) =>
                   match frows !! idxmin_distance (map snd frows) (fst row) with
                   | Some r =>
                       (* x, y = links.at[idx, 'geometry'].coords[0] *)
                       let c := fst (snd r) in
                       remove_1d2d_link m (fst c) (snd c) node (Finite 2) s
                   | None => (Raise KeyError, s)
                   end
               | Some _ => (Raise AttributeError, s) (* None.distance *)
               end
           else (OK tt, s))
        s
  | Raise e => (Raise e, s)
  | OutOfFuel => (OutOfFuel, s)
  end.

(** The id a removal at [p] with [max_distance = 2] looks for: that of the
    point of [pts] nearest to [p], unless this one is farther than 2. *)
Definition removal_target (pts : list xy) (p : xy) : option Z :=
  match argmin pts p with
  | Some (dmin, imin) =>
      if dist_gt dmin (Finite 2) then None else Some (Z.of_nat imin + 1)%Z
  | None => None
  end.

(** No two nodes of the 1D mesh have the same coordinates. *)
Definition nodes_distinct m : Prop :=
  forall (i j : nat) (p q : xy),
    mesh1d_nodes m !! i = Some p -> mesh1d_nodes m !! j = Some q ->
    dist2 p q == 0 -> i = j.

End WithMesh.

(** Two unit cells in a row and one 1D node to their left; every cell is
    given a branch offset. *)
Definition square (x0 : Q) : list xy :=
  [(x0, 0); (x0 + 1, 0); (x0 + 1, 1); (x0, 1)].

Definition two_cells : @mesh (list xy) unit :=
  mkMesh [(-1, 1 # 2)] []
         [((1 # 2, 1 # 2), square 0); ((3 # 2, 1 # 2), square 1)] tt [].

Definition every_cell_near (_ : unit) (cells : list (Z * xy * list xy))
    (_ : bool) (_ : bound) : list (option Q) :=
  map (fun _ => Some 0) cells.

(** A mesh of three nodes in a row with its two edges, a boundary at the
    left end and a table with links on all three nodes. *)
Definition three_nodes : @mesh (list xy) unit :=
  mkMesh [(0, 0); (10, 0); (20, 0)] [(1, 2); (2, 3)]%Z
         [((0, 1), square 0); ((10, 1), square 10); ((20, 1), square 20)] tt
         [Some (0, 0)].

Definition three_links : Links1d2d := mkLinks [1; 2; 3; 1]%Z [1; 2; 3; 2]%Z.

End Links.

(** * Properties *)

Import Network Links.

(** * Numbers *)

Lemma Qlt_bool_iff (x y : Q) : Qlt_bool x y = true <-> x < y.
Proof.
  unfold Qlt_bool. rewrite negb_true_iff. split.
  - intros Hb. apply Qnot_le_lt. intros Hle.
    apply Qle_bool_iff in Hle. congruence.
  - intros Hlt. destruct (Qle_bool y x) eqn:E; [|reflexivity].
    apply Qle_bool_iff in E. lra.
Qed.

Lemma Qlt_bool_false (x y : Q) : Qlt_bool x y = false <-> y <= x.
Proof.
  unfold Qlt_bool. rewrite negb_false_iff. apply Qle_bool_iff.
Qed.

Lemma Qle_bool_false (x y : Q) : Qle_bool x y = false <-> y < x.
Proof.
  rewrite <- Qlt_bool_iff. unfold Qlt_bool. rewrite negb_true_iff. reflexivity.
Qed.

Lemma Qeq_bool_false (x y : Q) : Qeq_bool x y = false <-> ~ x == y.
Proof.
  split; [apply Qeq_bool_neq|].
  intros Hne. destruct (Qeq_bool x y) eqn:E; [|reflexivity].
  apply Qeq_bool_eq in E. contradiction.
Qed.

(** * Spacer *)

Lemma nnodes_ge_2 (L d : Q) : (2 <= Spacer.nnodes L d)%Z.
Proof. unfold Spacer.nnodes. lia. Qed.

Lemma length_linspace (a b : Q) (n : Z) :
  length (linspace a b n) = Z.to_nat n.
Proof. unfold linspace. rewrite length_map, length_seq. reflexivity. Qed.

Lemma linspace_lookup (a b : Q) (n : Z) (i : nat) (x : Q) :
  linspace a b n !! i = Some x ->
  (i < Z.to_nat n)%nat /\
  x = inject_Z (Z.of_nat i) * ((b - a) / inject_Z n) + a.
Proof.
  unfold linspace. rewrite list_lookup_fmap.
  destruct (seq 0 (Z.to_nat n) !! i) as [j|] eqn:E; [|discriminate].
  apply lookup_seq in E as [-> Hlt]. simpl. intros [= <-]. split; [exact Hlt|reflexivity].
Qed.

Lemma linspace_elem (a b : Q) (n : Z) (x : Q) :
  x ∈ linspace a b n ->
  exists i : nat, (i < Z.to_nat n)%nat /\
    x = inject_Z (Z.of_nat i) * ((b - a) / inject_Z n) + a.
Proof.
  intros Hin. apply list_elem_of_lookup in Hin as [i Hi].
  exists i. exact (linspace_lookup _ _ _ _ _ Hi).
Qed.

Lemma inject_Z_nat_nonneg (i : nat) : 0 <= inject_Z (Z.of_nat i).
Proof. change 0 with (inject_Z 0). rewrite <- Zle_Qle. lia. Qed.

Lemma inject_Z_nat_lt (i j : nat) :
  (i < j)%nat -> inject_Z (Z.of_nat i) < inject_Z (Z.of_nat j).
Proof. intros Hlt. rewrite <- Zlt_Qlt. lia. Qed.

Lemma step_pos (a b : Q) (n : Z) :
  a < b -> (1 <= n)%Z -> 0 < (b - a) / inject_Z n.
Proof.
  intros Hab Hn. apply Qlt_shift_div_l.
  - change 0 with (inject_Z 0). rewrite <- Zlt_Qlt. lia.
  - lra.
Qed.

Lemma step_total (a b : Q) (n : Z) :
  (1 <= n)%Z -> inject_Z n * ((b - a) / inject_Z n) == b - a.
Proof.
  intros Hn. field. change 0 with (inject_Z 0). rewrite inject_Z_injective. lia.
Qed.

(** Every point of a section lies in [[a, b)]. *)
Lemma linspace_bounds (a b : Q) (n : Z) (x : Q) :
  a < b -> (1 <= n)%Z -> x ∈ linspace a b n -> a <= x /\ x < b.
Proof.
  intros Hab Hn Hin. apply linspace_elem in Hin as (i & Hi & ->).
  pose proof (step_pos a b n Hab Hn) as Hstep.
  pose proof (step_total a b n Hn) as Htot.
  pose proof (inject_Z_nat_nonneg i) as Hi0.
  assert (Hlt : inject_Z (Z.of_nat i) < inject_Z n).
  { rewrite <- Zlt_Qlt. lia. }
  split; [nra|nra].
Qed.

Lemma sorted_map_seq (f : nat -> Q) (s n : nat) :
  (forall i j : nat, (i < j)%nat -> f i < f j) ->
  StronglySorted Qlt (map f (seq s n)).
Proof.
  intros Hf. revert s. induction n as [|n IH]; intros s; simpl.
  - constructor.
  - constructor; [apply IH|].
    apply Forall_forall. intros y Hy.
    apply list_elem_of_fmap in Hy as (j & -> & Hj).
    apply elem_of_seq in Hj. apply Hf. lia.
Qed.

Lemma linspace_sorted (a b : Q) (n : Z) :
  a < b -> (1 <= n)%Z -> StronglySorted Qlt (linspace a b n).
Proof.
  intros Hab Hn. unfold linspace. apply sorted_map_seq.
  intros i j Hij.
  pose proof (step_pos a b n Hab Hn) as Hstep.
  pose proof (inject_Z_nat_lt i j Hij) as Hlt.
  set (st := (b - a) / inject_Z n) in *.
  assert (0 < (inject_Z (Z.of_nat j) - inject_Z (Z.of_nat i)) * st)
    by (apply Qmult_lt_0_compat; lra).
  lra.
Qed.

Lemma linspace_head (a b : Q) (n : Z) :
  (1 <= n)%Z -> exists x l, linspace a b n = x :: l /\ x == a.
Proof.
  intros Hn. unfold linspace.
  destruct (Z.to_nat n) as [|k] eqn:E; [lia|]. simpl.
  eexists _, _. split; [reflexivity|].
  generalize ((b - a) / inject_Z n). intros st.
  change (inject_Z (Z.of_nat 0)) with 0. ring.
Qed.

(** * The spacing function on increasing anchors *)

Lemma sorted_head_le (x y : Q) (l : list Q) :
  StronglySorted Qlt (x :: l) -> y ∈ x :: l -> x <= y.
Proof.
  intros Hs Hy. apply StronglySorted_inv in Hs as [_ Hall].
  apply elem_of_cons in Hy as [->|Hy]; [lra|].
  rewrite Forall_forall in Hall. apply Qlt_le_weak. exact (Hall _ Hy).
Qed.

Lemma spacing_cons2 (a b : Q) (rest : list Q) (d : Q) :
  a < b -> ~ d == 0 ->
  Spacer._generate_1d_spacing (a :: b :: rest) d =
  (offsets ← Spacer._generate_1d_spacing (b :: rest) d;
   OK (linspace a b (Spacer.nnodes (b - a) d - 1) ++ offsets)).
Proof.
  intros Hab Hd. cbn [Spacer._generate_1d_spacing].
  assert (Qle_bool (b - a) 0 = false) as -> by (apply Qle_bool_false; lra).
  assert (Qeq_bool d 0 = false) as -> by (apply Qeq_bool_false; exact Hd).
  reflexivity.
Qed.

Lemma spacing_spec (anchors : list Q) (d : Q) :
  ~ d == 0 -> anchors <> [] -> StronglySorted Qlt anchors ->
  exists offs,
    Spacer._generate_1d_spacing anchors d = OK offs /\
    StronglySorted Qlt offs /\
    (exists o l a, offs = o :: l /\ head anchors = Some a /\ o == a) /\
    last offs = last anchors /\
    (forall a, a ∈ anchors -> Qin a offs).
Proof.
  intros Hd. induction anchors as [|a rest IH]; intros Hne Hs; [congruence|].
  destruct rest as [|b rest'].
  - exists [a]. cbn. repeat split.
    + repeat constructor.
    + exists a, [], a. repeat split; reflexivity.
    + intros x Hx. apply list_elem_of_singleton in Hx as ->.
      exists a. split; [apply list_elem_of_singleton; reflexivity|reflexivity].
  - pose proof Hs as Hs'. apply StronglySorted_inv in Hs' as [Hrest Hall].
    assert (Hab : a < b) by (inversion Hall; assumption).
    destruct (IH ltac:(discriminate) Hrest)
      as (offs & Hoffs & Hsort & (o & l & b' & -> & Hb' & Hob) & Hlast & Hin).
    injection Hb' as <-.
    rewrite (spacing_cons2 a b rest' d Hab Hd), Hoffs. cbn.
    pose proof (nnodes_ge_2 (b - a) d) as Hn.
    set (n := (Spacer.nnodes (b - a) d - 1)%Z) in *.
    assert (Hn1 : (1 <= n)%Z) by (unfold n; lia).
    eexists. split; [reflexivity|]. repeat split.
    + apply StronglySorted_app_2; [|apply linspace_sorted; assumption|assumption].
      intros x y Hx Hy. apply (linspace_bounds a b n x Hab Hn1) in Hx as [_ Hx].
      pose proof (sorted_head_le o y l Hsort Hy). lra.
    + destruct (linspace_head a b n Hn1) as (x & l' & -> & Hx).
      exists x, (l' ++ o :: l), a. split; [reflexivity|]. split; [reflexivity|exact Hx].
    + rewrite last_app_cons. exact Hlast.
    + intros x Hx. apply elem_of_cons in Hx as [->|Hx].
      * destruct (linspace_head a b n Hn1) as (x & l' & Hl & Hx).
        exists x. split; [|exact Hx]. rewrite Hl. apply elem_of_app. left. left.
      * destruct (Hin x Hx) as (y & Hy & Hyx). exists y. split; [|exact Hyx].
        apply elem_of_app. right. exact Hy.
Qed.

(** * Sorting *)

Section SortBy.
Context {A : Type} (lt : A -> A -> bool).

Lemma elem_of_insert_by (x y : A) (l : list A) :
  y ∈ insert_by lt x l <-> y = x \/ y ∈ l.
Proof.
  induction l as [|z l IH]; cbn.
  - rewrite list_elem_of_singleton. rewrite elem_of_nil. tauto.
  - destruct (lt x z).
    + rewrite elem_of_cons. tauto.
    + rewrite !elem_of_cons, IH. tauto.
Qed.

Lemma elem_of_fold_insert (y : A) (l acc : list A) :
  y ∈ fold_left (fun acc x => insert_by lt x acc) l acc <-> y ∈ acc \/ y ∈ l.
Proof.
  revert acc. induction l as [|x l IH]; intros acc; cbn.
  - rewrite elem_of_nil. tauto.
  - rewrite IH, elem_of_insert_by, elem_of_cons. tauto.
Qed.

Lemma elem_of_sort_by (y : A) (l : list A) : y ∈ sort_by lt l <-> y ∈ l.
Proof.
  unfold sort_by. rewrite elem_of_fold_insert, elem_of_nil. tauto.
Qed.

Lemma sort_by_snoc (l : list A) (x : A) :
  sort_by lt (l ++ [x]) = insert_by lt x (sort_by lt l).
Proof. unfold sort_by. rewrite fold_left_app. reflexivity. Qed.

Lemma length_insert_by (x : A) (l : list A) :
  length (insert_by lt x l) = S (length l).
Proof.
  induction l as [|z l IH]; cbn; [reflexivity|].
  destruct (lt x z); cbn; [reflexivity|]. rewrite IH. reflexivity.
Qed.

Lemma length_fold_insert (l acc : list A) :
  length (fold_left (fun acc x => insert_by lt x acc) l acc)
  = (length acc + length l)%nat.
Proof.
  revert acc. induction l as [|x l IH]; intros acc; cbn; [lia|].
  rewrite IH, length_insert_by. lia.
Qed.

Lemma length_sort_by (l : list A) : length (sort_by lt l) = length l.
Proof. unfold sort_by. rewrite length_fold_insert. reflexivity. Qed.

End SortBy.

Lemma insert_sorted_end (x : Q) (l : list Q) :
  Forall (fun y => y <= x) l -> insert_by Qlt_bool x l = l ++ [x].
Proof.
  induction l as [|y l IH]; intros Hall; cbn; [reflexivity|].
  apply Forall_cons in Hall as [Hy Hall].
  assert (Qlt_bool x y = false) as -> by (apply Qlt_bool_false; exact Hy).
  rewrite (IH Hall). reflexivity.
Qed.

Lemma fold_insert_sorted (l acc : list Q) :
  StronglySorted Qlt (acc ++ l) ->
  fold_left (fun acc x => insert_by Qlt_bool x acc) l acc = acc ++ l.
Proof.
  revert acc. induction l as [|x l IH]; intros acc Hs; cbn.
  - rewrite app_nil_r. reflexivity.
  - rewrite insert_sorted_end.
    + rewrite IH; rewrite <- app_assoc; [reflexivity|exact Hs].
    + apply Forall_forall. intros y Hy. apply Qlt_le_weak.
      apply (StronglySorted_app_1_elem_of Qlt acc (x :: l) y x Hs Hy). left.
Qed.

(** Sorting an increasing list changes nothing. *)
Lemma sorted_increasing (l : list Q) : StronglySorted Qlt l -> sorted l = l.
Proof. intros Hs. apply (fold_insert_sorted l []). exact Hs. Qed.

Lemma insert_increasing (x : Q) (l : list Q) :
  StronglySorted Qlt l -> Forall (fun y => ~ x == y) l ->
  StronglySorted Qlt (insert_by Qlt_bool x l).
Proof.
  induction l as [|y l IH]; intros Hs Hne; cbn.
  - repeat constructor.
  - apply Forall_cons in Hne as [Hxy Hne].
    pose proof Hs as Hs'. apply StronglySorted_inv in Hs' as [Hl Hall].
    destruct (Qlt_bool x y) eqn:E.
    + apply Qlt_bool_iff in E. constructor; [exact Hs|].
      constructor; [exact E|].
      eapply Forall_impl; [exact Hall|]. cbn. intros z Hz. lra.
    + apply Qlt_bool_false in E. constructor; [apply IH; assumption|].
      apply Forall_forall. intros z Hz.
      apply elem_of_insert_by in Hz as [->|Hz].
      * destruct (Qlt_le_dec y x) as [Hlt|Hle]; [exact Hlt|].
        exfalso. apply Hxy. lra.
      * rewrite Forall_forall in Hall. exact (Hall z Hz).
Qed.

Lemma fold_insert_increasing (l acc : list Q) :
  StronglySorted Qlt acc -> distinct l ->
  Forall (fun x => Forall (fun y => ~ x == y) acc) l ->
  StronglySorted Qlt (fold_left (fun acc x => insert_by Qlt_bool x acc) l acc).
Proof.
  revert acc. induction l as [|x l IH]; intros acc Hs Hd Hacc; cbn; [exact Hs|].
  destruct Hd as [Hx Hd]. apply Forall_cons in Hacc as [Hxacc Hacc].
  apply IH; [apply insert_increasing; assumption|exact Hd|].
  apply Forall_forall. intros z Hz. apply Forall_forall. intros y Hy.
  apply elem_of_insert_by in Hy as [->|Hy].
  - rewrite Forall_forall in Hx. intros Hzx. apply (Hx z Hz). symmetry. exact Hzx.
  - rewrite Forall_forall in Hacc. specialize (Hacc z Hz).
    rewrite Forall_forall in Hacc. exact (Hacc y Hy).
Qed.

Lemma sorted_distinct (l : list Q) : distinct l -> StronglySorted Qlt (sorted l).
Proof.
  intros Hd. apply fold_insert_increasing; [constructor|exact Hd|].
  apply Forall_forall. intros x _. constructor.
Qed.

Lemma distinct_filter (f : Q -> bool) (l : list Q) :
  distinct l -> distinct (List.filter f l).
Proof.
  induction l as [|x l IH]; cbn; [trivial|]. intros [Hx Hd].
  destruct (f x); cbn; [|apply IH; exact Hd].
  split; [|apply IH; exact Hd].
  apply Forall_forall. intros y Hy. apply list_elem_of_In, filter_In in Hy as [Hy _].
  rewrite Forall_forall in Hx. apply Hx. apply list_elem_of_In. exact Hy.
Qed.

Lemma unique_distinct (l : list Q) : distinct (unique l).
Proof.
  induction l as [|x l IH]; cbn; [trivial|]. split.
  - apply Forall_forall. intros y Hy. apply list_elem_of_In, filter_In in Hy as [_ Hy].
    apply negb_true_iff, Qeq_bool_false in Hy. exact Hy.
  - apply distinct_filter. exact IH.
Qed.

Lemma unique_subset (l : list Q) (x : Q) : x ∈ unique l -> x ∈ l.
Proof.
  revert x. induction l as [|y l IH]; intros x; cbn; [trivial|].
  rewrite !elem_of_cons. intros [->|Hx]; [left; reflexivity|].
  right. apply IH. apply list_elem_of_In, filter_In in Hx as [Hx _].
  apply list_elem_of_In. exact Hx.
Qed.

Lemma unique_complete (l : list Q) (x : Q) : x ∈ l -> Qin x (unique l).
Proof.
  induction l as [|y l IH]; cbn; [intros Hx; inversion Hx|].
  rewrite elem_of_cons. intros [->|Hx].
  - exists y. split; [left|reflexivity].
  - destruct (Qeq_bool y x) eqn:E.
    + apply Qeq_bool_eq in E. exists y. split; [left|exact E].
    + destruct (IH Hx) as (z & Hz & Hzx). exists z. split; [|exact Hzx].
      right. apply list_elem_of_In, filter_In. split; [apply list_elem_of_In; exact Hz|].
      apply negb_true_iff, Qeq_bool_false. apply Qeq_bool_false in E.
      intros Hyz. apply E. rewrite Hyz. exact Hzx.
Qed.

(** * The coverage loop *)

Lemma covered_iff (offs : list Q) (w : Q * Q) :
  covered offs w = true <-> exists o, o ∈ offs /\ fst w < o /\ o < snd w.
Proof.
  unfold covered. rewrite existsb_exists. split.
  - intros (o & Hin & Hb). apply andb_true_iff in Hb as [H1 H2].
    apply Qlt_bool_iff in H1, H2. exists o. rewrite list_elem_of_In. auto.
  - intros (o & Hin & H1 & H2). exists o. rewrite <- list_elem_of_In.
    split; [exact Hin|]. apply andb_true_iff. split; apply Qlt_bool_iff; assumption.
Qed.

Lemma covered_mono (l1 l2 : list Q) (w : Q * Q) :
  (forall a, a ∈ l1 -> Qin a l2) -> covered l1 w = true -> covered l2 w = true.
Proof.
  intros Hsub Hc. apply covered_iff in Hc as (o & Ho & H1 & H2).
  destruct (Hsub o Ho) as (o' & Ho' & Heq). apply covered_iff.
  exists o'. split; [exact Ho'|]. rewrite Heq. split; assumption.
Qed.

Lemma forallb_id_map {A} (f : A -> bool) (l : list A) :
  forallb id (map f l) = forallb f l.
Proof. induction l as [|x l IH]; cbn; [reflexivity|]. rewrite IH. reflexivity. Qed.

Lemma index_false_spec {A} (f : A -> bool) (l : list A) :
  forallb f l = false ->
  exists i x, index_false (map f l) = OK i /\ l !! i = Some x /\ f x = false.
Proof.
  induction l as [|y l IH]; cbn; [discriminate|].
  destruct (f y) eqn:E; cbn.
  - intros Hl. destruct (IH Hl) as (i & x & -> & Hx & Hfx).
    exists (S i), x. cbn. auto.
  - intros _. exists O, y. cbn. auto.
Qed.

Lemma lookup_combine {A B} (l1 : list A) (l2 : list B) (i : nat) (a : A) (b : B) :
  combine l1 l2 !! i = Some (a, b) -> l1 !! i = Some a /\ l2 !! i = Some b.
Proof.
  revert l2 i. induction l1 as [|x l1 IH]; intros [|y l2] i; cbn; try discriminate.
  destruct i as [|i]; cbn.
  - intros [= -> ->]. auto.
  - apply IH.
Qed.

Lemma filter_length_lt {A} (f g : A -> bool) (l : list A) (x0 : A) :
  (forall x, f x = true -> g x = true) ->
  x0 ∈ l -> g x0 = true -> f x0 = false ->
  (length (List.filter f l) < length (List.filter g l))%nat.
Proof.
  intros Hfg Hin Hg Hf.
  assert (Hle : forall l', (length (List.filter f l') <= length (List.filter g l'))%nat).
  { induction l' as [|y l' IH]; cbn; [lia|].
    destruct (f y) eqn:E.
    - rewrite (Hfg y E). cbn. lia.
    - destruct (g y); cbn; lia. }
  induction l as [|y l IH]; [inversion Hin|].
  apply elem_of_cons in Hin as [<-|Hin]; cbn.
  - rewrite Hf, Hg. cbn. specialize (Hle l). lia.
  - specialize (IH Hin). destruct (f y) eqn:E.
    + rewrite (Hfg y E). cbn. lia.
    + destruct (g y); cbn; lia.
Qed.

Lemma coverage_loop_covers (fuel : nat) (lower upper : list Q) (d : Q) :
  ~ d == 0 ->
  (forall w, w ∈ combine lower upper -> fst w < snd w) ->
  forall anchors offs,
    StronglySorted Qlt anchors -> anchors <> [] ->
    Spacer._generate_1d_spacing anchors d = OK offs ->
    (length (open_windows anchors (combine lower upper)) <= fuel)%nat ->
    exists anchors' offs',
      coverage_loop fuel lower upper d anchors offs = OK (anchors', offs') /\
      forallb (covered offs') (combine lower upper) = true /\
      (forall a, a ∈ anchors -> Qin a offs').
Proof.
  intros Hd Hw. induction fuel as [|fuel IH]; intros anchors offs Hs Hne Hsp Hm.
  all: destruct (spacing_spec anchors d Hd Hne Hs) as (offs0 & Hsp0 & _ & _ & _ & Hin).
  all: rewrite Hsp in Hsp0; injection Hsp0 as <-.
  all: cbn [coverage_loop]; unfold in_range; rewrite forallb_id_map.
  all: destruct (forallb (covered offs) (combine lower upper)) eqn:E;
    [exists anchors, offs; auto|].
  all: destruct (index_false_spec _ _ E) as (i & [lo up] & Hi & Hlk & Hc).
  all: assert (Hopen : covered anchors (lo, up) = false).
  1,3: destruct (covered anchors (lo, up)) eqn:E'; [|reflexivity];
       apply (covered_mono _ offs _ Hin) in E'; congruence.
  - exfalso. assert (Hx : (lo, up) ∈ open_windows anchors (combine lower upper)).
    { apply list_elem_of_In, filter_In. split.
      - apply list_elem_of_In, list_elem_of_lookup. eauto.
      - rewrite Hopen. reflexivity. }
    destruct (open_windows anchors (combine lower upper)); [inversion Hx|cbn in Hm; lia].
  - rewrite Hi. cbn.
    destruct (lookup_combine _ _ _ _ _ Hlk) as [Hlo Hup].
    unfold getitem. rewrite Hlo, Hup. cbn.
    assert (Hlt : lo < up).
    { apply (Hw (lo, up)). apply list_elem_of_lookup. eauto. }
    set (mid := (lo + up) / 2).
    assert (Hmid : lo < mid /\ mid < up).
    { unfold mid. split; [apply Qlt_shift_div_l|apply Qlt_shift_div_r]; lra. }
    assert (Hnew : Forall (fun y => ~ mid == y) anchors).
    { apply Forall_forall. intros y Hy Heq.
      assert (covered anchors (lo, up) = true); [|congruence].
      apply covered_iff. exists y. cbn. split; [exact Hy|]. destruct Hmid. split; lra. }
    unfold sorted. rewrite sort_by_snoc.
    fold (sorted anchors). rewrite (sorted_increasing anchors Hs).
    set (anchors' := insert_by Qlt_bool mid anchors).
    assert (Hs' : StronglySorted Qlt anchors') by (apply insert_increasing; assumption).
    assert (Hne' : anchors' <> []).
    { intros Heq. assert (Hm' : mid ∈ anchors') by (apply elem_of_insert_by; auto).
      rewrite Heq in Hm'. inversion Hm'. }
    destruct (spacing_spec anchors' d Hd Hne' Hs') as (offs' & Hsp' & _).
    rewrite Hsp'. cbn.
    assert (Hm' : (length (open_windows anchors' (combine lower upper)) <= fuel)%nat).
    { assert (length (open_windows anchors' (combine lower upper))
              < length (open_windows anchors (combine lower upper)))%nat; [|lia].
      apply (filter_length_lt _ _ _ (lo, up)).
      - intros w Hcw. apply negb_true_iff in Hcw. apply negb_true_iff.
        destruct (covered anchors w) eqn:E'; [|reflexivity].
        rewrite <- Hcw. symmetry. apply (covered_mono anchors); [|exact E'].
        intros a Ha. exists a. split; [|reflexivity].
        apply elem_of_insert_by. auto.
      - apply list_elem_of_lookup. eauto.
      - rewrite Hopen. reflexivity.
      - apply negb_false_iff, covered_iff. exists mid. cbn.
        split; [apply elem_of_insert_by; auto|tauto]. }
    destruct (IH anchors' offs' Hs' Hne' Hsp' Hm') as (a'' & o'' & Hloop & Hcov & Hsub).
    exists a'', o''. split; [exact Hloop|]. split; [exact Hcov|].
    intros a Ha. apply Hsub. apply elem_of_insert_by. auto.
Qed.

Lemma windows_nonempty (x y : Q) (l : list Q) :
  StronglySorted Qlt (x :: l ++ [y]) ->
  forall w, w ∈ combine (x :: l) (l ++ [y]) -> fst w < snd w.
Proof.
  revert x. induction l as [|z l IH]; intros x Hs w; cbn.
  - rewrite list_elem_of_singleton. intros ->. cbn.
    apply StronglySorted_inv in Hs as [_ Hall]. inversion Hall. assumption.
  - rewrite elem_of_cons. pose proof Hs as Hs'.
    apply StronglySorted_inv in Hs' as [Hl Hall]. intros [->|Hw].
    + cbn. inversion Hall. assumption.
    + apply (IH z Hl w Hw).
Qed.

Lemma windows_neighbours (x y c : Q) (l : list Q) :
  c ∈ l ->
  (exists lo, (lo, c) ∈ combine (x :: l) (l ++ [y])) /\
  (exists up, (c, up) ∈ combine (x :: l) (l ++ [y])).
Proof.
  revert x. induction l as [|z l IH]; intros x Hc; [inversion Hc|].
  apply elem_of_cons in Hc as [->|Hc]; cbn.
  - split.
    + exists x. left.
    + destruct l as [|z' l]; cbn; [exists y|exists z']; right; left.
  - destruct (IH z Hc) as [[lo Hlo] [up Hup]].
    split; [exists lo|exists up]; right; assumption.
Qed.

Lemma limits_increasing (chainages : list Q) :
  StronglySorted Qlt (limits_of chainages).
Proof. apply sorted_distinct, unique_distinct. Qed.

Lemma limits_subset (chainages : list Q) (c : Q) :
  c ∈ limits_of chainages -> c ∈ chainages.
Proof. intros Hc. apply elem_of_sort_by in Hc. apply unique_subset. exact Hc. Qed.

Lemma limits_complete (chainages : list Q) (c : Q) :
  c ∈ chainages -> Qin c (limits_of chainages).
Proof.
  intros Hc. destruct (unique_complete _ _ Hc) as (c' & Hc' & Heq).
  exists c'. split; [|exact Heq]. apply elem_of_sort_by. exact Hc'.
Qed.

Lemma length_unique (l : list Q) : (length (unique l) <= length l)%nat.
Proof.
  induction l as [|x l IH]; cbn; [lia|].
  pose proof (filter_length_le (fun y => negb (Qeq_bool x y)) (unique l)). lia.
Qed.

Lemma length_limits (chainages : list Q) :
  (length (limits_of chainages) <= length chainages)%nat.
Proof.
  unfold limits_of, sorted. rewrite length_sort_by. apply length_unique.
Qed.

Lemma bounded_limits_sorted (L : Q) (l : list Q) :
  0 < L -> StronglySorted Qlt l -> (forall c, c ∈ l -> 0 < c /\ c < L) ->
  StronglySorted Qlt (- (1 # 10) :: l ++ [L + (1 # 10)]).
Proof.
  intros HL Hs Hb. constructor.
  - apply StronglySorted_app_2; [|exact Hs|repeat constructor].
    intros c z Hc Hz. apply list_elem_of_singleton in Hz as ->.
    destruct (Hb c Hc). lra.
  - apply Forall_app. split.
    + apply Forall_forall. intros c Hc. destruct (Hb c Hc). lra.
    + repeat constructor. lra.
Qed.

(** The offsets of a branch whose structures lie strictly inside it. *)
Lemma structure_offsets_spec (fuel : nat) (L d : Q) (chainages : list Q) :
  0 < L -> ~ d == 0 ->
  (forall c, c ∈ chainages -> 0 < c /\ c < L) ->
  (length chainages < fuel)%nat ->
  exists offs,
    structure_offsets fuel L chainages d = OK offs /\
    Qin 0 offs /\ Qin L offs /\
    (chainages <> [] ->
     forall w, w ∈ windows L chainages -> covered offs w = true).
Proof.
  intros HL Hd Hb Hfuel. unfold structure_offsets.
  assert (Hs0 : StronglySorted Qlt [0; L]) by (repeat constructor; exact HL).
  destruct (spacing_spec [0; L] d Hd ltac:(discriminate) Hs0)
    as (offs0 & Hsp0 & _ & _ & _ & Hin0).
  rewrite Hsp0. cbn [mbind result_bind].
  destruct (any_limit (limits_of chainages)) eqn:Hany.
  - pose proof (limits_increasing chainages) as Hls.
    assert (Hlb : forall c, c ∈ limits_of chainages -> 0 < c /\ c < L).
    { intros c Hc. apply Hb, limits_subset. exact Hc. }
    pose proof (bounded_limits_sorted L _ HL Hls Hlb) as Hall.
    pose proof (windows_nonempty _ _ _ Hall) as Hw.
    destruct (coverage_loop_covers fuel (lower_limits (limits_of chainages))
                (upper_limits (limits_of chainages) L) d Hd Hw [0; L] offs0
                Hs0 ltac:(discriminate) Hsp0) as (a' & offs & -> & Hcov & Hsub).
    { unfold open_windows.
      etransitivity; [apply filter_length_le|].
      unfold lower_limits, upper_limits.
      rewrite length_combine. cbn [length]. rewrite length_app. cbn [length].
      pose proof (length_limits chainages). lia. }
    exists offs. cbn. split; [reflexivity|].
    split; [apply Hsub; left|]. split; [apply Hsub; right; left|].
    intros _ w Hw'. rewrite forallb_forall in Hcov. apply Hcov.
    apply list_elem_of_In. exact Hw'.
  - exists offs0. split; [reflexivity|].
    split; [apply Hin0; left|]. split; [apply Hin0; right; left|].
    intros Hne. exfalso. destruct chainages as [|c l]; [congruence|].
    destruct (limits_complete (c :: l) c ltac:(left)) as (c' & Hc' & Heq).
    assert (any_limit (limits_of (c :: l)) = true); [|congruence].
    unfold any_limit. apply existsb_exists. exists c'.
    split; [apply list_elem_of_In; exact Hc'|].
    apply negb_true_iff, Qeq_bool_false. destruct (Hb c ltac:(left)). lra.
Qed.

(** C1 (amended).  On a branch of positive length, with a spacing other
    than zero and structure chainages strictly inside the branch, the
    coverage loop ends within one pass per window, and its offsets have a
    point strictly inside every window between neighbouring limits: every
    structure chainage has an offset strictly below it and one strictly
    above it, each within the adjacent window.  Nothing keeps an offset off
    the chainage itself. *)
Theorem structure_offsets_straddle (fuel : nat) (L d : Q) (chainages : list Q) :
  0 < L -> ~ d == 0 ->
  (forall c, c ∈ chainages -> 0 < c /\ c < L) ->
  (length chainages < fuel)%nat ->
  exists offs,
    structure_offsets fuel L chainages d = OK offs /\
    straddled L chainages offs.
Proof.
  intros HL Hd Hb Hfuel.
  destruct (structure_offsets_spec fuel L d chainages HL Hd Hb Hfuel)
    as (offs & Hrun & _ & _ & Hcov).
  exists offs. split; [exact Hrun|]. intros c Hc.
  assert (Hne : chainages <> []) by (intros ->; inversion Hc).
  destruct (limits_complete _ _ Hc) as (c' & Hc' & Heq).
  destruct (windows_neighbours (- (1 # 10)) (L + (1 # 10)) c' _ Hc')
    as [[lo Hlo] [up Hup]].
  destruct (proj1 (covered_iff _ _) (Hcov Hne _ Hlo)) as (o1 & Ho1 & H1 & H2).
  destruct (proj1 (covered_iff _ _) (Hcov Hne _ Hup)) as (o2 & Ho2 & H3 & H4).
  cbn in H1, H2, H3, H4.
  exists c', lo, up, o1, o2. repeat split; try assumption; lra.
Qed.

Lemma structure_offsets_straddle_witness :
  0 < 100 /\ ~ 40 == 0 /\
  (forall c, c ∈ [10; 20] -> 0 < c /\ c < 100) /\
  (length [10; 20] < 3)%nat /\
  exists offs,
    structure_offsets 3 100 [10; 20] 40 = OK offs /\
    straddled 100 [10; 20] offs.
Proof.
  assert (H1 : 0 < 100) by reflexivity.
  assert (H2 : ~ 40 == 0) by (intros H; vm_compute in H; discriminate H).
  assert (H3 : forall c, c ∈ [10; 20] -> 0 < c /\ c < 100).
  { intros c Hc. apply elem_of_cons in Hc as [->|Hc]; [split; reflexivity|].
    apply list_elem_of_singleton in Hc as ->. split; reflexivity. }
  assert (H4 : (length [10; 20] < 3)%nat) by (simpl; lia).
  split; [exact H1|]. split; [exact H2|]. split; [exact H3|]. split; [exact H4|].
  exact (structure_offsets_straddle 3 100 40 [10; 20] H1 H2 H3 H4).
Defined.

(** C1 (counterexample).  On a branch of length 100 with spacing 40 and a
    structure at chainage 50, strictly inside the branch, the loop has
    nothing to do and the offsets are 0, 50 and 100: a grid point lies on
    the structure. *)
Lemma structure_offsets_on_structure :
  0 < 50 /\ 50 < 100 /\
  exists offs,
    structure_offsets 1 100 [50] 40 = OK offs /\
    Forall2 Qeq offs [0; 50; 100] /\ Qin 50 offs.
Proof.
  split; [reflexivity|]. split; [reflexivity|].
  eexists. split; [vm_compute; reflexivity|]. split.
  - repeat constructor.
  - exists (100 # 2). split; [right; left|reflexivity].
Qed.

Lemma first_pass_spec {point} (d : Q) (bs : list (Branch point))
    (m : gmap string (list Q)) :
  ~ d == 0 -> (forall b, b ∈ bs -> 0 < geom_length b) ->
  exists m',
    for_each bs (store_spacing d) m = OK m' /\
    (forall k, k ∉ map Index bs -> m' !! k = m !! k) /\
    (forall b, b ∈ bs ->
       exists b' offs, b' ∈ bs /\ Index b' = Index b /\
         m' !! Index b = Some offs /\
         Spacer._generate_1d_spacing [0; geom_length b'] d = OK offs).
Proof.
  intros Hd. revert m. induction bs as [|b bs IH]; intros m Hpos.
  - exists m. cbn. split; [reflexivity|]. split; [reflexivity|].
    intros b Hb. inversion Hb.
  - assert (Hs : StronglySorted Qlt [0; geom_length b]).
    { repeat constructor. apply Hpos. left. }
    destruct (spacing_spec [0; geom_length b] d Hd ltac:(discriminate) Hs)
      as (offs & Hsp & _).
    destruct (IH (<[Index b := offs]> m)) as (m' & Hrun & Hframe & Hbs).
    { intros b' Hb'. apply Hpos. right. exact Hb'. }
    assert (Hstep : store_spacing d b m = OK (<[Index b := offs]> m)).
    { unfold store_spacing. rewrite Hsp. reflexivity. }
    exists m'. cbn [for_each]. rewrite Hstep. cbn [mbind result_bind].
    split; [exact Hrun|]. split.
    + intros k Hk. rewrite Hframe.
      * apply lookup_insert_ne. intros Heq. apply Hk. cbn. rewrite <- Heq. left.
      * intros Hk'. apply Hk. cbn. right. exact Hk'.
    + intros b0 Hb0. destruct (decide (Index b0 ∈ map Index bs)) as [Hdup|Hfresh].
      * apply list_elem_of_fmap in Hdup as (b1 & Heq & Hb1).
        destruct (Hbs b1 Hb1) as (b' & offs' & Hb' & Hidx & Hlk & Hsp').
        exists b', offs'. split; [right; exact Hb'|].
        split; [congruence|]. split; [rewrite Heq; exact Hlk|exact Hsp'].
      * apply elem_of_cons in Hb0 as [->|Hb0].
        -- exists b, offs. split; [left|]. split; [reflexivity|].
           split; [|exact Hsp]. rewrite (Hframe _ Hfresh). apply lookup_insert_eq.
        -- exfalso. apply Hfresh. apply list_elem_of_fmap. exists b0. auto.
Qed.

Lemma generate_offsets_None {point} (fuel : nat) (bs : list (Branch point))
    (d : Q) (m : gmap string (list Q)) :
  generate_offsets fuel bs d None m =
  (m' ← for_each bs (store_spacing d) m; OK (m', [])).
Proof. reflexivity. Qed.

Lemma spacing_100_40 :
  exists offs, Spacer._generate_1d_spacing [0; 100] 40 = OK offs /\
               Forall2 Qeq offs [0; 50; 100].
Proof.
  eexists. split; [vm_compute; reflexivity|].
  repeat constructor.
Qed.

Lemma spacing_100_30 :
  exists offs, Spacer._generate_1d_spacing [0; 100] 30 = OK offs /\
               Forall2 Qeq offs [0; 100 # 3; 200 # 3; 100].
Proof.
  eexists. split; [vm_compute; reflexivity|].
  repeat constructor.
Qed.

(** C3 (amended).  For consecutive anchors [a < b] with gap [L = b - a]
    and a spacing other than zero, the spacing function puts
    [max(2, round(L / spacing) + 1) - 1] evenly spaced points on the section,
    starting at [a] and staying below [b], where [round] rounds halves to
    the even neighbour.  So [round(100 / 40) = 2]: anchors [0, 100] with
    spacing 40 give the three offsets 0, 50, 100; the four offsets
    0, 33.33, 66.67, 100 belong to spacing 30. *)
Theorem spacing_section_nodes :
  (forall (a b : Q) (rest : list Q) (d : Q),
      a < b -> ~ d == 0 -> Spacer.section_filled a b rest d) /\
  py_round (100 / 40) = 2%Z /\
  (exists offs, Spacer._generate_1d_spacing [0; 100] 40 = OK offs /\
                Forall2 Qeq offs [0; 50; 100]) /\
  (exists offs, Spacer._generate_1d_spacing [0; 100] 30 = OK offs /\
                Forall2 Qeq offs [0; 100 # 3; 200 # 3; 100]).
Proof.
  split; [|split; [reflexivity|split; [exact spacing_100_40|exact spacing_100_30]]].
  intros a b rest d Hab Hd. unfold Spacer.section_filled.
  set (node_count := Z.max 2 (py_round ((b - a) / d) + 1)).
  exists (linspace a b (node_count - 1)).
  assert (Hn : (1 <= node_count - 1)%Z) by (unfold node_count; lia).
  split; [exact (spacing_cons2 a b rest d Hab Hd)|]. split.
  - rewrite length_linspace. lia.
  - intros i x Hx. split.
    + apply linspace_lookup in Hx as [_ ->]. ring.
    + apply (linspace_bounds a b (node_count - 1) x Hab Hn).
      apply list_elem_of_lookup. eauto.
Qed.

Lemma spacing_section_nodes_witness :
  0 < 100 /\ ~ 40 == 0 /\ Spacer.section_filled 0 100 [] 40.
Proof.
  assert (H1 : 0 < 100) by reflexivity.
  assert (H2 : ~ 40 == 0) by (intros H; vm_compute in H; discriminate H).
  split; [exact H1|]. split; [exact H2|].
  exact (proj1 spacing_section_nodes 0 100 [] 40 H1 H2).
Defined.

(** C3 (counterexample).  Anchors [0, 100] with spacing 40 give three
    offsets, not the four of the claim: 100 / 40 = 2.5 is rounded to 2. *)
Lemma spacing_100_40_three_nodes :
  exists offs, Spacer._generate_1d_spacing [0; 100] 40 = OK offs /\
               length offs = 3%nat /\
               ~ Forall2 Qeq offs [0; 100 # 3; 200 # 3; 100].
Proof.
  eexists. split; [vm_compute; reflexivity|]. split; [reflexivity|].
  intros Hall. apply Forall2_length in Hall. discriminate Hall.
Qed.

(** C7.  On a strictly increasing anchor sequence of at least two anchors
    and with a positive spacing, the spacing function returns a strictly
    increasing sequence that starts at the first anchor and ends at the last
    one.  So the offsets that [generate_offsets] stores for the branches,
    made from the anchors [0, length], contain chainage 0 and the length. *)
Theorem spacing_increasing :
  (forall (anchors : list Q) (d : Q),
      (2 <= length anchors)%nat -> StronglySorted Qlt anchors -> 0 < d ->
      Spacer.ends_kept anchors d) /\
  (forall (point : Type) (fuel : nat) (branches : list (Branch point)) (d : Q)
          (self_offsets : gmap string (list Q)),
      0 < d -> (forall b, b ∈ branches -> 0 < geom_length b) ->
      exists m,
        generate_offsets fuel branches d None self_offsets = OK (m, []) /\
        ends_included branches m).
Proof.
  split.
  - intros anchors d Hlen Hs Hd.
    assert (Hd' : ~ d == 0) by lra.
    assert (Hne : anchors <> []) by (destruct anchors; [cbn in Hlen; lia|discriminate]).
    destruct (spacing_spec anchors d Hd' Hne Hs)
      as (offs & Hsp & Hsort & (o & l & a & -> & Hhd & Hoa) & Hlast & _).
    destruct (last anchors) as [z|] eqn:Hl.
    + exists (o :: l), a, z. repeat split; try assumption.
      exists o. split; [reflexivity|exact Hoa].
    + apply last_None in Hl. congruence.
  - intros point fuel branches d m Hd Hpos.
    assert (Hd' : ~ d == 0) by lra.
    destruct (first_pass_spec d branches m Hd' Hpos) as (m' & Hrun & _ & Hbs).
    exists m'. split.
    + rewrite generate_offsets_None. unfold store_spacing in Hrun |- *.
      rewrite Hrun. reflexivity.
    + intros b Hb. destruct (Hbs b Hb) as (b' & offs & Hb' & Hidx & Hlk & Hsp).
      exists b', offs. repeat split; try assumption.
      all: assert (Hs : StronglySorted Qlt [0; geom_length b'])
        by (repeat constructor; apply Hpos; exact Hb').
      all: destruct (spacing_spec [0; geom_length b'] d Hd' ltac:(discriminate) Hs)
        as (offs' & Hsp' & _ & _ & _ & Hin).
      all: rewrite Hsp in Hsp'; injection Hsp' as <-.
      * apply Hin. left.
      * apply Hin. right. left.
Qed.

Lemma positive_lengths_a_b :
  forall b, b ∈ [branch_a; branch_b] -> 0 < geom_length b.
Proof.
  intros b Hb. apply elem_of_cons in Hb as [->|Hb]; [reflexivity|].
  apply list_elem_of_singleton in Hb as ->. reflexivity.
Qed.

Lemma spacing_increasing_witness :
  ((2 <= length [0; 15; 100])%nat /\ StronglySorted Qlt [0; 15; 100] /\ 0 < 40 /\
   Spacer.ends_kept [0; 15; 100] 40) /\
  (0 < 40 /\ (forall b, b ∈ [branch_a; branch_b] -> 0 < geom_length b) /\
   exists m,
     generate_offsets 0 [branch_a; branch_b] 40 None ∅ = OK (m, []) /\
     ends_included [branch_a; branch_b] m).
Proof.
  assert (H1 : (2 <= length [0; 15; 100])%nat) by (simpl; lia).
  assert (H2 : StronglySorted Qlt [0; 15; 100]).
  { repeat constructor; reflexivity. }
  assert (H3 : 0 < 40) by reflexivity.
  split.
  - split; [exact H1|]. split; [exact H2|]. split; [exact H3|].
    exact (proj1 spacing_increasing [0; 15; 100] 40 H1 H2 H3).
  - split; [exact H3|]. split; [exact positive_lengths_a_b|].
    exact (proj2 spacing_increasing (Z * Z)%type 0%nat [branch_a; branch_b] 40 ∅
             H3 positive_lengths_a_b).
Defined.

(** * Structures and their branch id *)

Lemma filter_none {A} (f : A -> bool) (l : list A) :
  (forall x, x ∈ l -> f x = false) -> List.filter f l = [].
Proof.
  induction l as [|x l IH]; intros Hall; cbn; [reflexivity|].
  rewrite (Hall x ltac:(left)). apply IH. intros y Hy. apply Hall. right. exact Hy.
Qed.

Lemma existsb_none {A} (f : A -> bool) (l : list A) :
  (forall x, x ∈ l -> f x = false) -> existsb f l = false.
Proof.
  induction l as [|x l IH]; intros Hall; cbn; [reflexivity|].
  rewrite (Hall x ltac:(left)). apply IH. intros y Hy. apply Hall. right. exact Hy.
Qed.

(** Structures that all name a branch change nothing. *)
Lemma generate_offsets_linked_ignored {point} (fuel : nat)
    (branches : list (Branch point)) (d : Q) (rows : list Structure)
    (self_offsets : gmap string (list Q)) :
  (forall r, r ∈ rows -> branchid r <> "") ->
  generate_offsets fuel branches d (Some rows) self_offsets =
  generate_offsets fuel branches d None self_offsets.
Proof.
  intros Hlinked. unfold generate_offsets.
  assert (Hidx : forall r, r ∈ rows -> String.eqb (branchid r) "" = false).
  { intros r Hr. apply String.eqb_neq. exact (Hlinked r Hr). }
  rewrite (filter_none _ rows Hidx), (existsb_none _ rows Hidx).
  reflexivity.
Qed.

(** C2 (code at the failing input).  The selection keeps the rows whose
    branch id is empty and drops the others.  Two structures on branch
    ["b1"] at chainages 10 and 20 leave its offsets as they are without
    structures, with no offset between the two; a structure with the empty
    branch id is taken as a constraint and looked up as a branch, which
    fails with [KeyError]. *)
Theorem generate_offsets_keeps_unlinked :
  let branches : list (Branch unit) := [mkBranch "b1" [] 100] in
  let linked := [mkStructure "w1" "b1" 10; mkStructure "w2" "b1" 20] in
  let unlinked := [mkStructure "w3" "" 10; mkStructure "w4" "" 20] in
  generate_offsets 5 branches 40 (Some linked) ∅ =
    generate_offsets 5 branches 40 None ∅ /\
  (exists m offs,
      generate_offsets 5 branches 40 (Some linked) ∅ = OK (m, []) /\
      m !! "b1" = Some offs /\ covered offs (10, 20) = false) /\
  generate_offsets 5 branches 40 (Some unlinked) ∅ = Raise KeyError /\
  (exists m offs,
      generate_offsets 5 [mkBranch "" ([] : list unit) 100] 40 (Some unlinked) ∅
        = OK (m, [NotLinkedToBranch]) /\
      m !! "" = Some offs /\ covered offs (10, 20) = true).
Proof.
  cbv zeta. split; [|split; [|split]].
  - apply generate_offsets_linked_ignored. intros r Hr.
    repeat (apply elem_of_cons in Hr as [->|Hr]; [discriminate|]). inversion Hr.
  - eexists _, _. split; [vm_compute; reflexivity|]. split; [vm_compute; reflexivity|].
    vm_compute. reflexivity.
  - vm_compute. reflexivity.
  - eexists _, _. split; [vm_compute; reflexivity|]. split; [vm_compute; reflexivity|].
    vm_compute. reflexivity.
Qed.

Section SortPerm.
Context {A : Type} (lt : A -> A -> bool).

Lemma insert_by_Permutation (x : A) (l : list A) : insert_by lt x l ≡ₚ x :: l.
Proof.
  induction l as [|y l IH]; cbn; [reflexivity|].
  destruct (lt x y); [reflexivity|]. rewrite IH. apply perm_swap.
Qed.

Lemma fold_insert_Permutation (l acc : list A) :
  fold_left (fun acc x => insert_by lt x acc) l acc ≡ₚ acc ++ l.
Proof.
  revert acc. induction l as [|x l IH]; intros acc; cbn.
  - rewrite app_nil_r. reflexivity.
  - rewrite IH, insert_by_Permutation. apply Permutation_middle.
Qed.

Lemma sort_by_Permutation (l : list A) : sort_by lt l ≡ₚ l.
Proof. apply (fold_insert_Permutation l []). Qed.

End SortPerm.

Lemma bind_OK_inv {A B} (r : result A) (f : A -> result B) (y : B) :
  (r ≫= f) = OK y -> exists x, r = OK x /\ f x = OK y.
Proof. destruct r as [x|e|]; cbn; [eauto|discriminate|discriminate]. Qed.

Section Topology.
Context {point : Type} `{Countable point}.
Implicit Types (b : Branch point) (st : net_state (point := point)) (p q : point).

Lemma contains_iff (l : list point) p : contains l p = true <-> p ∈ l.
Proof.
  unfold contains. rewrite existsb_exists. split.
  - intros (q & Hq & Heq). apply bool_decide_eq_true in Heq as ->.
    apply list_elem_of_In. exact Hq.
  - intros Hp. exists p. split; [apply list_elem_of_In; exact Hp|].
    apply bool_decide_eq_true. reflexivity.
Qed.

Lemma index_of_same (l : list point) p q (i : nat) :
  index_of l p = OK i -> index_of l q = OK i -> p = q.
Proof.
  revert i. induction l as [|x l IH]; intros i; cbn; [discriminate|].
  destruct (bool_decide (x = p)) eqn:Ep, (bool_decide (x = q)) eqn:Eq.
  - apply bool_decide_eq_true in Ep, Eq. congruence.
  - intros [= <-]. destruct (index_of l q); cbn; discriminate.
  - destruct (index_of l p); cbn; try discriminate. intros [= <-]. discriminate.
  - destruct (index_of l p) as [j|e|] eqn:Ej; cbn; try discriminate.
    destruct (index_of l q) as [k|e|] eqn:Ek; cbn; try discriminate.
    intros [= <-] [= <-]. apply (IH k); reflexivity.
Qed.

Lemma register_NoDup (l : list point) p : NoDup l -> NoDup (register l p).
Proof.
  intros Hnd. unfold register. destruct (contains l p) eqn:E; [exact Hnd|].
  apply NoDup_app. split; [exact Hnd|]. split; [|apply NoDup_singleton].
  intros x Hx Hx'. apply list_elem_of_singleton in Hx' as ->.
  apply contains_iff in Hx. congruence.
Qed.

Lemma elem_of_register (l : list point) p x :
  x ∈ register l p <-> x ∈ l \/ x = p.
Proof.
  unfold register. destruct (contains l p) eqn:E.
  - apply contains_iff in E. split; [auto|]. intros [Hx| ->]; assumption.
  - rewrite elem_of_app, list_elem_of_singleton. reflexivity.
Qed.

Lemma add_branch_nodes (offs : gmap string (list Q)) (i : nat) b st st' :
  add_branch offs i b st = OK st' ->
  exists p q, endpoints b = [p; q] /\ p <> q /\
              nodes st' = register (register (nodes st) p) q.
Proof.
  unfold add_branch, getitem, endpoints.
  rewrite <- head_lookup.
  destruct (head (coords b)) as [p|]; cbn; [|discriminate].
  destruct (last (coords b)) as [q|]; cbn; [|discriminate].
  destruct (offs !! Index b) as [o|]; cbn; [|discriminate].
  fold (register (nodes st) p).
  set (l1 := register (nodes st) p).
  fold (register l1 q). set (l2 := register l1 q).
  match goal with |- context [let '(_, _) := ?e in _] => destruct e as [o' nl] end.
  destruct (index_of l2 p) as [i1|e|] eqn:E1; cbn; try discriminate.
  destruct (index_of l2 q) as [i2|e|] eqn:E2; cbn; try discriminate.
  destruct (Nat.eqb i1 i2) eqn:En; [discriminate|].
  apply Nat.eqb_neq in En.
  intros Hrun. exists p, q. split; [reflexivity|]. split.
  - intros ->. rewrite E1 in E2. congruence.
  - apply bind_OK_inv in Hrun as ([l d] & _ & Hrun).
    apply bind_OK_inv in Hrun as ([l' d'] & _ & Hrun).
    injection Hrun as <-. reflexivity.
Qed.

Lemma loop_nodes (offs : gmap string (list Q)) (l : list (nat * Branch point)) st st' :
  for_each l (fun ib st => add_branch offs (fst ib) (snd ib) st) st = OK st' ->
  NoDup (nodes st) ->
  NoDup (nodes st') /\
  (forall x, x ∈ nodes st' <-> x ∈ nodes st \/ x ∈ all_endpoints (map snd l)) /\
  length (all_endpoints (map snd l)) = (2 * length l)%nat.
Proof.
  revert st. induction l as [|[i b] l IH]; intros st Hrun Hnd.
  - cbn in Hrun. injection Hrun as <-. cbn. split; [exact Hnd|].
    split; [|reflexivity]. intros x. rewrite elem_of_nil. tauto.
  - cbn [for_each] in Hrun. apply bind_OK_inv in Hrun as (st1 & Hadd & Hrun).
    cbn [fst snd] in Hadd.
    destruct (add_branch_nodes _ _ _ _ _ Hadd) as (p & q & Hends & Hpq & Hnodes).
    destruct (IH st1 Hrun) as (Hnd' & Hmem & Hlen).
    { rewrite Hnodes. apply register_NoDup, register_NoDup. exact Hnd. }
    split; [exact Hnd'|]. split.
    + intros x. rewrite Hmem, Hnodes, !elem_of_register.
      unfold all_endpoints. cbn [map flat_map snd]. rewrite Hends.
      rewrite elem_of_app, !elem_of_cons, elem_of_nil. tauto.
    + unfold all_endpoints in *. cbn [map flat_map snd]. rewrite Hends.
      rewrite length_app, Hlen. cbn [length]. lia.
Qed.

Lemma map_snd_combine_seq {A} (l : list A) (s : nat) :
  map snd (combine (seq s (length l)) l) = l.
Proof.
  revert s. induction l as [|x l IH]; intros s; cbn; [reflexivity|].
  rewrite IH. reflexivity.
Qed.
Lemma index_of_elem (l : list point) p :
  p ∈ l -> exists i, index_of l p = OK i.
Proof.
  induction l as [|x l IH]; intros Hin; [inversion Hin|]. cbn.
  destruct (bool_decide (x = p)) eqn:E; [eauto|].
  apply bool_decide_eq_false in E.
  apply elem_of_cons in Hin as [->|Hin]; [congruence|].
  destruct (IH Hin) as (i & ->). cbn. eauto.
Qed.

Lemma edge_range_cons (start nlinks : Z) :
  (1 <= nlinks)%Z ->
  exists e l, edge_range start nlinks = e :: l.
Proof.
  intros Hn. unfold edge_range.
  destruct (Z.to_nat nlinks) as [|k] eqn:E; [lia|]. cbn. eauto.
Qed.

Lemma set_last_to_cons (e : Z * Z) (l : list (Z * Z)) (v : Z) :
  exists e' l', set_last_to (e :: l) v = OK (e' :: l').
Proof.
  unfold set_last_to.
  destruct (rev (e :: l)) as [|[a0 b0] r] eqn:E.
  - apply (f_equal (@length _)) in E. rewrite length_rev in E. discriminate.
  - destruct (rev ((a0, v) :: r)) as [|e' l'] eqn:E'.
    + apply (f_equal (@length _)) in E'. rewrite length_rev in E'. discriminate.
    + eauto.
Qed.

Lemma add_branch_OK (offs : gmap string (list Q)) (i : nat) b st p q (o : list Q) :
  dict_covers st ->
  endpoints b = [p; q] -> p <> q ->
  offs !! Index b = Some o -> (2 <= length o)%nat ->
  exists st', add_branch offs i b st = OK st' /\ dict_covers st'.
Proof.
  intros Hcov Hends Hpq Ho Hlen.
  unfold endpoints in Hends.
  destruct (head (coords b)) as [p'|] eqn:Hhd; [|discriminate].
  destruct (last (coords b)) as [q'|] eqn:Hla; [|discriminate].
  injection Hends as -> ->.
  assert (Hget : getitem (coords b) 0 = OK p).
  { unfold getitem. rewrite <- head_lookup, Hhd. reflexivity. }
  unfold add_branch. rewrite Hget, Hla, Ho. cbn [mbind result_bind].
  fold (register (nodes st) p). set (l1 := register (nodes st) p).
  fold (register l1 q). set (l2 := register l1 q).
  assert (Hp2 : p ∈ l2).
  { apply elem_of_register. left. apply elem_of_register. auto. }
  assert (Hq2 : q ∈ l2) by (apply elem_of_register; auto).
  destruct (index_of_elem l2 p Hp2) as (i1 & E1).
  destruct (index_of_elem l2 q Hq2) as (i2 & E2).
  set (nl0 := (Z.of_nat (length o) - 1)%Z).
  match goal with |- context [let '(_, _) := ?e in _] =>
    assert (Hnl : exists o' nl, e = (o', nl) /\ (1 <= nl)%Z) end.
  { destruct (if contains l1 q then _ else _) as [|x xs] eqn:E.
    - eexists _, _. split; [reflexivity|]. unfold nl0. lia.
    - eexists _, _. split; [reflexivity|]. unfold nl0. lia. }
  destruct Hnl as (o' & nl & -> & Hnl).
  rewrite E1, E2. cbn [mbind result_bind].
  assert (Nat.eqb i1 i2 = false) as ->.
  { apply Nat.eqb_neq. intros ->. apply Hpq. exact (index_of_same l2 p q i2 E1 E2). }
  set (start := if contains (nodes st) p then (_ - 1)%Z else _).
  destruct (edge_range_cons start nl Hnl) as (e & l & Hrange). rewrite Hrange.
  assert (Hfirst : exists e1 d1,
            (if contains (nodes st) p
             then v ← dict_get (edge_nodes_dict st) p;
                  l0 ← set_first_from (e :: l) v; OK (l0, edge_nodes_dict st)
             else e0 ← getitem (e :: l) 0;
                  OK (e :: l, <[p := fst e0]> (edge_nodes_dict st)))
            = OK (e1 :: l, d1) /\
            forall x, x ∈ l1 -> is_Some (d1 !! x)).
  { destruct (contains (nodes st) p) eqn:Ec.
    - apply contains_iff in Ec. destruct (Hcov p Ec) as (v & Hv).
      unfold dict_get. rewrite Hv. cbn. destruct e as [a0 b0]. cbn.
      eexists _, _. split; [reflexivity|].
      intros x Hx. apply Hcov. unfold l1, register in Hx.
      rewrite (proj2 (contains_iff _ _) Ec) in Hx. exact Hx.
    - cbn. eexists _, _. split; [reflexivity|].
      intros x Hx. unfold l1, register in Hx. rewrite Ec in Hx.
      apply elem_of_app in Hx as [Hx|Hx].
      + rewrite lookup_insert. case_decide; [eauto|apply Hcov; exact Hx].
      + apply list_elem_of_singleton in Hx as ->. rewrite lookup_insert_eq. eauto. }
  destruct Hfirst as (e1 & d1 & -> & Hd1). cbn [mbind result_bind].
  assert (Hlast : exists l3 d2,
            (if contains l1 q
             then v ← dict_get d1 q; l0 ← set_last_to (e1 :: l) v; OK (l0, d1)
             else e0 ← match last (e1 :: l) with
                       | Some e0 => OK e0 | None => Raise IndexError end;
                  OK (e1 :: l, <[q := snd e0]> d1))
            = OK (l3, d2) /\
            forall x, x ∈ l2 -> is_Some (d2 !! x)).
  { destruct (contains l1 q) eqn:Ec.
    - apply contains_iff in Ec. destruct (Hd1 q Ec) as (v & Hv).
      unfold dict_get. rewrite Hv. cbn.
      destruct (set_last_to_cons e1 l v) as (e' & l' & ->). cbn.
      eexists _, _. split; [reflexivity|].
      intros x Hx. apply Hd1. unfold l2, register in Hx.
      rewrite (proj2 (contains_iff _ _) Ec) in Hx. exact Hx.
    - destruct (last (e1 :: l)) as [e0|] eqn:El;
        [|apply last_None in El; discriminate].
      cbn. eexists _, _. split; [reflexivity|].
      intros x Hx. unfold l2, register in Hx. rewrite Ec in Hx.
      apply elem_of_app in Hx as [Hx|Hx].
      + rewrite lookup_insert. case_decide; [eauto|apply Hd1; exact Hx].
      + apply list_elem_of_singleton in Hx as ->. rewrite lookup_insert_eq. eauto. }
  destruct Hlast as (l3 & d2 & -> & Hd2). cbn [mbind result_bind].
  eexists. split; [reflexivity|]. exact Hd2.
Qed.

Lemma loop_OK (offs : gmap string (list Q)) (l : list (nat * Branch point)) st :
  dict_covers st ->
  (forall ib, ib ∈ l ->
     open_ended (snd ib) /\
     exists o, offs !! Index (snd ib) = Some o /\ (2 <= length o)%nat) ->
  exists st',
    for_each l (fun ib st => add_branch offs (fst ib) (snd ib) st) st = OK st'.
Proof.
  revert st. induction l as [|[i b] l IH]; intros st Hcov Hall; cbn [for_each].
  - eauto.
  - destruct (Hall (i, b) ltac:(left)) as [(p & q & Hends & Hpq) (o & Ho & Hlen)].
    cbn [fst snd] in *.
    destruct (add_branch_OK offs i b st p q o Hcov Hends Hpq Ho Hlen)
      as (st1 & -> & Hcov1).
    cbn [mbind result_bind]. apply IH; [exact Hcov1|].
    intros ib Hib. apply Hall. right. exact Hib.
Qed.

Lemma spacing_two_length (L d : Q) (offs : list Q) :
  0 < L -> ~ d == 0 ->
  Spacer._generate_1d_spacing [0; L] d = OK offs -> (2 <= length offs)%nat.
Proof.
  intros HL Hd. rewrite (spacing_cons2 0 L [] d HL Hd). cbn. intros [= <-].
  rewrite length_app, length_linspace. cbn.
  pose proof (nnodes_ge_2 (L - 0) d). lia.
Qed.

Lemma generate_1dnetwork_returns (fuel : nat) (branches : list (Branch point)) (d : Q) :
  branches <> [] -> 0 < d ->
  (forall b, b ∈ branches -> 0 < geom_length b /\ open_ended b) ->
  exists st m, generate_1dnetwork fuel branches None ∅ d = OK (st, m).
Proof.
  intros Hne Hd Hall. assert (Hd' : ~ d == 0) by lra.
  unfold generate_1dnetwork. destruct branches as [|b0 bs]; [congruence|].
  set (branches := b0 :: bs) in *.
  destruct (first_pass_spec d branches ∅ Hd') as (m & Hrun & _ & Hbs).
  { intros b Hb. apply Hall. exact Hb. }
  rewrite map_size_empty. cbn [Nat.eqb].
  rewrite generate_offsets_None, Hrun. cbn [mbind result_bind fst].
  destruct (loop_OK m (combine (seq 0 (length (sorted_branches branches)))
                               (sorted_branches branches)) net_init)
    as (st & ->).
  - intros p Hp. inversion Hp.
  - intros [i b] Hib. cbn [snd].
    assert (Hb : b ∈ branches).
    { apply list_elem_of_In, in_combine_r, list_elem_of_In in Hib.
      apply elem_of_sort_by in Hib. exact Hib. }
    split; [apply Hall; exact Hb|].
    destruct (Hbs b Hb) as (b' & o & Hb' & _ & Ho & Hsp).
    exists o. split; [exact Ho|].
    apply (spacing_two_length (geom_length b') d); [apply Hall; exact Hb'|exact Hd'|exact Hsp].
  - cbn. eauto.
Qed.
End Topology.

Lemma NoDup_same_elements_length {A} (l l' : list A) :
  NoDup l -> (forall x, x ∈ l <-> x ∈ l') ->
  (length l <= length l')%nat /\ (length l = length l' <-> NoDup l').
Proof.
  intros Hnd Hsame.
  assert (Hincl : incl l l').
  { intros x Hx. apply list_elem_of_In, Hsame, list_elem_of_In. exact Hx. }
  assert (Hincl' : incl l' l).
  { intros x Hx. apply list_elem_of_In, Hsame, list_elem_of_In. exact Hx. }
  apply NoDup_ListNoDup in Hnd.
  pose proof (List.NoDup_incl_length Hnd Hincl) as Hle.
  split; [exact Hle|]. split.
  - intros Heq. apply NoDup_ListNoDup.
    apply (List.NoDup_incl_NoDup Hnd); [lia|exact Hincl].
  - intros Hnd'. apply NoDup_ListNoDup in Hnd'.
    pose proof (List.NoDup_incl_length Hnd' Hincl'). lia.
Qed.

(** C6.  When [generate_1dnetwork] returns, every end point of the
    branches is in the node list exactly once: the list has no duplicates
    and holds the end points and nothing else.  So there are at most two
    nodes per branch, and exactly two per branch iff no end point occurs
    twice.  It returns for every non-empty set of branches of positive
    length with two different end points each (ring geometries are
    refused).  Two branches that meet in one end point give three nodes. *)
Theorem network_nodes_deduplicated :
  (forall (point : Type) (Heq : EqDecision point) (Hc : Countable point)
          (fuel : nat) (branches : list (Branch point))
          (structures : option (list Structure))
          (self_offsets : gmap string (list Q)) (d : Q)
          (st : net_state) (m : gmap string (list Q)),
      generate_1dnetwork fuel branches structures self_offsets d = OK (st, m) ->
      nodes_deduplicated branches st) /\
  (forall (point : Type) (Heq : EqDecision point) (Hc : Countable point)
          (fuel : nat) (branches : list (Branch point)) (d : Q),
      branches <> [] -> 0 < d ->
      (forall b, b ∈ branches -> 0 < geom_length b /\ open_ended b) ->
      exists st m, generate_1dnetwork fuel branches None ∅ d = OK (st, m)) /\
  (exists st m,
      generate_1dnetwork 0 [branch_a; branch_b] None ∅ 40 = OK (st, m) /\
      length (nodes st) = 3%nat).
Proof.
  split; [|split].
  - intros point Heq Hc fuel branches structures self_offsets d st m Hrun.
    unfold generate_1dnetwork in Hrun.
    destruct branches as [|b0 bs]; [discriminate|].
    set (branches := b0 :: bs) in *.
    apply bind_OK_inv in Hrun as (offs & _ & Hrun).
    apply bind_OK_inv in Hrun as (st0 & Hloop & Hrun).
    injection Hrun as -> ->.
    apply loop_nodes in Hloop as (Hnd & Hmem & Hlen); [|constructor].
    rewrite map_snd_combine_seq in Hmem, Hlen.
    pose proof (sort_by_Permutation
                  (fun b b' => Qlt_bool (geom_length b) (geom_length b')) branches)
      as Hperm.
    fold (sorted_branches branches) in Hperm.
    assert (Hends : all_endpoints (sorted_branches branches) ≡ₚ all_endpoints branches).
    { unfold all_endpoints. apply Permutation_flat_map. exact Hperm. }
    assert (Hsame : forall p, p ∈ nodes st ↔ p ∈ all_endpoints branches).
    { intros p. rewrite Hmem, Hends. cbn. rewrite elem_of_nil. tauto. }
    assert (Hlen' : length (all_endpoints branches) = (2 * length branches)%nat).
    { rewrite length_combine, length_seq, Nat.min_id in Hlen.
      rewrite <- (Permutation_length Hends), Hlen, (Permutation_length Hperm).
      reflexivity. }
    destruct (NoDup_same_elements_length _ _ Hnd Hsame) as [Hle Hiff].
    rewrite Hlen' in Hle, Hiff. unfold nodes_deduplicated. auto.
  - intros point Heq Hc fuel branches d. apply generate_1dnetwork_returns.
  - eexists _, _. split; [vm_compute; reflexivity|]. reflexivity.
Qed.

Lemma open_ended_a_b :
  forall b, b ∈ [branch_a; branch_b] -> 0 < geom_length b /\ open_ended b.
Proof.
  intros b Hb. split; [exact (positive_lengths_a_b b Hb)|].
  apply elem_of_cons in Hb as [->|Hb].
  - exists (0, 0)%Z, (10, 10)%Z. split; [reflexivity|discriminate].
  - apply list_elem_of_singleton in Hb as ->.
    exists (10, 10)%Z, (20, 10)%Z. split; [reflexivity|discriminate].
Qed.

Lemma network_nodes_deduplicated_witness :
  (exists st m,
     generate_1dnetwork 0 [branch_a; branch_b] None ∅ 40 = OK (st, m) /\
     nodes_deduplicated [branch_a; branch_b] st) /\
  ([branch_a; branch_b] <> [] /\ 0 < 40 /\
   (forall b, b ∈ [branch_a; branch_b] -> 0 < geom_length b /\ open_ended b) /\
   exists st m, generate_1dnetwork 0 [branch_a; branch_b] None ∅ 40 = OK (st, m)).
Proof.
  split.
  - eexists _, _. split; [vm_compute; reflexivity|].
    eapply (proj1 network_nodes_deduplicated (Z * Z)%type _ _ 0%nat
              [branch_a; branch_b] None ∅ 40).
    vm_compute. reflexivity.
  - assert (H1 : [branch_a; branch_b] <> []) by discriminate.
    assert (H2 : 0 < 40) by reflexivity.
    split; [exact H1|]. split; [exact H2|]. split; [exact open_ended_a_b|].
    exact (proj1 (proj2 network_nodes_deduplicated) (Z * Z)%type _ _ 0%nat
             [branch_a; branch_b] 40 H1 H2 open_ended_a_b).
Defined.

(** * The link table *)

Lemma existsb_eqb_iff (item : Z) (l : list Z) :
  existsb (Z.eqb item) l = true <-> item ∈ l.
Proof.
  rewrite existsb_exists. split.
  - intros (x & Hx & Heq). apply Z.eqb_eq in Heq as ->.
    apply list_elem_of_In. exact Hx.
  - intros Hin. exists item. split; [apply list_elem_of_In; exact Hin|apply Z.eqb_refl].
Qed.

Lemma index_Z_spec (item : Z) (l : list Z) :
  item ∈ l -> exists loc, index_Z item l = OK loc /\ (loc < length l)%nat.
Proof.
  induction l as [|x l IH]; intros Hin; [inversion Hin|]. cbn.
  destruct (Z.eqb x item) eqn:E.
  - exists O. split; [reflexivity|cbn; lia].
  - apply Z.eqb_neq in E. apply elem_of_cons in Hin as [->|Hin]; [congruence|].
    destruct (IH Hin) as (loc & -> & Hlt). exists (S loc). cbn. split; [reflexivity|lia].
Qed.

Lemma pop_OK (l : list Z) (loc : nat) :
  (loc < length l)%nat -> pop l loc = OK (delete loc l).
Proof.
  intros Hlt. unfold pop. apply Nat.ltb_lt in Hlt. rewrite Hlt. reflexivity.
Qed.

Lemma combine_delete {A B} (l1 : list A) (l2 : list B) (i : nat) :
  combine (delete i l1) (delete i l2) = delete i (combine l1 l2).
Proof.
  revert l1 l2. induction i as [|i IH]; intros [|x l1] [|y l2]; cbn;
    rewrite ?IH; try reflexivity.
  destruct l1; reflexivity.
Qed.

(** One pass of the loop body: the link at [loc] is taken out. *)
Lemma pop_both (s : Links1d2d) (loc : nat) :
  aligned s -> (loc < length (nodes1d s))%nat ->
  let s' := mkLinks (delete loc (nodes1d s)) (delete loc (faces2d s)) in
  aligned s' /\ pairs s' = delete loc (pairs s) /\
  length (nodes1d s') = pred (length (nodes1d s)).
Proof.
  intros Hal Hlt. unfold aligned, pairs in *. cbn.
  rewrite combine_delete.
  rewrite !length_delete by (apply lookup_lt_is_Some_2; lia).
  split; [lia|]. split; [reflexivity|lia].
Qed.

Lemma linkdim_length (linkdim : Links1d2d -> list Z) (s : Links1d2d) :
  is_linkdim linkdim -> aligned s -> length (linkdim s) = length (nodes1d s).
Proof. intros [-> | ->] Hal; [reflexivity|symmetry; exact Hal]. Qed.

Lemma pop_while_step (fuel : nat) (linkdim : Links1d2d -> list Z)
    (rest : result unit) (item : Z) (s : Links1d2d) :
  is_linkdim linkdim -> aligned s -> item ∈ linkdim s ->
  exists loc,
    (loc < length (nodes1d s))%nat /\
    let s2 := mkLinks (delete loc (nodes1d s)) (delete loc (faces2d s)) in
    pop_while (S fuel) linkdim rest item s =
    match rest with
    | OK _ => pop_while fuel linkdim rest item s2
    | Raise e => (Raise e, s2)
    | OutOfFuel => (OutOfFuel, s2)
    end.
Proof.
  intros Hdim Hal Hin.
  destruct (index_Z_spec item _ Hin) as (loc & Hidx & Hlt).
  rewrite (linkdim_length _ _ Hdim Hal) in Hlt.
  exists loc. split; [exact Hlt|]. cbn [pop_while].
  rewrite (proj2 (existsb_eqb_iff item (linkdim s)) Hin), Hidx.
  rewrite (pop_OK _ _ Hlt). cbn [faces2d].
  rewrite pop_OK by (rewrite <- Hal; exact Hlt). reflexivity.
Qed.

Lemma pop_while_absent (fuel : nat) (linkdim : Links1d2d -> list Z)
    (rest : result unit) (item : Z) (s : Links1d2d) :
  item ∉ linkdim s -> pop_while fuel linkdim rest item s = (OK tt, s).
Proof.
  intros Hnot. destruct (existsb (Z.eqb item) (linkdim s)) eqn:E.
  - apply existsb_eqb_iff in E. contradiction.
  - destruct fuel; cbn [pop_while]; rewrite E; reflexivity.
Qed.

(** The loop only takes links out, and keeps the lists aligned. *)
Lemma pop_while_sublist (fuel : nat) (linkdim : Links1d2d -> list Z)
    (rest : result unit) (item : Z) (s : Links1d2d) :
  is_linkdim linkdim -> aligned s ->
  aligned (snd (pop_while fuel linkdim rest item s)) /\
  pairs (snd (pop_while fuel linkdim rest item s)) `sublist_of` pairs s.
Proof.
  intros Hdim. revert s. induction fuel as [|fuel IH]; intros s Hal.
  - cbn. destruct (existsb (Z.eqb item) (linkdim s)); cbn; auto.
  - destruct (decide (item ∈ linkdim s)) as [Hin|Hnot].
    + destruct (pop_while_step fuel linkdim rest item s Hdim Hal Hin)
        as (loc & Hlt & ->).
      destruct (pop_both s loc Hal Hlt) as (Hal2 & Hpairs & _).
      assert (Hsub : delete loc (pairs s) `sublist_of` pairs s) by apply sublist_delete.
      destruct rest as [[]|e|]; cbn [snd].
      * destruct (IH _ Hal2) as [Hal' Hsub']. split; [exact Hal'|].
        etransitivity; [exact Hsub'|]. rewrite Hpairs. exact Hsub.
      * split; [exact Hal2|]. rewrite Hpairs. exact Hsub.
      * split; [exact Hal2|]. rewrite Hpairs. exact Hsub.
    + rewrite pop_while_absent by exact Hnot. cbn. auto.
Qed.

(** When the loop ends normally the item is gone. *)
Lemma pop_while_removed (fuel : nat) (linkdim : Links1d2d -> list Z)
    (rest : result unit) (item : Z) (s s' : Links1d2d) :
  is_linkdim linkdim -> aligned s ->
  pop_while fuel linkdim rest item s = (OK tt, s') -> item ∉ linkdim s'.
Proof.
  intros Hdim. revert s. induction fuel as [|fuel IH]; intros s Hal Hrun.
  - cbn in Hrun. destruct (existsb (Z.eqb item) (linkdim s)) eqn:E; [discriminate|].
    injection Hrun as <-. intros Hin. apply existsb_eqb_iff in Hin. congruence.
  - destruct (decide (item ∈ linkdim s)) as [Hin|Hnot].
    + destruct (pop_while_step fuel linkdim rest item s Hdim Hal Hin)
        as (loc & Hlt & Hstep).
      rewrite Hstep in Hrun. destruct (pop_both s loc Hal Hlt) as (Hal2 & _ & _).
      destruct rest as [[]|e|]; [|discriminate|discriminate].
      exact (IH _ Hal2 Hrun).
    + rewrite pop_while_absent in Hrun by exact Hnot. injection Hrun as <-. exact Hnot.
Qed.

(** The fuel handed to the loop is enough. *)
Lemma pop_while_fuel (fuel : nat) (linkdim : Links1d2d -> list Z)
    (rest : result unit) (item : Z) (s : Links1d2d) :
  is_linkdim linkdim -> aligned s -> rest <> OutOfFuel ->
  (length (linkdim s) <= fuel)%nat ->
  fst (pop_while fuel linkdim rest item s) <> OutOfFuel.
Proof.
  intros Hdim. revert s. induction fuel as [|fuel IH]; intros s Hal Hrest Hlen.
  - destruct (linkdim s) eqn:E; [|cbn in Hlen; lia].
    rewrite pop_while_absent; [discriminate|]. rewrite E. apply not_elem_of_nil.
  - destruct (decide (item ∈ linkdim s)) as [Hin|Hnot].
    + destruct (pop_while_step fuel linkdim rest item s Hdim Hal Hin)
        as (loc & Hlt & ->).
      destruct (pop_both s loc Hal Hlt) as (Hal2 & _ & Hlen2).
      destruct rest as [[]|e|]; [|discriminate|congruence].
      apply IH; [exact Hal2|exact Hrest|].
      rewrite (linkdim_length _ _ Hdim Hal2), Hlen2.
      rewrite (linkdim_length _ _ Hdim Hal) in Hlen. lia.
    + rewrite pop_while_absent by exact Hnot. discriminate.
Qed.

Lemma map_fst_combine_eq {A B} (l1 : list A) (l2 : list B) :
  length l1 = length l2 -> map fst (combine l1 l2) = l1.
Proof.
  revert l2. induction l1 as [|x l1 IH]; intros [|y l2] Hlen; cbn in *;
    try reflexivity; try discriminate.
  rewrite IH by lia. reflexivity.
Qed.

Lemma map_snd_combine_eq {A B} (l1 : list A) (l2 : list B) :
  length l1 = length l2 -> map snd (combine l1 l2) = l2.
Proof.
  revert l2. induction l1 as [|x l1 IH]; intros [|y l2] Hlen; cbn in *;
    try reflexivity; try discriminate.
  rewrite IH by lia. reflexivity.
Qed.

(** A list of the table is a projection of the pairs. *)
Lemma linkdim_pairs (linkdim : Links1d2d -> list Z) (s : Links1d2d) :
  is_linkdim linkdim -> aligned s ->
  exists proj : Z * Z -> Z, forall t, aligned t -> linkdim t = map proj (pairs t).
Proof.
  intros [-> | ->] _; [exists fst|exists snd]; intros t Ht; unfold pairs;
    [rewrite map_fst_combine_eq|rewrite map_snd_combine_eq]; auto.
Qed.

Lemma absent_sublist (linkdim : Links1d2d -> list Z) (item : Z) (s s' : Links1d2d) :
  is_linkdim linkdim -> aligned s -> aligned s' ->
  pairs s' `sublist_of` pairs s -> item ∉ linkdim s -> item ∉ linkdim s'.
Proof.
  intros Hdim Hal Hal' Hsub Hnot Hin.
  destruct (linkdim_pairs linkdim s Hdim Hal) as (proj & Hproj).
  rewrite (Hproj s' Hal') in Hin. rewrite (Hproj s Hal) in Hnot.
  apply Hnot. eapply elem_of_sublist; [exact Hin|].
  apply fmap_sublist. exact Hsub.
Qed.

Lemma pop_while_total (fuel : nat) (linkdim : Links1d2d -> list Z)
    (item : Z) (s : Links1d2d) :
  is_linkdim linkdim -> aligned s -> (length (linkdim s) <= fuel)%nat ->
  fst (pop_while fuel linkdim (OK tt) item s) = OK tt.
Proof.
  intros Hdim. revert s. induction fuel as [|fuel IH]; intros s Hal Hlen.
  - destruct (linkdim s) eqn:E; [|cbn in Hlen; lia].
    rewrite pop_while_absent; [reflexivity|]. rewrite E. apply not_elem_of_nil.
  - destruct (decide (item ∈ linkdim s)) as [Hin|Hnot].
    + destruct (pop_while_step fuel linkdim (OK tt) item s Hdim Hal Hin)
        as (loc & Hlt & ->).
      destruct (pop_both s loc Hal Hlt) as (Hal2 & _ & Hlen2).
      apply IH; [exact Hal2|].
      rewrite (linkdim_length _ _ Hdim Hal2), Hlen2.
      rewrite (linkdim_length _ _ Hdim Hal) in Hlen. lia.
    + rewrite pop_while_absent by exact Hnot. reflexivity.
Qed.

Lemma np_getitem_fuel {A} (a : list A) (k : Z) : np_getitem a k <> OutOfFuel.
Proof.
  unfold np_getitem, getitem.
  repeat match goal with
         | |- context [if ?b then _ else _] => destruct b
         | |- context [match ?o with Some _ => _ | None => _ end] => destruct o
         end; discriminate.
Qed.

Section ForStore.
Variable linkdim : Links1d2d -> list Z.
Variable rest_of : Z -> result unit.
Hypothesis Hdim : is_linkdim linkdim.

Lemma pop_each_sublist (item : Z) (s : Links1d2d) :
  aligned s ->
  aligned (snd (pop_each linkdim rest_of item s)) /\
  pairs (snd (pop_each linkdim rest_of item s)) `sublist_of` pairs s.
Proof. apply pop_while_sublist. exact Hdim. Qed.

Lemma for_store_sublist (items : list Z) (s : Links1d2d) :
  aligned s ->
  aligned (snd (for_store items (pop_each linkdim rest_of) s)) /\
  pairs (snd (for_store items (pop_each linkdim rest_of) s)) `sublist_of` pairs s.
Proof.
  revert s. induction items as [|x items IH]; intros s Hal; cbn; [auto|].
  destruct (pop_each_sublist x s Hal) as [Hal1 Hsub1].
  destruct (pop_each linkdim rest_of x s) as [[[]|e|] s1]; cbn [snd] in *; auto.
  destruct (IH s1 Hal1) as [Hal2 Hsub2]. split; [exact Hal2|].
  etransitivity; eassumption.
Qed.

Lemma for_store_removed (items : list Z) (s s' : Links1d2d) :
  aligned s -> for_store items (pop_each linkdim rest_of) s = (OK tt, s') ->
  forall item, item ∈ items -> item ∉ linkdim s'.
Proof.
  revert s. induction items as [|x items IH]; intros s Hal Hrun item Hin;
    [inversion Hin|].
  cbn in Hrun. destruct (pop_each_sublist x s Hal) as [Hal1 _].
  destruct (pop_each linkdim rest_of x s) as [[[]|e|] s1] eqn:E;
    cbn [snd] in *; try discriminate.
  apply elem_of_cons in Hin as [->|Hin]; [|exact (IH s1 Hal1 Hrun item Hin)].
  apply (pop_while_removed _ _ _ _ _ _ Hdim Hal) in E.
  destruct (for_store_sublist items s1 Hal1) as [Hal2 Hsub2].
  rewrite Hrun in Hal2, Hsub2. cbn [snd] in *.
  exact (absent_sublist linkdim x s1 s' Hdim Hal1 Hal2 Hsub2 E).
Qed.

Lemma for_store_absent (items : list Z) (s : Links1d2d) :
  (forall item, item ∈ items -> item ∉ linkdim s) ->
  for_store items (pop_each linkdim rest_of) s = (OK tt, s).
Proof.
  induction items as [|x items IH]; intros Habs; cbn; [reflexivity|].
  unfold pop_each at 1. rewrite pop_while_absent by (apply Habs; left).
  apply IH. intros item Hin. apply Habs. right. exact Hin.
Qed.

(** The passes allowed to the loop are enough when nothing behind the two
    [pop]s fails. *)
Lemma for_store_total (items : list Z) (s : Links1d2d) :
  aligned s -> (forall item, item ∈ items -> rest_of item = OK tt) ->
  fst (for_store items (pop_each linkdim rest_of) s) = OK tt.
Proof.
  revert s. induction items as [|x items IH]; intros s Hal Hrest; cbn;
    [reflexivity|].
  pose proof (pop_while_total (length (linkdim s)) linkdim x s Hdim Hal (le_n _)) as Hx.
  destruct (pop_each_sublist x s Hal) as [Hal1 _].
  unfold pop_each in *. rewrite (Hrest x ltac:(left)) in *.
  destruct (pop_while _ _ _ _ _) as [r s1]. cbn in Hx, Hal1. subst r.
  apply IH; [exact Hal1|]. intros item Hin. apply Hrest. right. exact Hin.
Qed.

Lemma for_store_fuel (items : list Z) (s : Links1d2d) :
  aligned s -> (forall item, rest_of item <> OutOfFuel) ->
  fst (for_store items (pop_each linkdim rest_of) s) <> OutOfFuel.
Proof.
  intros Hal Hrest. revert s Hal.
  induction items as [|x items IH]; intros s Hal; cbn; [discriminate|].
  pose proof (pop_while_fuel (length (linkdim s)) linkdim (rest_of x) x s Hdim Hal
                (Hrest x) (le_n _)) as Hx.
  destruct (pop_each_sublist x s Hal) as [Hal1 _].
  unfold pop_each in *.
  destruct (pop_while _ _ _ _ _) as [[[]|e|] s1]; cbn in *;
    [apply IH; exact Hal1|discriminate|congruence].
Qed.

End ForStore.

Lemma for_store_preserve {A} (items : list A)
    (body : A -> Links1d2d -> result unit * Links1d2d) (s : Links1d2d) :
  (forall x t, aligned t ->
     aligned (snd (body x t)) /\ pairs (snd (body x t)) `sublist_of` pairs t) ->
  aligned s ->
  aligned (snd (for_store items body s)) /\
  pairs (snd (for_store items body s)) `sublist_of` pairs s.
Proof.
  intros Hbody. revert s. induction items as [|x items IH]; intros s Hal; cbn; [auto|].
  destruct (Hbody x s Hal) as [Hal1 Hsub1].
  destruct (body x s) as [[[]|e|] s1]; cbn [snd] in *; auto.
  destruct (IH s1 Hal1) as [Hal2 Hsub2]. split; [exact Hal2|].
  etransitivity; eassumption.
Qed.

Lemma NoDup_map_filter {A B} (g : A -> B) (f : A -> bool) (l : list A) :
  NoDup (map g l) -> NoDup (map g (List.filter f l)).
Proof.
  induction l as [|x l IH]; cbn; [auto|]. intros Hnd.
  apply NoDup_cons in Hnd as [Hx Hnd]. destruct (f x); cbn; [|auto].
  apply NoDup_cons. split; [|auto]. intros Hin. apply Hx.
  apply list_elem_of_fmap in Hin as (y & -> & Hy).
  apply list_elem_of_fmap. exists y. split; [reflexivity|].
  apply list_elem_of_In, filter_In in Hy as [Hy _]. apply list_elem_of_In. exact Hy.
Qed.

Lemma combine_fst_sublist {A B} (l1 : list A) (l2 : list B) :
  map fst (combine l1 l2) `sublist_of` l1.
Proof.
  revert l2. induction l1 as [|x l1 IH]; intros [|y l2]; cbn.
  - constructor.
  - constructor.
  - apply sublist_nil_l.
  - apply sublist_skip, IH.
Qed.

Lemma map_fst_pairs {A B} (l : list (A * B)) :
  combine (map fst l) (map snd l) = l.
Proof. induction l as [|[a b] l IH]; cbn; [reflexivity|]. rewrite IH. reflexivity. Qed.



Section WithMesh.
Context {polygon branch_table : Type}.
Variable find_nearest_branch :
  branch_table -> list (Z * xy * polygon) -> bool -> bound -> list (option Q).
Implicit Types (m : @mesh polygon branch_table) (s : Links1d2d).


Lemma check_boundary_link_sublist m (c : xy) s :
  aligned s ->
  aligned (snd (check_boundary_link m c s)) /\
  pairs (snd (check_boundary_link m c s)) `sublist_of` pairs s.
Proof.
  intros Hal. unfold Links.check_boundary_link.
  destruct (nodes1d s) eqn:En; [cbn; auto|].
  destruct (faces2d s) eqn:Ef; [cbn; auto|].
  match goal with |- context [if ?b then _ else _] => destruct b end; [cbn; auto|].
  apply (for_store_sublist nodes1d (node_of_item m)).
  - left. reflexivity.
  - exact Hal.
Qed.

(** The loops of [check_boundary_link] end within the passes allowed. *)
Lemma check_boundary_link_fuel m (c : xy) s :
  aligned s -> fst (check_boundary_link m c s) <> OutOfFuel.
Proof.
  intros Hal. unfold check_boundary_link.
  destruct (nodes1d s) eqn:En; [discriminate|].
  destruct (faces2d s) eqn:Ef; [discriminate|].
  match goal with |- context [if ?b then _ else _] => destruct b end; [discriminate|].
  apply for_store_fuel; [left; reflexivity|exact Hal|].
  intros item. unfold node_of_item.
  pose proof (np_getitem_fuel (mesh1d_nodes m) (item - 1)) as Hg.
  destruct (np_getitem _ _); cbn; congruence.
Qed.

Lemma check_boundary_link_idempotent m (c : xy) s :
  aligned s ->
  pairs (snd (check_boundary_link m c s)) `sublist_of` pairs s /\
  (fst (check_boundary_link m c s) = OK tt ->
   check_boundary_link m c (snd (check_boundary_link m c s))
   = (OK tt, snd (check_boundary_link m c s))).
Proof.
  intros Hal. split; [apply check_boundary_link_sublist; exact Hal|].
  unfold Links.check_boundary_link at 1 3 4.
  destruct (nodes1d s) eqn:En.
  { cbn. intros _. unfold Links.check_boundary_link. rewrite En. reflexivity. }
  destruct (faces2d s) eqn:Ef.
  { cbn. intros _. unfold Links.check_boundary_link. rewrite En, Ef. reflexivity. }
  match goal with |- context [if ?b then _ else _] => destruct b eqn:Ek end;
    [cbn; discriminate|].
  match goal with |- context [for_store ?items _ s] => set (to_remove := items) end.
  destruct (for_store to_remove (pop_each nodes1d (node_of_item m)) s)
    as [r s'] eqn:Erun. cbn [fst snd].
  intros ->.
  assert (Hgone : forall item, item ∈ to_remove -> item ∉ nodes1d s').
  { apply (for_store_removed nodes1d (node_of_item m)
             ltac:(left; reflexivity) to_remove s s' Hal Erun). }
  unfold Links.check_boundary_link.
  destruct (nodes1d s') eqn:En'; [reflexivity|].
  destruct (faces2d s') eqn:Ef'; [reflexivity|].
  rewrite Ek. fold to_remove. rewrite <- En' in Hgone.
  apply (for_store_absent nodes1d (node_of_item m)).
  exact Hgone.
Qed.


Lemma extend_no_links (new : list (Z * Z)) :
  aligned (extend no_links new) /\ pairs (extend no_links new) = new.
Proof.
  unfold aligned, pairs, extend. cbn. rewrite !length_map, map_fst_pairs. auto.
Qed.

Lemma extend_nil s : extend s [] = s.
Proof. destruct s. unfold extend. cbn. rewrite !app_nil_r. reflexivity. Qed.

Lemma check_boundaries_sublist m s :
  aligned s ->
  aligned (snd (check_boundaries m s)) /\
  pairs (snd (check_boundaries m s)) `sublist_of` pairs s.
Proof.
  apply for_store_preserve. intros [c|] t Ht; [|cbn; auto].
  apply check_boundary_link_sublist. exact Ht.
Qed.

Lemma remove_1d2d_link_sublist m (x y : Q) (kind : string) (md : bound) s :
  aligned s ->
  aligned (snd (remove_1d2d_link m x y kind md s)) /\
  pairs (snd (remove_1d2d_link m x y kind md s)) `sublist_of` pairs s.
Proof.
  intros Hal. unfold remove_1d2d_link.
  destruct (negb _); [cbn; auto|].
  destruct (argmin _ _) as [[dmin imin]|]; [|cbn; auto].
  destruct (dist_gt dmin md); [cbn; auto|].
  apply for_store_sublist; [|exact Hal].
  destruct (String.eqb kind "1d"); [left|right]; reflexivity.
Qed.

(** *** Links of one generation pass *)

Lemma links_1d_to_2d_NoDup m (md : bound) : NoDup (links_1d_to_2d m md).
Proof.
  unfold links_1d_to_2d. apply (NoDup_fmap_1 fst).
  rewrite <- list_fmap_compose.
  change (fst ∘ _) with (fun x : nat * (option Q * nat) => (Z.of_nat (fst x) + 1)%Z).
  apply NoDup_map_filter.
  change (fun x : nat * (option Q * nat) => (Z.of_nat (fst x) + 1)%Z)
    with ((fun i : nat => (Z.of_nat i + 1)%Z) ∘ (fst : nat * (option Q * nat) -> nat)).
  rewrite list_fmap_compose. apply NoDup_fmap_2.
  - intros i j Hij. lia.
  - eapply sublist_NoDup; [apply NoDup_seq|apply combine_fst_sublist].
Qed.

Lemma omap_index_NoDup (fs : list (xy * polygon)) (idx : list nat) :
  NoDup idx ->
  NoDup (map (fun c : Z * xy * polygon => fst (fst c))
             (omap (fun i => f ← fs !! i; Some ((Z.of_nat i + 1)%Z, fst f, snd f)) idx)).
Proof.
  induction idx as [|i idx IH]; intros Hnd; cbn; [constructor|].
  apply NoDup_cons in Hnd as [Hi Hnd].
  destruct (fs !! i) as [f|]; cbn; [|auto].
  apply NoDup_cons. split; [|auto]. intros Hin. apply Hi.
  apply list_elem_of_fmap in Hin as (c & Hc & Hin).
  apply list_elem_of_omap in Hin as (j & Hj & Hfj).
  destruct (fs !! j) as [g|]; cbn in Hfj; [|discriminate].
  injection Hfj as <-. cbn in Hc. assert (i = j) as -> by lia. exact Hj.
Qed.

Lemma candidate_cells_NoDup m (md : bound) (b : bool) :
  NoDup (map (fun c : Z * xy * polygon => fst (fst c))
             (candidate_cells find_nearest_branch m md b)).
Proof.
  unfold candidate_cells.
  match goal with |- context [omap ?F ?idx] => set (cells := omap F idx);
    assert (Hcells : NoDup (map (fun c : Z * xy * polygon => fst (fst c)) cells)) end.
  { apply omap_index_NoDup. destruct md; [|apply NoDup_seq].
    apply NoDup_map_filter.
    eapply sublist_NoDup; [apply NoDup_seq|apply combine_fst_sublist]. }
  match goal with |- context [combine cells ?bo] => generalize bo end. intros bo.
  rewrite <- list_fmap_compose. apply NoDup_map_filter.
  rewrite list_fmap_compose.
  eapply sublist_NoDup; [exact Hcells|].
  apply fmap_sublist, combine_fst_sublist.
Qed.

Lemma links_2d_to_1d_NoDup m (md : bound) (b : bool) :
  NoDup (links_2d_to_1d find_nearest_branch m md b).
Proof.
  unfold links_2d_to_1d. apply (NoDup_fmap_1 snd).
  rewrite <- list_fmap_compose.
  apply NoDup_map_filter. rewrite <- list_fmap_compose.
  exact (candidate_cells_NoDup m md b).
Qed.

(** C9 (amended).  Nothing in the link code looks for a pair that is
    already stored.  A table made by one generation pass on an empty table
    (a 1D node, or a 2D cell, gets at most one link in a pass), followed by
    any number of removals, holds no pair twice. *)
Theorem single_pass_unique (s : Links1d2d) :
  single_pass find_nearest_branch s -> NoDup (pairs s).
Proof.
  intros Hs. cut (aligned s /\ NoDup (pairs s)); [tauto|].
  induction Hs as [m md|m md b|m c s _ [Hal Hnd]|m x y kind md s _ [Hal Hnd]].
  - unfold generate_1d_to_2d.
    destruct (extend_no_links (links_1d_to_2d m md)) as [Hal Hp].
    destruct (check_boundaries_sublist m _ Hal) as [Hal' Hsub].
    split; [exact Hal'|]. eapply sublist_NoDup; [|exact Hsub].
    rewrite Hp. apply links_1d_to_2d_NoDup.
  - unfold generate_2d_to_1d.
    destruct (extend_no_links (links_2d_to_1d find_nearest_branch m md b)) as [Hal Hp].
    assert (Hnd : NoDup (pairs (extend no_links (links_2d_to_1d find_nearest_branch m md b)))).
    { rewrite Hp. apply links_2d_to_1d_NoDup. }
    set (s1 := extend no_links (links_2d_to_1d find_nearest_branch m md b)) in *.
    destruct b.
    + destruct (check_boundaries_sublist m _ Hal) as [Hal' Hsub].
      split; [exact Hal'|]. eapply sublist_NoDup; eassumption.
    + destruct (get_1d2dlinks m true s1) as [[[lines|[|r rows]]|]|e|]; cbn [snd]; auto.
      destruct (check_boundaries_sublist m (mkLinks [] []) eq_refl) as [Hal' Hsub].
      split; [exact Hal'|]. eapply sublist_NoDup; [|exact Hsub]. constructor.
  - destruct (check_boundary_link_sublist m c s Hal) as [Hal' Hsub].
    split; [exact Hal'|]. eapply sublist_NoDup; eassumption.
  - destruct (remove_1d2d_link_sublist m x y kind md s Hal) as [Hal' Hsub].
    split; [exact Hal'|]. eapply sublist_NoDup; eassumption.
Qed.

Lemma np_getitem_valid {A} (a : list A) (k : Z) :
  (0 <= k < Z.of_nat (length a))%Z -> exists x, np_getitem a k = OK x.
Proof.
  intros Hk. unfold np_getitem, getitem.
  assert ((0 <=? k)%Z = true) as -> by (apply Z.leb_le; lia).
  destruct (a !! Z.to_nat k) as [x|] eqn:E; [eauto|].
  apply lookup_ge_None in E. lia.
Qed.

Lemma ravel_filter_subset (f : Z * Z -> bool) (e : list (Z * Z)) (item : Z) :
  item ∈ ravel (List.filter f e) -> item ∈ ravel e.
Proof.
  unfold ravel. rewrite !list_elem_of_In, !in_flat_map.
  intros (ab & Hab & Hin). exists ab. split; [|exact Hin].
  apply filter_In in Hab. tauto.
Qed.

Lemma check_boundary_link_total m (c : xy) s :
  aligned s -> edges_valid m ->
  fst (check_boundary_link m c s) = OK tt \/
  check_boundary_link m c s = (Raise KeyError, s).
Proof.
  intros Hal Hvalid. unfold check_boundary_link.
  destruct (nodes1d s) eqn:En; [left; reflexivity|].
  destruct (faces2d s) eqn:Ef; [left; reflexivity|].
  match goal with |- context [if ?b then _ else _] => destruct b end;
    [right; reflexivity|left].
  apply for_store_total; [left; reflexivity|exact Hal|].
  intros item Hin. apply (proj1 (elem_of_sort_by _ _ _)) in Hin.
  apply (proj1 (elem_of_remove_dups _ _)) in Hin.
  apply ravel_filter_subset in Hin. apply Hvalid in Hin.
  unfold node_of_item.
  destruct (np_getitem_valid (mesh1d_nodes m) (item - 1) ltac:(lia)) as (x & ->).
  reflexivity.
Qed.

(** C5.  [check_boundary_link] only takes links out of the table: the
    pairs left are a sublist of the pairs before.  Run again with the same
    boundary location and mesh on the table it returned, it returns that
    table unchanged; on a mesh whose edges join existing nodes a second run
    gives the outcome and the table of the first. *)
Theorem check_boundary_link_resolve m (c : xy) s :
  aligned s -> resolved m c s.
Proof.
  intros Hal. unfold resolved. cbv zeta.
  destruct (check_boundary_link_idempotent m c s Hal) as [Hsub Hidem].
  split; [exact Hsub|]. split; [exact Hidem|]. intros Hvalid.
  destruct (check_boundary_link_total m c s Hal Hvalid) as [HOK|HKey].
  - rewrite (Hidem HOK). destruct (check_boundary_link m c s) as [r s'].
    cbn in HOK |- *. rewrite HOK. reflexivity.
  - rewrite HKey. cbn. exact HKey.
Qed.

(** *** No check of the distance *)

Lemma dist_lt_nonpositive (d : option Q) (md : Q) :
  md <= 0 -> dist_lt d (Finite md) = false.
Proof.
  intros Hmd. destruct d as [d|]; cbn; [|reflexivity].
  assert (Qlt_bool 0 md = false) as -> by (apply Qlt_bool_false; exact Hmd).
  reflexivity.
Qed.

Lemma links_1d_to_2d_nonpositive m (md : Q) :
  md <= 0 -> links_1d_to_2d m (Finite md) = [].
Proof.
  intros Hmd. unfold links_1d_to_2d. rewrite filter_none; [reflexivity|].
  intros x _. apply dist_lt_nonpositive. exact Hmd.
Qed.

Lemma links_2d_to_1d_nonpositive m (md : Q) (b : bool) :
  md <= 0 -> links_2d_to_1d find_nearest_branch m (Finite md) b = [].
Proof.
  intros Hmd. unfold links_2d_to_1d. rewrite filter_none; [reflexivity|].
  intros x _. apply dist_lt_nonpositive. exact Hmd.
Qed.

Lemma check_boundaries_no_links m : check_boundaries m no_links = (OK tt, no_links).
Proof.
  unfold check_boundaries. induction (boundaries m) as [|[c|] l IH]; cbn; auto.
Qed.

(** C8 (amended).  No check rejects a [max_distance <= 0]: no distance is
    below it, so 1D-driven and 2D-driven intersecting generation add no
    link and only run the boundary checks on the stored table; on an empty
    table they return normally with no links. *)
Theorem nonpositive_distance_adds_nothing m (md : Q) s :
  md <= 0 ->
  generate_1d_to_2d m (Finite md) s = check_boundaries m s /\
  generate_2d_to_1d find_nearest_branch m (Finite md) true s = check_boundaries m s /\
  generate_1d_to_2d m (Finite md) no_links = (OK tt, no_links) /\
  generate_2d_to_1d find_nearest_branch m (Finite md) true no_links = (OK tt, no_links).
Proof.
  intros Hmd. unfold generate_1d_to_2d, generate_2d_to_1d.
  rewrite links_1d_to_2d_nonpositive, links_2d_to_1d_nonpositive by exact Hmd.
  rewrite !extend_nil, check_boundaries_no_links. auto.
Qed.

(** *** [get_1d2dlinks] *)

Lemma for_each_collect {A} (g : Z -> result A) (l : list Z) (acc : list A) :
  (forall i, g i <> OutOfFuel) ->
  (exists r, for_each l (fun i acc => p ← g i; OK (acc ++ [p])) acc = OK r /\
             length r = (length acc + length l)%nat) \/
  (exists e, for_each l (fun i acc => p ← g i; OK (acc ++ [p])) acc = Raise e).
Proof.
  intros Hg. revert acc. induction l as [|i l IH]; intros acc; cbn.
  - left. exists acc. split; [reflexivity|lia].
  - destruct (g i) as [p|e|] eqn:E; cbn; [|right; eauto|destruct (Hg i E)].
    destruct (IH (acc ++ [p])) as [(r & -> & Hlen)|(e & ->)]; [left|right; eauto].
    exists r. split; [reflexivity|]. rewrite length_app in Hlen. cbn in Hlen. lia.
Qed.

(** What [get_1d2dlinks] hands out has a link, or it is [None], or the
    call fails. *)
Lemma get_1d2dlinks_cases m (as_gdf : bool) s :
  (exists v, get_1d2dlinks m as_gdf s = OK (Some v) /\ (0 < view_size v)%nat /\
             (as_gdf = true -> exists r rows, v = LinkFrame (r :: rows))) \/
  (get_1d2dlinks m as_gdf s = OK None /\ any_id (nodes1d s) = false) \/
  (exists e, get_1d2dlinks m as_gdf s = Raise e).
Proof.
  unfold get_1d2dlinks.
  destruct (any_id (nodes1d s)) eqn:Eany; cbn [negb]; [|auto].
  destruct (for_each_collect (fun i => np_getitem (mesh1d_nodes m) (i - 1))
              (nodes1d s) []) as [(from & -> & Hfrom)|(e & ->)];
    [intros i; apply np_getitem_fuel| |cbn; eauto].
  cbn [mbind result_bind].
  destruct (for_each_collect (fun i => np_getitem (face_centers m) (i - 1))
              (faces2d s) []) as [(to & -> & Hto)|(e & ->)];
    [intros i; apply np_getitem_fuel| |cbn; eauto].
  cbn [mbind result_bind].
  destruct (Nat.eqb (length from) (length to)) eqn:Elen; cbn [negb]; [|eauto].
  apply Nat.eqb_eq in Elen. cbn in Hfrom, Hto.
  destruct (nodes1d s) as [|n ns]; [discriminate|].
  destruct (faces2d s) as [|f fs]; [cbn in *; lia|].
  destruct from as [|p from]; [discriminate|].
  destruct to as [|q to]; [discriminate|].
  left. destruct as_gdf; cbn.
  - eexists. split; [reflexivity|]. split; [cbn; lia|]. eauto.
  - eexists. split; [reflexivity|]. split; [cbn; lia|]. discriminate.
Qed.

(** A data frame of links has a row, or there is none. *)
Lemma get_1d2dlinks_frame m s :
  (exists r rows, get_1d2dlinks m true s = OK (Some (LinkFrame (r :: rows)))) \/
  get_1d2dlinks m true s = OK None \/
  (exists e, get_1d2dlinks m true s = Raise e).
Proof.
  destruct (get_1d2dlinks_cases m true s)
    as [(v & Hv & _ & Hframe)|[[Hnone _]|Hraise]]; [left|auto|auto].
  destruct (Hframe eq_refl) as (r & rows & ->). eauto.
Qed.

(** C10.  With no 1D node id stored, [get_1d2dlinks] returns [None],
    whatever [as_gdf] is; an array or data frame that it returns is never
    empty, and it returns [None] only when no id is stored. *)
Theorem get_1d2dlinks_empty m (as_gdf : bool) :
  (forall faces : list Z, get_1d2dlinks m as_gdf (mkLinks [] faces) = OK None) /\
  (forall s v, get_1d2dlinks m as_gdf s = OK (Some v) -> (0 < view_size v)%nat) /\
  (forall s, get_1d2dlinks m as_gdf s = OK None -> any_id (nodes1d s) = false).
Proof.
  split; [reflexivity|]. split.
  - intros s v Hv.
    destruct (get_1d2dlinks_cases m as_gdf s)
      as [(v' & Hv' & Hsize & _)|[[Hnone _]|(e & Hraise)]]; congruence.
  - intros s Hs.
    destruct (get_1d2dlinks_cases m as_gdf s)
      as [(v' & Hv' & _)|[[_ Hany]|(e & Hraise)]]; congruence.
Qed.

(** C4 (code at the failing input).  In 2D-driven nearest mode the call
    never returns normally: without links [get_1d2dlinks] hands out [None],
    and with a link the first pass of the filter loop fails on the unbound
    name.  The table is left with every generated link.  With two cells in
    a row and a node to their left, the link of the far cell, which crosses
    the near cell, stays in the table. *)
Theorem nearest_mode_raises :
  (forall m (md : bound) s,
      snd (generate_2d_to_1d find_nearest_branch m md false s)
        = extend s (links_2d_to_1d find_nearest_branch m md false) /\
      exists e, fst (generate_2d_to_1d find_nearest_branch m md false s) = Raise e) /\
  generate_2d_to_1d every_cell_near two_cells Inf false no_links
    = (Raise NameError, mkLinks [1; 1]%Z [1; 2]%Z).
Proof.
  split; [|vm_compute; reflexivity].
  intros m md s. unfold generate_2d_to_1d.
  set (s1 := extend s _).
  destruct (get_1d2dlinks_frame m s1) as [(r & rows & ->)|[-> |(e & ->)]];
    cbn; eauto.
Qed.
End WithMesh.

Lemma check_boundary_link_resolve_witness :
  aligned three_links /\ resolved three_nodes (0, 0) three_links.
Proof.
  assert (H : aligned three_links) by reflexivity.
  split; [exact H|].
  exact (check_boundary_link_resolve three_nodes (0, 0) three_links H).
Defined.

Lemma nonpositive_distance_adds_nothing_witness :
  - (1) <= 0 /\
  generate_1d_to_2d three_nodes (Finite (- (1))) three_links
    = check_boundaries three_nodes three_links /\
  generate_2d_to_1d every_cell_near three_nodes (Finite (- (1))) true three_links
    = check_boundaries three_nodes three_links /\
  generate_1d_to_2d three_nodes (Finite (- (1))) no_links = (OK tt, no_links) /\
  generate_2d_to_1d every_cell_near three_nodes (Finite (- (1))) true no_links
    = (OK tt, no_links).
Proof.
  assert (H : - (1) <= 0) by (intros H; vm_compute in H; discriminate H).
  split; [exact H|].
  exact (nonpositive_distance_adds_nothing every_cell_near three_nodes (- (1))
           three_links H).
Defined.

(** C8 (counterexample).  With [max_distance = 0] both generators return
    normally, without links: no error is raised. *)
Lemma nonpositive_distance_no_error :
  generate_1d_to_2d two_cells (Finite 0) no_links = (OK tt, no_links) /\
  generate_2d_to_1d every_cell_near two_cells (Finite 0) true no_links
    = (OK tt, no_links).
Proof. split; vm_compute; reflexivity. Qed.

Lemma single_pass_unique_witness :
  single_pass every_cell_near (snd (generate_1d_to_2d three_nodes Inf no_links)) /\
  NoDup (pairs (snd (generate_1d_to_2d three_nodes Inf no_links))).
Proof.
  assert (H : single_pass every_cell_near
                (snd (generate_1d_to_2d three_nodes Inf no_links)))
    by apply pass_1d_to_2d.
  split; [exact H|].
  exact (single_pass_unique every_cell_near _ H).
Defined.

(** C9 (counterexample).  A second 1D-driven pass on the same mesh appends
    the pair of the first pass again. *)
Lemma repeated_generation_duplicates :
  let s1 := snd (generate_1d_to_2d two_cells Inf no_links) in
  let s2 := snd (generate_1d_to_2d two_cells Inf s1) in
  pairs s2 = [(1, 1); (1, 1)]%Z /\ ~ NoDup (pairs s2).
Proof.
  cbv zeta. split; [vm_compute; reflexivity|].
  intros Hnd.
  assert (Hp : pairs (snd (generate_1d_to_2d two_cells Inf
                  (snd (generate_1d_to_2d two_cells Inf no_links))))
               = [(1, 1); (1, 1)]%Z) by (vm_compute; reflexivity).
  rewrite Hp in Hnd. apply NoDup_cons in Hnd as [Hin _]. apply Hin. left.
Qed.

Lemma get_1d2dlinks_empty_witness :
  get_1d2dlinks three_nodes false no_links = OK None /\
  (exists v, get_1d2dlinks three_nodes false three_links = OK (Some v) /\
             (0 < view_size v)%nat).
Proof.
  split.
  - exact (proj1 (get_1d2dlinks_empty three_nodes false) []).
  - eexists. split; [vm_compute; reflexivity|].
    eapply (proj1 (proj2 (get_1d2dlinks_empty three_nodes false)) three_links).
    vm_compute. reflexivity.
Defined.

(** * More on the spacing of grid points *)

(** * Outcome of the spacing function *)

Lemma sorted_cons2 (a b : Q) (l : list Q) :
  a < b -> StronglySorted Qlt (b :: l) -> StronglySorted Qlt (a :: b :: l).
Proof.
  intros Hab Hs. constructor; [exact Hs|].
  constructor; [exact Hab|].
  apply StronglySorted_inv in Hs as [_ Hall].
  eapply Forall_impl; [exact Hall|]. intros x Hx. cbn in Hx. lra.
Qed.

Lemma spacing_unfold (a b : Q) (rest : list Q) (d : Q) :
  Spacer._generate_1d_spacing (a :: b :: rest) d =
  if Qle_bool (b - a) 0 then Raise ValueError
  else if Qeq_bool d 0 then Raise ZeroDivisionError
  else (offsets ← Spacer._generate_1d_spacing (b :: rest) d;
        OK (linspace a b (Spacer.nnodes (b - a) d - 1) ++ offsets)).
Proof. reflexivity. Qed.

Lemma spacing_cases (anchors : list Q) (d : Q) :
  match Spacer._generate_1d_spacing anchors d with
  | OK offs =>
      anchors <> [] /\ StronglySorted Qlt anchors /\
      (length anchors = 1%nat \/ ~ d == 0)
  | Raise IndexError => anchors = []
  | Raise ValueError => ~ StronglySorted Qlt anchors
  | Raise ZeroDivisionError => d == 0 /\ (2 <= length anchors)%nat
  | _ => False
  end.
Proof.
  induction anchors as [|a rest IH]; [reflexivity|].
  destruct rest as [|b rest'].
  - cbn. split; [discriminate|]. split; [repeat constructor|left; reflexivity].
  - rewrite spacing_unfold.
    destruct (Qle_bool (b - a) 0) eqn:E1.
    { apply Qle_bool_iff in E1. intros Hs.
      apply StronglySorted_inv in Hs as [_ Hall]. inversion Hall; subst. lra. }
    apply Qle_bool_false in E1.
    destruct (Qeq_bool d 0) eqn:E2.
    { apply Qeq_bool_iff in E2. split; [exact E2|cbn; lia]. }
    apply Qeq_bool_false in E2.
    destruct (Spacer._generate_1d_spacing (b :: rest') d) as [offs|e|]; cbn.
    + destruct IH as (_ & Hs & _). split; [discriminate|].
      split; [apply sorted_cons2; [lra|exact Hs]|right; exact E2].
    + destruct e; try exact IH.
      * intros Hs. apply IH. apply StronglySorted_inv in Hs as [Hs _]. exact Hs.
      * discriminate IH.
      * destruct IH as [IH _]. split; [exact IH|cbn; lia].
    + exact IH.
Qed.

(** X1.  _generate_1d_spacing returns offsets exactly when the anchor list is
    non-empty, strictly increasing and, for two or more anchors, the mesh
    distance is not zero. An empty list raises IndexError, a non-increasing
    list (with a non-zero distance) ValueError, and a zero distance on
    increasing anchors ZeroDivisionError. *)
Theorem spacing_outcome (anchors : list Q) (d : Q) :
  (anchors = [] -> Spacer._generate_1d_spacing anchors d = Raise IndexError) /\
  (anchors <> [] -> ~ d == 0 -> ~ StronglySorted Qlt anchors ->
   Spacer._generate_1d_spacing anchors d = Raise ValueError) /\
  (d == 0 -> (2 <= length anchors)%nat -> StronglySorted Qlt anchors ->
   Spacer._generate_1d_spacing anchors d = Raise ZeroDivisionError) /\
  ((exists offs, Spacer._generate_1d_spacing anchors d = OK offs) <->
   anchors <> [] /\ StronglySorted Qlt anchors /\
   (length anchors = 1%nat \/ ~ d == 0)).
Proof.
  pose proof (spacing_cases anchors d) as Hc.
  split; [intros ->; reflexivity|].
  split; [|split].
  - intros Hne Hd Hs.
    destruct (Spacer._generate_1d_spacing anchors d) as [offs|e|]; try tauto.
    destruct e; first [reflexivity|tauto].
  - intros Hd Hlen Hs.
    destruct (Spacer._generate_1d_spacing anchors d) as [offs|e|]; try tauto.
    + destruct Hc as (_ & _ & [Hc|Hc]); [lia|tauto].
    + destruct e; first [reflexivity|tauto|subst; cbn in Hlen; lia].
  - split.
    + intros [offs Ho]. rewrite Ho in Hc. exact Hc.
    + intros (Hne & Hs & [Hlen|Hd]).
      * destruct anchors as [|a [|b l]]; [congruence| |discriminate Hlen].
        exists [a]. reflexivity.
      * destruct (spacing_spec anchors d Hd Hne Hs) as (offs & Ho & _).
        exists offs. exact Ho.
Qed.

Lemma spacing_outcome_witness :
  Spacer._generate_1d_spacing [0; 10; 10] 3 = Raise ValueError /\
  Spacer._generate_1d_spacing [0; 10] 0 = Raise ZeroDivisionError /\
  exists offs, Spacer._generate_1d_spacing [0; 10] 3 = OK offs.
Proof.
  assert (Hs : StronglySorted Qlt [0; 10]).
  { repeat constructor. }
  assert (Hd : ~ 3 == 0) by (intros H; vm_compute in H; discriminate H).
  assert (Hns : ~ StronglySorted Qlt [0; 10; 10]).
  { intros H. apply StronglySorted_inv in H as [H _].
    apply StronglySorted_inv in H as [_ H]. inversion H as [|x l Hx _]; subst.
    vm_compute in Hx. discriminate Hx. }
  split; [|split].
  - apply (proj1 (proj2 (spacing_outcome [0; 10; 10] 3)));
      [discriminate|exact Hd|exact Hns].
  - apply (proj1 (proj2 (proj2 (spacing_outcome [0; 10] 0))));
      [reflexivity|cbn; lia|exact Hs].
  - apply (proj2 (proj2 (proj2 (proj2 (spacing_outcome [0; 10] 3))))).
    split; [discriminate|]. split; [exact Hs|right; exact Hd].
Defined.

(** * Gap between neighbouring offsets *)

Lemma py_round_near (x : Q) :
  inject_Z (py_round x) - (1 # 2) <= x /\ x <= inject_Z (py_round x) + (1 # 2).
Proof.
  unfold py_round. pose proof (Qfloor_le x) as H1. pose proof (Qlt_floor x) as H2.
  rewrite inject_Z_plus in H2. change (inject_Z 1) with 1 in H2.
  destruct (Qcompare (x - inject_Z (Qfloor x)) (1 # 2)) eqn:E.
  - apply Qeq_alt in E. destruct (Z.even (Qfloor x));
      rewrite ?inject_Z_plus; change (inject_Z 1) with 1; lra.
  - apply Qlt_alt in E. lra.
  - apply Qgt_alt in E. rewrite inject_Z_plus. change (inject_Z 1) with 1. lra.
Qed.

Lemma section_step_bounds (a b d : Q) :
  a < b -> 0 < d ->
  let step := (b - a) / inject_Z (Spacer.nnodes (b - a) d - 1) in
  0 < step /\ step <= (3 # 2) * d /\ (d <= b - a -> (2 # 3) * d <= step).
Proof.
  intros Hab Hd step.
  pose proof (nnodes_ge_2 (b - a) d) as Hn.
  pose proof (py_round_near ((b - a) / d)) as [Hr1 Hr2].
  assert (Hx : (b - a) / d * d == b - a) by (field; lra).
  set (x := (b - a) / d) in *.
  assert (Hxpos : 0 < x * d) by lra.
  set (r := py_round x) in *.
  assert (Hk : (Spacer.nnodes (b - a)%Q d - 1 = Z.max 1 r)%Z).
  { unfold Spacer.nnodes. fold x. fold r. lia. }
  assert (Hst : inject_Z (Z.max 1 r) * step == b - a).
  { unfold step. rewrite Hk. apply step_total. lia. }
  assert (Hsp : 0 < step).
  { unfold step. apply step_pos; [exact Hab|lia]. }
  clearbody step.
  assert (Hrd1 : (inject_Z r - (1 # 2)) * d <= x * d) by (apply Qmult_le_compat_r; lra).
  assert (Hrd2 : x * d <= (inject_Z r + (1 # 2)) * d) by (apply Qmult_le_compat_r; lra).
  split; [exact Hsp|].
  destruct (Z_le_gt_dec r 0) as [Hr|Hr].
  - replace (Z.max 1 r) with 1%Z in Hst by lia. change (inject_Z 1) with 1 in Hst.
    assert (inject_Z r <= 0) by (change 0 with (inject_Z 0); rewrite <- Zle_Qle; exact Hr).
    split.
    + nra.
    + intros. nra.
  - replace (Z.max 1 r) with r in Hst by lia.
    assert (Hr1' : 1 <= inject_Z r)
      by (change 1 with (inject_Z 1); rewrite <- Zle_Qle; lia).
    split.
    + (* r * step = L <= (r + 1/2) d <= 3/2 r d *)
      assert (inject_Z r * step <= inject_Z r * ((3 # 2) * d)) by nra.
      apply Qmult_le_l in H; [exact H|lra].
    + intros HdL.
      destruct (Z.eq_dec r 1%Z) as [Hr1e|Hr1e].
      * rewrite Hr1e in Hst. change (inject_Z 1) with 1 in Hst. lra.
      * assert (Hr2' : 2 <= inject_Z r)
          by (change 2 with (inject_Z 2); rewrite <- Zle_Qle; lia).
        assert (inject_Z r * ((2 # 3) * d) <= inject_Z r * step) by nra.
        apply Qmult_le_l in H; [exact H|lra].
Qed.

Lemma spacing_gap_is_step (anchors : list Q) (d : Q) :
  ~ d == 0 -> anchors <> [] -> StronglySorted Qlt anchors ->
  forall offs, Spacer._generate_1d_spacing anchors d = OK offs ->
  forall (i : nat) (x y : Q),
    offs !! i = Some x -> offs !! S i = Some y ->
    exists (j : nat) (a b : Q),
      anchors !! j = Some a /\ anchors !! S j = Some b /\ a < b /\
      y - x == (b - a) / inject_Z (Spacer.nnodes (b - a) d - 1).
Proof.
  intros Hd. induction anchors as [|a rest IH]; intros Hne Hs offs Ho i x y Hx Hy;
    [congruence|].
  destruct rest as [|b rest'].
  - cbn in Ho. injection Ho as <-. destruct i; discriminate Hy.
  - pose proof Hs as Hs'. apply StronglySorted_inv in Hs' as [Hrest Hall].
    assert (Hab : a < b) by (inversion Hall; assumption).
    destruct (spacing_spec (b :: rest') d Hd ltac:(discriminate) Hrest)
      as (offs' & Hoffs & _ & (o & l & b' & -> & Hb' & Hob) & _).
    injection Hb' as <-.
    rewrite (spacing_cons2 a b rest' d Hab Hd), Hoffs in Ho. cbn in Ho.
    injection Ho as <-.
    pose proof (nnodes_ge_2 (b - a) d) as Hn.
    set (n := (Spacer.nnodes (b - a) d - 1)%Z) in *.
    assert (Hn1 : (1 <= n)%Z) by (unfold n; lia).
    pose proof (length_linspace a b n) as Hlen.
    destruct (lt_dec (S i) (Z.to_nat n)) as [Hlt|Hge].
    + rewrite lookup_app_l in Hx by lia. rewrite lookup_app_l in Hy by lia.
      apply linspace_lookup in Hx as [_ ->]. apply linspace_lookup in Hy as [_ ->].
      exists 0%nat, a, b. repeat split; [exact Hab|].
      rewrite Nat2Z.inj_succ. unfold Z.succ. rewrite inject_Z_plus.
      change (inject_Z 1) with 1. fold n. ring.
    + destruct (Nat.eq_dec (S i) (Z.to_nat n)) as [Heq|Hneq].
      * rewrite lookup_app_l in Hx by lia. rewrite lookup_app_r in Hy by lia.
        replace (S i - length (linspace a b n))%nat with 0%nat in Hy by lia.
        cbn in Hy. injection Hy as <-.
        apply linspace_lookup in Hx as [_ ->].
        exists 0%nat, a, b. repeat split; [exact Hab|].
        fold n. pose proof (step_total a b n Hn1) as Ht.
        assert (Hni : inject_Z n == inject_Z (Z.of_nat i) + 1).
        { rewrite <- (Z2Nat.id n) by lia. rewrite <- Heq.
          rewrite Nat2Z.inj_succ. unfold Z.succ. rewrite inject_Z_plus. reflexivity. }
        rewrite Hni in Ht at 1. set (st := (b - a) / inject_Z n) in *. lra.
      * rewrite lookup_app_r in Hx by lia. rewrite lookup_app_r in Hy by lia.
        replace (S i - length (linspace a b n))%nat
          with (S (i - length (linspace a b n)))%nat in Hy by lia.
        destruct (IH ltac:(discriminate) Hrest (o :: l) Hoffs _ _ _ Hx Hy)
          as (j & a' & b' & Ha' & Hb' & Hlt' & Hgap).
        exists (S j), a', b'. repeat split; assumption.
Qed.

(** X2.  For a positive mesh distance d, two neighbouring offsets returned by
    _generate_1d_spacing are more than 0 and at most 1.5*d apart; when every
    section between anchors is at least d long they are also at least (2/3)*d
    apart. *)
Theorem spacing_gap_bounds (anchors : list Q) (d : Q) (offs : list Q) :
  0 < d -> StronglySorted Qlt anchors ->
  Spacer._generate_1d_spacing anchors d = OK offs ->
  forall (i : nat) (x y : Q),
    offs !! i = Some x -> offs !! S i = Some y ->
    0 < y - x /\ y - x <= (3 # 2) * d /\
    ((forall (j : nat) (a b : Q),
         anchors !! j = Some a -> anchors !! S j = Some b -> d <= b - a) ->
     (2 # 3) * d <= y - x).
Proof.
  intros Hd Hs Ho i x y Hx Hy.
  assert (Hne : anchors <> []) by (intros ->; discriminate Ho).
  assert (Hd0 : ~ d == 0) by lra.
  destruct (spacing_gap_is_step anchors d Hd0 Hne Hs offs Ho i x y Hx Hy)
    as (j & a & b & Ha & Hb & Hab & Hgap).
  destruct (section_step_bounds a b d Hab Hd) as (H1 & H2 & H3).
  rewrite Hgap. split; [exact H1|]. split; [exact H2|].
  intros Hlen. apply H3. exact (Hlen j a b Ha Hb).
Qed.

Lemma spacing_gap_bounds_witness :
  exists offs x y,
    Spacer._generate_1d_spacing [0; 100] 40 = OK offs /\
    offs !! 1%nat = Some x /\ offs !! 2%nat = Some y /\
    0 < y - x /\ y - x <= (3 # 2) * 40 /\ (2 # 3) * 40 <= y - x.
Proof.
  assert (Hd : 0 < 40) by reflexivity.
  assert (Hs : StronglySorted Qlt [0; 100]) by (repeat constructor).
  destruct (Spacer._generate_1d_spacing [0; 100] 40) as [offs|e|] eqn:Ho;
    [|vm_compute in Ho; discriminate Ho..].
  destruct (offs !! 1%nat) as [x|] eqn:Hx;
    [|vm_compute in Ho; injection Ho as <-; discriminate Hx].
  destruct (offs !! 2%nat) as [y|] eqn:Hy;
    [|vm_compute in Ho; injection Ho as <-; discriminate Hy].
  exists offs, x, y. split; [reflexivity|]. split; [exact Hx|]. split; [exact Hy|].
  destruct (spacing_gap_bounds [0; 100] 40 offs Hd Hs Ho 1%nat x y Hx Hy)
    as (H1 & H2 & H3).
  split; [exact H1|]. split; [exact H2|]. apply H3.
  intros j a b Ha Hb. destruct j as [|j]; [|destruct j; discriminate Hb].
  injection Ha as <-. injection Hb as <-. vm_compute. discriminate.
Defined.

(** * The loop over the windows, for any chainages *)

(** * The coverage loop in general *)

Lemma insert_duplicate_unsorted (m : Q) (l : list Q) :
  (exists y, y ∈ l /\ m == y) -> ~ StronglySorted Qlt (insert_by Qlt_bool m l).
Proof.
  induction l as [|z l IH]; intros (y & Hy & Hmy) Hs; [inversion Hy|].
  cbn in Hs. destruct (Qlt_bool m z) eqn:E.
  - apply StronglySorted_inv in Hs as [_ Hall]. rewrite Forall_forall in Hall.
    specialize (Hall y Hy). lra.
  - apply Qlt_bool_false in E.
    apply StronglySorted_inv in Hs as [Hs Hall]. rewrite Forall_forall in Hall.
    apply elem_of_cons in Hy as [->|Hy].
    + assert (Hm : m ∈ insert_by Qlt_bool m l) by (apply elem_of_insert_by; auto).
      specialize (Hall m Hm). lra.
    + apply IH; [exists y; auto|exact Hs].
Qed.

Lemma existsb_Qeq (m : Q) (l : list Q) :
  existsb (Qeq_bool m) l = true <-> exists y, y ∈ l /\ m == y.
Proof.
  rewrite existsb_exists. split.
  - intros (y & Hy & He). exists y. split; [apply list_elem_of_In; exact Hy|].
    apply Qeq_bool_iff. exact He.
  - intros (y & Hy & He). exists y. split; [apply list_elem_of_In; exact Hy|].
    apply Qeq_bool_iff. exact He.
Qed.

Lemma coverage_loop_outcome (I : Q -> Prop) (base : list Q)
    (fuel : nat) (lower upper : list Q) (d : Q) :
  ~ d == 0 ->
  (forall w, w ∈ combine lower upper -> covered base w = false ->
             I ((fst w + snd w) / 2)) ->
  forall anchors offs,
    StronglySorted Qlt anchors -> anchors <> [] ->
    Spacer._generate_1d_spacing anchors d = OK offs ->
    Forall I anchors -> (forall a, a ∈ base -> Qin a anchors) ->
    (length (List.filter
               (fun w => negb (covered anchors w) &&
                         negb (existsb (Qeq_bool ((fst w + snd w) / 2)) anchors))
               (combine lower upper))
     + (if forallb (fun w => Qlt_bool (fst w) (snd w)) (combine lower upper)
        then 0 else 1) <= fuel)%nat ->
    match coverage_loop fuel lower upper d anchors offs with
    | OK (anchors', offs') =>
        forallb (covered offs') (combine lower upper) = true /\
        StronglySorted Qlt anchors' /\ anchors' <> [] /\
        Spacer._generate_1d_spacing anchors' d = OK offs' /\
        Forall I anchors' /\ (forall a, a ∈ anchors -> a ∈ anchors')
    | Raise e =>
        e = ValueError /\
        forallb (fun w => Qlt_bool (fst w) (snd w)) (combine lower upper) = false
    | OutOfFuel => False
    end.
Proof.
  intros Hd HI.
  induction fuel as [|fuel IH]; intros anchors offs Hs Hne Hsp HIa Hbase Hm.
  all: destruct (spacing_spec anchors d Hd Hne Hs) as (offs0 & Hsp0 & _ & _ & _ & Hin).
  all: rewrite Hsp in Hsp0; injection Hsp0 as <-.
  all: cbn [coverage_loop]; unfold in_range; rewrite forallb_id_map.
  all: destruct (forallb (covered offs) (combine lower upper)) eqn:E;
    [repeat split; auto|].
  all: destruct (index_false_spec _ _ E) as (i & [lo up] & Hi & Hlk & Hc).
  all: assert (Hopen : covered anchors (lo, up) = false).
  1,3: destruct (covered anchors (lo, up)) eqn:E'; [|reflexivity];
       apply (covered_mono _ offs _ Hin) in E'; congruence.
  all: assert (Hw : (lo, up) ∈ combine lower upper)
    by (apply list_elem_of_lookup; eauto).
  all: set (mid := (lo + up) / 2).
  all: assert (Hemp : existsb (Qeq_bool mid) anchors = true ->
                 forallb (fun w => Qlt_bool (fst w) (snd w)) (combine lower upper)
                 = false).
  1,3: intros Ex;
       destruct (forallb (fun w => Qlt_bool (fst w) (snd w)) (combine lower upper))
         eqn:Ef; [|reflexivity];
       rewrite forallb_forall in Ef;
       specialize (Ef (lo, up) (proj1 (list_elem_of_In _ _) Hw)); cbn in Ef;
       apply Qlt_bool_iff in Ef;
       apply existsb_Qeq in Ex as (y & Hy & Hmy);
       assert (covered anchors (lo, up) = true); [|congruence];
       apply covered_iff; exists y; cbn; split; [exact Hy|];
       assert (lo < mid /\ mid < up)
         by (unfold mid; split; [apply Qlt_shift_div_l|apply Qlt_shift_div_r]; lra);
       lra.
  all: destruct (existsb (Qeq_bool mid) anchors) eqn:Ex.
  all: try specialize (Hemp eq_refl).
  - rewrite Hemp in Hm. lia.
  - assert (Hx : (lo, up) ∈ List.filter
               (fun w => negb (covered anchors w) &&
                         negb (existsb (Qeq_bool ((fst w + snd w) / 2)) anchors))
               (combine lower upper)).
    { apply list_elem_of_In, filter_In. split; [apply list_elem_of_In; exact Hw|].
      cbn. fold mid. rewrite Hopen, Ex. reflexivity. }
    destruct (List.filter _ (combine lower upper)); [inversion Hx|cbn in Hm; lia].
  - rewrite Hi; cbn.
    destruct (lookup_combine _ _ _ _ _ Hlk) as [Hlo Hup].
    unfold getitem; rewrite Hlo, Hup; cbn; fold mid.
    unfold sorted; rewrite sort_by_snoc.
    fold (sorted anchors); rewrite (sorted_increasing anchors Hs).
    pose proof (insert_duplicate_unsorted mid anchors (proj1 (existsb_Qeq _ _) Ex))
      as Hns.
    pose proof (spacing_cases (insert_by Qlt_bool mid anchors) d) as Hcase.
    destruct (Spacer._generate_1d_spacing (insert_by Qlt_bool mid anchors) d)
      as [o|e|]; cbn; [tauto| |tauto].
    destruct e; first [split; [reflexivity|exact Hemp]|tauto|idtac].
    exfalso. assert (Hm' : mid ∈ insert_by Qlt_bool mid anchors)
      by (apply elem_of_insert_by; auto).
    rewrite Hcase in Hm'. inversion Hm'.
  - rewrite Hi; cbn.
    destruct (lookup_combine _ _ _ _ _ Hlk) as [Hlo Hup].
    unfold getitem; rewrite Hlo, Hup; cbn; fold mid.
    unfold sorted; rewrite sort_by_snoc.
    fold (sorted anchors); rewrite (sorted_increasing anchors Hs).
    assert (Hnew : Forall (fun y => ~ mid == y) anchors).
    { apply Forall_forall. intros y Hy Heq.
      assert (existsb (Qeq_bool mid) anchors = true); [|congruence].
      apply existsb_Qeq. eauto. }
    set (anchors' := insert_by Qlt_bool mid anchors).
    assert (Hs' : StronglySorted Qlt anchors') by (apply insert_increasing; assumption).
    assert (Hmin : mid ∈ anchors') by (apply elem_of_insert_by; auto).
    assert (Hne' : anchors' <> []).
    { intros Heq. rewrite Heq in Hmin. inversion Hmin. }
    destruct (spacing_spec anchors' d Hd Hne' Hs') as (offs' & Hsp' & _).
    rewrite Hsp'. cbn.
    assert (Hsub : forall a, a ∈ anchors -> a ∈ anchors')
      by (intros a Ha; apply elem_of_insert_by; auto).
    assert (HIa' : Forall I anchors').
    { apply Forall_forall. intros a Ha. apply elem_of_insert_by in Ha as [->|Ha].
      - apply (HI (lo, up) Hw).
        destruct (covered base (lo, up)) eqn:E'; [|reflexivity].
        apply (covered_mono _ anchors _ Hbase) in E'. congruence.
      - rewrite Forall_forall in HIa. auto. }
    assert (Hbase' : forall a, a ∈ base -> Qin a anchors').
    { intros a Ha. destruct (Hbase a Ha) as (y & Hy & Hya). exists y. auto. }
    assert (Hlt : (length (List.filter
               (fun w => negb (covered anchors' w) &&
                         negb (existsb (Qeq_bool ((fst w + snd w) / 2)) anchors'))
               (combine lower upper))
            < length (List.filter
               (fun w => negb (covered anchors w) &&
                         negb (existsb (Qeq_bool ((fst w + snd w) / 2)) anchors))
               (combine lower upper)))%nat).
    { apply (filter_length_lt _ _ _ (lo, up)).
      - intros w Hcw. apply andb_true_iff in Hcw as [H1 H2].
        apply negb_true_iff in H1, H2. apply andb_true_iff. split; apply negb_true_iff.
        + destruct (covered anchors w) eqn:E'; [|reflexivity].
          rewrite <- H1. symmetry. apply (covered_mono anchors); [|exact E'].
          intros a Ha. exists a. split; [auto|reflexivity].
        + destruct (existsb (Qeq_bool ((fst w + snd w) / 2)) anchors) eqn:E';
            [|reflexivity].
          rewrite <- H2. symmetry. apply existsb_Qeq.
          apply existsb_Qeq in E' as (y & Hy & Hey). exists y. auto.
      - exact Hw.
      - cbn. fold mid. rewrite Hopen, Ex. reflexivity.
      - cbn. fold mid. apply andb_false_iff. right. apply negb_false_iff.
        apply existsb_Qeq. exists mid. split; [exact Hmin|reflexivity]. }
    assert (Hm' : (length (List.filter
               (fun w => negb (covered anchors' w) &&
                         negb (existsb (Qeq_bool ((fst w + snd w) / 2)) anchors'))
               (combine lower upper))
     + (if forallb (fun w => Qlt_bool (fst w) (snd w)) (combine lower upper)
        then 0 else 1) <= fuel)%nat) by lia.
    specialize (IH anchors' offs' Hs' Hne' Hsp' HIa' Hbase' Hm').
    destruct (coverage_loop fuel lower upper d anchors' offs') as [[a'' o'']|e|];
      [|exact IH..].
    destruct IH as (H1 & H2 & H3 & H4 & H5 & H6).
    repeat split; auto.
Qed.

(** * Windows of a group of structures *)

Lemma windows_ends (x y : Q) (l : list Q) (w : Q * Q) :
  w ∈ combine (x :: l) (l ++ [y]) ->
  (fst w = x \/ fst w ∈ l) /\ (snd w ∈ l \/ snd w = y).
Proof.
  revert x. induction l as [|c l IH]; intros x Hw.
  - cbn in Hw. apply list_elem_of_singleton in Hw as ->. cbn. auto.
  - cbn in Hw. apply elem_of_cons in Hw as [->|Hw].
    + cbn. split; [auto|]. left; left.
    + destruct (IH c Hw) as (H1 & H2).
      split; [right; destruct H1 as [->|H1]; [left|right; exact H1]|].
      destruct H2 as [H2|H2]; [left; right; exact H2|right; exact H2].
Qed.


Lemma chain_sorted (x y : Q) (l : list Q) :
  x < y -> StronglySorted Qlt l -> (forall c, c ∈ l -> x < c /\ c < y) ->
  StronglySorted Qlt (x :: l ++ [y]).
Proof.
  intros Hxy Hs Hl. constructor.
  - apply StronglySorted_app_2; [|exact Hs|repeat constructor].
    intros a b Ha Hb. apply list_elem_of_singleton in Hb as ->.
    destruct (Hl a Ha). assumption.
  - apply Forall_app. split.
    + apply Forall_forall. intros c Hc. destruct (Hl c Hc). assumption.
    + repeat constructor. exact Hxy.
Qed.

Lemma length_windows (L : Q) (chainages : list Q) :
  (length (windows L chainages) <= length chainages + 1)%nat.
Proof.
  unfold windows, lower_limits, upper_limits.
  rewrite length_combine, length_app. cbn [length].
  pose proof (length_limits chainages). lia.
Qed.

Lemma sorted_le_last (l : list Q) (z : Q) :
  StronglySorted Qlt l -> last l = Some z -> forall o, o ∈ l -> o <= z.
Proof.
  induction l as [|a l IH]; intros Hs Hl o Ho; [inversion Ho|].
  apply StronglySorted_inv in Hs as [Hs Hall].
  destruct l as [|b l'].
  - cbn in Hl. injection Hl as <-. apply list_elem_of_singleton in Ho as ->. lra.
  - change (last (a :: b :: l')) with (last (b :: l')) in Hl.
    apply elem_of_cons in Ho as [->|Ho].
    + rewrite Forall_forall in Hall.
      assert (Hz : z ∈ b :: l').
      { apply last_Some in Hl as [l'' Hl]. rewrite Hl. apply elem_of_app. right. left. }
      specialize (Hall z Hz). lra.
    + exact (IH Hs Hl o Ho).
Qed.


(** The offsets of a branch with structures, whatever the chainages are. *)
Lemma structure_offsets_outcome (I : Q -> Prop) (fuel : nat) (L d : Q)
    (chainages : list Q) :
  (forall w, w ∈ windows L chainages -> covered [0; L] w = false ->
             I ((fst w + snd w) / 2)) ->
  I 0 -> I L ->
  (length chainages
   + (if forallb (fun w => Qlt_bool (fst w) (snd w)) (windows L chainages)
      then 0 else 1) < fuel)%nat ->
  match structure_offsets fuel L chainages d with
  | OK offs =>
      0 < L /\ ~ d == 0 /\
      exists anchors,
        StronglySorted Qlt anchors /\ 0 ∈ anchors /\ L ∈ anchors /\
        Forall I anchors /\ Spacer._generate_1d_spacing anchors d = OK offs /\
        (any_limit (limits_of chainages) = true ->
         forallb (covered offs) (windows L chainages) = true)
  | Raise e =>
      (e = ValueError /\
       (L <= 0 \/
        any_limit (limits_of chainages) = true /\
        forallb (fun w => Qlt_bool (fst w) (snd w)) (windows L chainages) = false)) \/
      (e = ZeroDivisionError /\ d == 0)
  | OutOfFuel => False
  end.
Proof.
  intros HI HI0 HIL Hfuel. unfold structure_offsets.
  pose proof (spacing_cases [0; L] d) as Hc.
  destruct (Spacer._generate_1d_spacing [0; L] d) as [offs|e|] eqn:Hsp; cbn.
  - destruct Hc as (_ & Hs & [Hlen|Hd]); [discriminate Hlen|].
    assert (HL : 0 < L).
    { apply StronglySorted_inv in Hs as [_ Hall]. inversion Hall; assumption. }
    destruct (any_limit (limits_of chainages)) eqn:Hany.
    + pose proof (coverage_loop_outcome I [0; L] fuel
                    (lower_limits (limits_of chainages))
                    (upper_limits (limits_of chainages) L) d Hd HI
                    [0; L] offs Hs ltac:(discriminate) Hsp) as Hloop.
      fold (windows L chainages) in Hloop.
      assert (HIa : Forall I [0; L]) by (repeat constructor; assumption).
      assert (Hb : forall a, a ∈ [0; L] -> Qin a [0; L])
        by (intros a Ha; exists a; split; [exact Ha|reflexivity]).
      specialize (Hloop HIa Hb).
      match type of Hloop with ?P -> _ => assert (Hm : P) end.
      { pose proof (List.filter_length_le
          (fun w => negb (covered [0; L] w) &&
                    negb (existsb (Qeq_bool ((fst w + snd w) / 2)) [0; L]))
          (windows L chainages)) as Hf.
        pose proof (length_windows L chainages).
        destruct (forallb _ (windows L chainages)); lia. }
      specialize (Hloop Hm).
      destruct (coverage_loop fuel _ _ d [0; L] offs) as [[a' o']|e|]; cbn.
      * destruct Hloop as (H1 & H2 & H3 & H4 & H5 & H6).
        split; [exact HL|]. split; [exact Hd|].
        exists a'. repeat split; auto; apply H6; [left|right; left].
      * left. destruct Hloop as [-> Hemp]. split; [reflexivity|]. right. auto.
      * exact Hloop.
    + split; [exact HL|]. split; [exact Hd|].
      exists [0; L]. repeat split; auto; [left|right; left|discriminate].
  - destruct e; try contradiction.
    + left. split; [reflexivity|]. left.
      destruct (Qlt_le_dec 0 L) as [HL|HL]; [|exact HL].
      exfalso. apply Hc. repeat constructor. exact HL.
    + discriminate Hc.
    + right. split; [reflexivity|tauto].
  - exact Hc.
Qed.

Lemma mid_half (lo up : Q) : (lo + up) / 2 == (1 # 2) * lo + (1 # 2) * up.
Proof. field. Qed.

Lemma covered_by (x : Q) (l : list Q) (w : Q * Q) :
  x ∈ l -> fst w < x -> x < snd w -> covered l w = true.
Proof. intros Hx H1 H2. apply covered_iff. exists x. auto. Qed.

Lemma spacing_range (anchors offs : list Q) (d lo hi : Q) :
  ~ d == 0 -> StronglySorted Qlt anchors ->
  Spacer._generate_1d_spacing anchors d = OK offs ->
  (forall a, a ∈ anchors -> lo <= a /\ a <= hi) ->
  forall o, o ∈ offs -> lo <= o /\ o <= hi.
Proof.
  intros Hd Hs Ho Hr o Hin.
  assert (Hne : anchors <> []) by (intros ->; discriminate Ho).
  destruct (spacing_spec anchors d Hd Hne Hs)
    as (offs' & Ho' & Hso & (o0 & l0 & a0 & -> & Ha0 & Hoa) & Hlast & _).
  rewrite Ho in Ho'. injection Ho' as ->.
  pose proof (sorted_head_le o0 o l0 Hso Hin) as H1.
  destruct (last anchors) as [z|] eqn:Hz.
  2:{ apply last_None in Hz. contradiction. }
  pose proof (sorted_le_last (o0 :: l0) z Hso Hlast o Hin) as H2.
  assert (Ha0in : a0 ∈ anchors).
  { destruct anchors; [discriminate|]. injection Ha0 as ->. left. }
  assert (Hzin : z ∈ anchors).
  { apply last_Some in Hz as [l' ->]. apply elem_of_app. right. left. }
  destruct (Hr a0 Ha0in), (Hr z Hzin). split; lra.
Qed.

(** X3.  In exact arithmetic the while loop of generate_offsets that adds
    anchor points between structures always ends, after at most one pass per
    window plus one: it either returns or raises ValueError (ZeroDivisionError
    only for a zero mesh distance). When it returns, the branch length is
    positive and the offsets are strictly increasing and contain chainage 0
    and the branch length. *)
Theorem structure_offsets_terminates (fuel : nat) (L d : Q) (chainages : list Q) :
  (length chainages + 1 < fuel)%nat ->
  structure_offsets fuel L chainages d <> OutOfFuel /\
  (forall e, structure_offsets fuel L chainages d = Raise e ->
             e = ValueError \/ e = ZeroDivisionError /\ d == 0) /\
  (forall offs, structure_offsets fuel L chainages d = OK offs ->
                0 < L /\ ~ d == 0 /\ StronglySorted Qlt offs /\
                Qin 0 offs /\ Qin L offs).
Proof.
  intros Hfuel.
  pose proof (structure_offsets_outcome (fun _ => True) fuel L d chainages
                (fun _ _ _ => Logic.I) Logic.I Logic.I) as Hout.
  assert (Hf : (length chainages
     + (if forallb (fun w => Qlt_bool (fst w) (snd w)) (windows L chainages)
        then 0 else 1) < fuel)%nat)
    by (destruct (forallb _ (windows L chainages)); lia).
  specialize (Hout Hf).
  destruct (structure_offsets fuel L chainages d) as [offs|e|].
  - split; [discriminate|]. split; [discriminate|].
    intros offs' [= <-].
    destruct Hout as (HL & Hd & anchors & Hs & H0 & HL' & _ & Hsp & _).
    assert (Hne : anchors <> []) by (intros ->; inversion H0).
    destruct (spacing_spec anchors d Hd Hne Hs) as (offs' & Ho' & Hso & _ & _ & Hin).
    rewrite Hsp in Ho'. injection Ho' as <-.
    split; [exact HL|]. split; [exact Hd|]. split; [exact Hso|].
    split; apply Hin; assumption.
  - split; [discriminate|]. split; [|discriminate].
    intros e' [= <-]. destruct Hout as [[-> _]|[-> Hd]]; auto.
  - contradiction.
Qed.

Lemma structure_offsets_terminates_witness :
  structure_offsets 5 100 [0; 100; 105] 1000 = Raise ValueError.
Proof.
  assert (Hf : (length [0; 100; 105] + 1 < 5)%nat) by (cbn; lia).
  destruct (structure_offsets_terminates 5 100 1000 [0; 100; 105] Hf)
    as (Hfuel & Herr & _).
  destruct (structure_offsets 5 100 [0; 100; 105] 1000) as [offs|e|] eqn:E.
  - vm_compute in E. discriminate E.
  - destruct (Herr e eq_refl) as [->|[_ Hd]]; [reflexivity|].
    vm_compute in Hd. discriminate Hd.
  - contradiction.
Defined.



Lemma limits_windows_nonempty (L : Q) (chainages : list Q) :
  0 < L -> (forall c, c ∈ chainages -> 0 <= c /\ c <= L) ->
  forall w, w ∈ windows L chainages -> fst w < snd w.
Proof.
  intros HL Hc. apply windows_nonempty.
  apply chain_sorted; [lra|apply limits_increasing|].
  intros c Hin. apply limits_subset, Hc in Hin. lra.
Qed.

Lemma structure_offsets_returns (fuel : nat) (L d : Q) (chainages : list Q) :
  0 < L -> ~ d == 0 -> (forall c, c ∈ chainages -> 0 <= c /\ c <= L) ->
  (length chainages < fuel)%nat ->
  exists offs, structure_offsets fuel L chainages d = OK offs.
Proof.
  intros HL Hd Hc Hfuel.
  pose proof (limits_windows_nonempty L chainages HL Hc) as Hw.
  assert (Hall : forallb (fun w => Qlt_bool (fst w) (snd w)) (windows L chainages)
                 = true).
  { apply forallb_forall. intros w Hin. apply Qlt_bool_iff, Hw, list_elem_of_In, Hin. }
  pose proof (structure_offsets_outcome (fun _ => True) fuel L d chainages
                (fun _ _ _ => Logic.I) Logic.I Logic.I) as Ho.
  rewrite Hall in Ho. specialize (Ho ltac:(lia)).
  destruct (structure_offsets fuel L chainages d) as [offs|e|].
  - eauto.
  - exfalso. destruct Ho as [[_ [H|[_ H]]]|[_ H]]; [lra|discriminate H|contradiction].
  - contradiction.
Qed.

(** X5.  When all structures of a branch lie strictly between chainage 0 and
    the branch length, the generated offsets are strictly increasing, all lie
    between 0 and the branch length, and contain both ends. *)
Theorem structure_offsets_within_branch (fuel : nat) (L d : Q)
    (chainages : list Q) :
  0 < L -> ~ d == 0 ->
  (forall c, c ∈ chainages -> 0 < c /\ c < L) ->
  (length chainages < fuel)%nat ->
  exists offs,
    structure_offsets fuel L chainages d = OK offs /\
    StronglySorted Qlt offs /\
    (forall o, o ∈ offs -> 0 <= o /\ o <= L) /\
    Qin 0 offs /\ Qin L offs.
Proof.
  intros HL Hd Hc Hfuel.
  assert (Hc' : forall c, c ∈ chainages -> 0 <= c /\ c <= L)
    by (intros c Hin; destruct (Hc c Hin); split; lra).
  destruct (structure_offsets_returns fuel L d chainages HL Hd Hc' Hfuel)
    as [offs Hoffs].
  pose proof (limits_windows_nonempty L chainages HL Hc') as Hw.
  assert (Hall : forallb (fun w => Qlt_bool (fst w) (snd w)) (windows L chainages)
                 = true).
  { apply forallb_forall. intros w Hin. apply Qlt_bool_iff, Hw, list_elem_of_In, Hin. }
  pose proof (structure_offsets_outcome (fun x => 0 <= x /\ x <= L)
                fuel L d chainages) as Ho.
  rewrite Hall, Hoffs in Ho.
  destruct Ho as (_ & _ & anchors & Hs & H0 & HL' & HI & Hsp & _).
  - intros w Hin Hun.
    destruct (windows_ends _ _ _ _ Hin) as [[Hlo|Hlo] [Hup|Hup]].
    + apply limits_subset, Hc in Hup.
      rewrite (covered_by 0 [0; L] w) in Hun; [discriminate|left|rewrite Hlo|]; lra.
    + rewrite (covered_by 0 [0; L] w) in Hun;
        [discriminate|left|rewrite Hlo|rewrite Hup]; lra.
    + apply limits_subset, Hc in Hlo. apply limits_subset, Hc in Hup.
      rewrite mid_half. lra.
    + apply limits_subset, Hc in Hlo.
      rewrite (covered_by L [0; L] w) in Hun;
        [discriminate|right; left| |rewrite Hup]; lra.
  - lra.
  - lra.
  - lia.
  - assert (Hne : anchors <> []) by (intros ->; inversion H0).
    destruct (spacing_spec anchors d Hd Hne Hs) as (offs' & Ho' & Hso & _ & _ & Hin).
    rewrite Hsp in Ho'. injection Ho' as <-.
    exists offs. split; [exact Hoffs|]. split; [exact Hso|].
    split; [|split; apply Hin; assumption].
    apply (spacing_range anchors offs d 0 L Hd Hs Hsp).
    rewrite Forall_forall in HI. exact HI.
Qed.

Lemma structure_offsets_within_branch_witness :
  exists offs,
    structure_offsets 3 100 [10; 20] 40 = OK offs /\
    StronglySorted Qlt offs /\
    (forall o, o ∈ offs -> 0 <= o /\ o <= 100) /\
    Qin 0 offs /\ Qin 100 offs.
Proof.
  assert (HL : 0 < 100) by reflexivity.
  assert (Hd : ~ 40 == 0) by (intros H; vm_compute in H; discriminate H).
  assert (Hc : forall c, c ∈ [10; 20] -> 0 < c /\ c < 100).
  { intros c Hin. apply elem_of_cons in Hin as [->|Hin]; [split; reflexivity|].
    apply list_elem_of_singleton in Hin as ->. split; reflexivity. }
  assert (Hf : (length [10; 20] < 3)%nat) by (cbn; lia).
  exact (structure_offsets_within_branch 3 100 40 [10; 20] HL Hd Hc Hf).
Defined.



(** * What the removals take out *)

Lemma index_Z_lookup (item : Z) (l : list Z) (loc : nat) :
  index_Z item l = OK loc -> l !! loc = Some item.
Proof.
  revert loc. induction l as [|x l IH]; intros loc Hidx; [discriminate|].
  cbn in Hidx. destruct (Z.eqb x item) eqn:E.
  - injection Hidx as <-. apply Z.eqb_eq in E as ->. reflexivity.
  - destruct (index_Z item l) as [i| |]; try discriminate.
    cbn in Hidx. injection Hidx as <-. cbn. apply IH. reflexivity.
Qed.

Lemma pop_while_step_at (fuel : nat) (linkdim : Links1d2d -> list Z)
    (rest : result unit) (item : Z) (s : Links1d2d) :
  is_linkdim linkdim -> aligned s -> item ∈ linkdim s ->
  exists loc,
    (loc < length (nodes1d s))%nat /\ linkdim s !! loc = Some item /\
    let s2 := mkLinks (delete loc (nodes1d s)) (delete loc (faces2d s)) in
    pop_while (S fuel) linkdim rest item s =
    match rest with
    | OK _ => pop_while fuel linkdim rest item s2
    | Raise e => (Raise e, s2)
    | OutOfFuel => (OutOfFuel, s2)
    end.
Proof.
  intros Hdim Hal Hin.
  destruct (index_Z_spec item _ Hin) as (loc & Hidx & Hlt).
  rewrite (linkdim_length _ _ Hdim Hal) in Hlt.
  exists loc. split; [exact Hlt|]. split; [exact (index_Z_lookup _ _ _ Hidx)|].
  cbn [pop_while].
  rewrite (proj2 (existsb_eqb_iff item (linkdim s)) Hin), Hidx.
  rewrite (pop_OK _ _ Hlt). cbn [faces2d].
  rewrite pop_OK by (rewrite <- Hal; exact Hlt). reflexivity.
Qed.

Lemma filter_delete {A} (f : A -> bool) (l : list A) (i : nat) (x : A) :
  l !! i = Some x -> f x = false -> List.filter f (delete i l) = List.filter f l.
Proof.
  revert i. induction l as [|y l IH]; intros [|i] Hl Hf; try discriminate.
  - cbn in Hl. injection Hl as ->. cbn. rewrite Hf. reflexivity.
  - cbn in Hl. change (delete (S i) (y :: l)) with (y :: delete i l).
    cbn [List.filter]. rewrite (IH i Hl Hf). reflexivity.
Qed.

Lemma filter_all {A} (f : A -> bool) (l : list A) :
  (forall x, x ∈ l -> f x = true) -> List.filter f l = l.
Proof.
  induction l as [|y l IH]; intros Hf; [reflexivity|]. cbn.
  rewrite (Hf y) by left. f_equal. apply IH. intros x Hx. apply Hf. right. exact Hx.
Qed.

Lemma filter_filter {A} (f g : A -> bool) (l : list A) :
  List.filter f (List.filter g l) = List.filter (fun x => g x && f x) l.
Proof.
  induction l as [|y l IH]; [reflexivity|]. cbn.
  destruct (g y); cbn; [destruct (f y)|]; rewrite IH; reflexivity.
Qed.

Lemma nodes1d_pairs (t : Links1d2d) : aligned t -> nodes1d t = map fst (pairs t).
Proof. intros Hal. symmetry. apply map_fst_combine_eq. exact Hal. Qed.

Lemma faces2d_pairs (t : Links1d2d) : aligned t -> faces2d t = map snd (pairs t).
Proof. intros Hal. symmetry. apply map_snd_combine_eq. exact Hal. Qed.

Section Effect.
Variable linkdim : Links1d2d -> list Z.
Variable proj : Z * Z -> Z.
Hypothesis Hdim : is_linkdim linkdim.
Hypothesis Hproj : forall t, aligned t -> linkdim t = map proj (pairs t).

Lemma pop_while_effect (fuel : nat) (rest : result unit) (item : Z)
    (s s' : Links1d2d) :
  aligned s -> pop_while fuel linkdim rest item s = (OK tt, s') ->
  aligned s' /\
  pairs s' = List.filter (fun p => negb (Z.eqb (proj p) item)) (pairs s).
Proof.
  revert s. induction fuel as [|fuel IH]; intros s Hal Hrun.
  all: destruct (decide (item ∈ linkdim s)) as [Hin|Hnot].
  - cbn in Hrun. rewrite (proj2 (existsb_eqb_iff item (linkdim s)) Hin) in Hrun.
    discriminate Hrun.
  - rewrite pop_while_absent in Hrun by exact Hnot. injection Hrun as <-.
    split; [exact Hal|]. symmetry. apply filter_all. intros p Hp.
    apply negb_true_iff, Z.eqb_neq. intros Heq. apply Hnot.
    rewrite (Hproj s Hal). rewrite <- Heq. apply list_elem_of_fmap_2. exact Hp.
  - destruct (pop_while_step_at fuel linkdim rest item s Hdim Hal Hin)
      as (loc & Hlt & Hloc & Hstep).
    rewrite Hstep in Hrun. destruct (pop_both s loc Hal Hlt) as (Hal2 & Hp2 & _).
    destruct rest as [[]|e|]; [|discriminate|discriminate].
    destruct (IH _ Hal2 Hrun) as [Hal' Hp']. split; [exact Hal'|].
    rewrite Hp', Hp2.
    rewrite (Hproj s Hal) in Hloc. rewrite list_lookup_fmap in Hloc.
    destruct (pairs s !! loc) as [p|] eqn:Hp; [|discriminate].
    cbn in Hloc. injection Hloc as Hloc.
    apply (filter_delete _ _ _ p Hp). rewrite Hloc, Z.eqb_refl. reflexivity.
  - rewrite pop_while_absent in Hrun by exact Hnot. injection Hrun as <-.
    split; [exact Hal|]. symmetry. apply filter_all. intros p Hp.
    apply negb_true_iff, Z.eqb_neq. intros Heq. apply Hnot.
    rewrite (Hproj s Hal). rewrite <- Heq. apply list_elem_of_fmap_2. exact Hp.
Qed.

Lemma for_store_effect (rest_of : Z -> result unit) (items : list Z)
    (s s' : Links1d2d) :
  aligned s -> for_store items (pop_each linkdim rest_of) s = (OK tt, s') ->
  aligned s' /\
  pairs s' = List.filter (fun p => negb (existsb (Z.eqb (proj p)) items)) (pairs s).
Proof.
  revert s. induction items as [|x items IH]; intros s Hal Hrun.
  - cbn in Hrun. injection Hrun as <-. split; [exact Hal|].
    symmetry. apply filter_all. reflexivity.
  - cbn [for_store] in Hrun.
    destruct (pop_each linkdim rest_of x s) as [[[]|e|] s1] eqn:E;
      [|discriminate|discriminate].
    unfold pop_each in E.
    destruct (pop_while_effect _ _ _ _ _ Hal E) as [Hal1 Hp1].
    destruct (IH s1 Hal1 Hrun) as [Hal' Hp']. split; [exact Hal'|].
    rewrite Hp', Hp1, filter_filter. apply filter_ext. intros p. cbn.
    rewrite negb_orb. reflexivity.
Qed.

End Effect.

Lemma elem_of_ravel (e : list (Z * Z)) (i : Z) :
  i ∈ ravel e <-> exists ab, ab ∈ e /\ (fst ab = i \/ snd ab = i).
Proof.
  unfold ravel. rewrite list_elem_of_In, in_flat_map. split.
  - intros (ab & Hab & Hi). exists ab. split; [apply list_elem_of_In; exact Hab|].
    cbn in Hi. destruct Hi as [Hi|[Hi|[]]]; auto.
  - intros (ab & Hab & Hi). exists ab. split; [apply list_elem_of_In; exact Hab|].
    cbn. tauto.
Qed.

Lemma to_remove_on_edge (e : list (Z * Z)) (node_id i : Z) :
  existsb (Z.eqb i)
    (sort_by Z.ltb (remove_dups (ravel
       (List.filter (fun ab => Z.eqb (fst ab) node_id || Z.eqb (snd ab) node_id) e))))
  = on_edge_with e node_id i.
Proof.
  apply eq_true_iff_eq. rewrite existsb_eqb_iff, elem_of_sort_by, elem_of_remove_dups.
  rewrite elem_of_ravel. unfold on_edge_with. rewrite existsb_exists. split.
  - intros (ab & Hab & Hi). apply list_elem_of_In, filter_In in Hab as [Hab Hc].
    exists ab. split; [exact Hab|]. rewrite Hc. cbn.
    apply orb_true_iff. destruct Hi as [Hi|Hi]; [left|right]; apply Z.eqb_eq; exact Hi.
  - intros (ab & Hab & Hc). apply andb_true_iff in Hc as [Hc Hi].
    exists ab. split; [apply list_elem_of_In, filter_In; auto|].
    apply orb_true_iff in Hi. destruct Hi as [Hi|Hi]; [left|right]; apply Z.eqb_eq; exact Hi.
Qed.

Section WithMesh.
Context {polygon branch_table : Type}.
Variable find_nearest_branch :
  branch_table -> list (Z * xy * polygon) -> bool -> bound -> list (option Q).
Implicit Types (m : @mesh polygon branch_table) (s : Links1d2d).

(** X7.  When check_boundary_link returns normally, the link table afterwards
    is the table before without exactly those links whose 1D node is an end of
    a mesh edge that has the node nearest to the boundary as an end; all other
    links are kept, in order. *)
Theorem check_boundary_link_effect m (c : xy) s :
  aligned s -> fst (check_boundary_link m c s) = OK tt ->
  let node_id := (Z.of_nat (snd (kd_query (mesh1d_nodes m) c)) + 1)%Z in
  aligned (snd (check_boundary_link m c s)) /\
  pairs (snd (check_boundary_link m c s)) =
    List.filter (fun link => negb (on_edge_with (edge_nodes m) node_id (fst link)))
                (pairs s).
Proof.
  intros Hal Hok node_id.
  split; [apply check_boundary_link_sublist; exact Hal|].
  revert Hok. unfold check_boundary_link.
  destruct (nodes1d s) as [|n ns] eqn:En.
  { intros _. cbn. unfold pairs. rewrite En. reflexivity. }
  destruct (faces2d s) as [|f fs] eqn:Ef.
  { intros _. cbn. unfold pairs. rewrite Ef, combine_nil. reflexivity. }
  fold node_id.
  destruct (negb (existsb (Z.eqb node_id) (ravel (edge_nodes m)))); [discriminate|].
  intros Hok.
  destruct (for_store _ (pop_each nodes1d (node_of_item m)) s) as [r s'] eqn:E.
  cbn in Hok. subst r. cbn [snd].
  destruct (for_store_effect nodes1d fst ltac:(left; reflexivity) nodes1d_pairs
              _ _ _ _ Hal E) as [_ Hp].
  rewrite Hp. apply filter_ext. intros p. rewrite to_remove_on_edge. reflexivity.
Qed.

Lemma remove_1d2d_link_cases m (x y : Q) (is1d : bool) (md : bound) s :
  let kind := if is1d then "1d" else "2d" in
  let pts := if is1d then mesh1d_nodes m else face_centers m in
  let proj : Z * Z -> Z := if is1d then fst else snd in
  aligned s ->
  match argmin pts (x, y) with
  | None => remove_1d2d_link m x y kind md s = (Raise ValueError, s)
  | Some (dmin, imin) =>
      fst (remove_1d2d_link m x y kind md s) = OK tt /\
      aligned (snd (remove_1d2d_link m x y kind md s)) /\
      pairs (snd (remove_1d2d_link m x y kind md s)) =
        if dist_gt dmin md then pairs s
        else List.filter (fun link => negb (Z.eqb (proj link) (Z.of_nat imin + 1)))
                         (pairs s)
  end.
Proof.
  intros kind pts proj Hal.
  assert (Hkind : remove_1d2d_link m x y kind md s =
    match argmin pts (x, y) with
    | None => (Raise ValueError, s)
    | Some (dmin, imin) =>
        if dist_gt dmin md then (OK tt, s)
        else
          let linkdim := if is1d then nodes1d else faces2d in
          for_store (List.filter (fun link => Z.eqb link (Z.of_nat imin + 1)) (linkdim s))
                    (pop_each linkdim (fun _ => OK tt)) s
    end).
  { unfold remove_1d2d_link, kind, pts. destruct is1d; reflexivity. }
  rewrite Hkind. destruct (argmin pts (x, y)) as [[dmin imin]|]; [|reflexivity].
  destruct (dist_gt dmin md); [auto|].
  set (linkdim := if is1d then nodes1d else faces2d).
  assert (Hdim : is_linkdim linkdim) by (unfold linkdim; destruct is1d; [left|right]; reflexivity).
  assert (Hproj : forall t, aligned t -> linkdim t = map proj (pairs t)).
  { unfold linkdim, proj. destruct is1d; [apply nodes1d_pairs|apply faces2d_pairs]. }
  cbn zeta.
  pose proof (for_store_total linkdim (fun _ => OK tt) Hdim
    (List.filter (fun link => Z.eqb link (Z.of_nat imin + 1)) (linkdim s)) s Hal
    ltac:(reflexivity)) as Htot.
  destruct (for_store _ (pop_each linkdim (fun _ => OK tt)) s) as [r s'] eqn:E.
  cbn in Htot. subst r. cbn [fst snd].
  destruct (for_store_effect linkdim proj Hdim Hproj _ _ _ _ Hal E) as [Hal' Hp].
  split; [reflexivity|]. split; [exact Hal'|].
  rewrite Hp. apply filter_ext_in. intros p Hp'. f_equal.
  destruct (Z.eqb (proj p) (Z.of_nat imin + 1)) eqn:Eq.
  - apply existsb_exists. exists (proj p). split; [|apply Z.eqb_refl].
    apply filter_In. split; [|exact Eq].
    rewrite (Hproj s Hal). apply in_map. exact Hp'.
  - apply existsb_none. intros z Hz. apply list_elem_of_In, filter_In in Hz as [_ Hz].
    apply Z.eqb_eq in Hz. subst z. exact Eq.
Qed.

(** X8.  remove_1d2d_link raises ValueError for a mesh other than '1d' or '2d'
    and for a mesh without points, leaving the table as it is. Otherwise it
    returns normally: the table is unchanged when the nearest point is farther
    than max_distance, and else loses exactly the links of the nearest node
    (or face), all others are kept. *)
Theorem remove_1d2d_link_effect m (x y : Q) (md : bound) s :
  aligned s ->
  (forall kind : string, kind <> "1d" -> kind <> "2d" ->
     remove_1d2d_link m x y kind md s = (Raise ValueError, s)) /\
  (forall is1d : bool,
     let kind := if is1d then "1d" else "2d" in
     let pts := if is1d then mesh1d_nodes m else face_centers m in
     let proj : Z * Z -> Z := if is1d then fst else snd in
     match argmin pts (x, y) with
     | None => remove_1d2d_link m x y kind md s = (Raise ValueError, s)
     | Some (dmin, imin) =>
         fst (remove_1d2d_link m x y kind md s) = OK tt /\
         aligned (snd (remove_1d2d_link m x y kind md s)) /\
         pairs (snd (remove_1d2d_link m x y kind md s)) =
           if dist_gt dmin md then pairs s
           else List.filter
                  (fun link => negb (Z.eqb (proj link) (Z.of_nat imin + 1)))
                  (pairs s)
     end).
Proof.
  intros Hal. split.
  - intros kind H1 H2. unfold remove_1d2d_link.
    apply String.eqb_neq in H1, H2. rewrite H1, H2. reflexivity.
  - intros is1d. exact (remove_1d2d_link_cases m x y is1d md s Hal).
Qed.

End WithMesh.

(** * The generated links *)

(* ---- lemmas on the nearest-point query ---- *)

Lemma argmin_from_spec (pts : list xy) (p : xy) (i : nat) (best : Q * nat) :
  let r := argmin_from pts p i best in
  fst r <= fst best /\
  (forall q, q ∈ pts -> fst r <= dist2 q p) /\
  (r = best \/
   exists q, pts !! (snd r - i)%nat = Some q /\ fst r = dist2 q p /\ (i <= snd r)%nat).
Proof.
  revert i best. induction pts as [|q pts IH]; intros i best; cbn zeta.
  - cbn. split; [lra|]. split; [|left; reflexivity]. intros q Hq. inversion Hq.
  - cbn [argmin_from].
    set (best' := if Qlt_bool (dist2 q p) (fst best) then (dist2 q p, i) else best).
    destruct (IH (S i) best') as (H1 & H2 & H3).
    assert (Hb : fst best' <= fst best /\ fst best' <= dist2 q p).
    { unfold best'. destruct (Qlt_bool (dist2 q p) (fst best)) eqn:E; cbn.
      - apply Qlt_bool_iff in E. split; lra.
      - apply Qlt_bool_false in E. split; lra. }
    destruct Hb as [Hb1 Hb2].
    split; [lra|]. split.
    + intros q' Hq'. apply elem_of_cons in Hq' as [->|Hq']; [lra|auto].
    + destruct H3 as [H3|(q' & Hq' & Hd & Hle)].
      * rewrite H3. unfold best'.
        destruct (Qlt_bool (dist2 q p) (fst best)); [|left; reflexivity].
        right. exists q. cbn. rewrite Nat.sub_diag. auto.
      * right. exists q'. split; [|split; [exact Hd|lia]].
        replace (snd (argmin_from pts p (S i) best') - i)%nat
          with (S (snd (argmin_from pts p (S i) best') - S i)) by lia.
        exact Hq'.
Qed.

Lemma argmin_spec (pts : list xy) (p : xy) (d : Q) (j : nat) :
  argmin pts p = Some (d, j) ->
  exists q, pts !! j = Some q /\ d = dist2 q p /\
            forall q', q' ∈ pts -> d <= dist2 q' p.
Proof.
  destruct pts as [|q0 pts]; [discriminate|]. cbn [argmin]. intros [= Hr].
  destruct (argmin_from_spec pts p 1 (dist2 q0 p, O)) as (H1 & H2 & H3).
  rewrite Hr in H1, H2, H3. cbn in H1, H2, H3.
  destruct H3 as [[= -> ->]|(q & Hq & Hd & Hle)].
  - exists q0. split; [reflexivity|]. split; [reflexivity|].
    intros q' Hq'. apply elem_of_cons in Hq' as [->|Hq']; [lra|auto].
  - exists q. split; [|split; [exact Hd|]].
    + destruct j as [|j]; [lia|].
      replace (S j - 1)%nat with j in Hq by lia. exact Hq.
    + intros q' Hq'. apply elem_of_cons in Hq' as [->|Hq']; [lra|auto].
Qed.

Lemma kd_query_Some (pts : list xy) (p : xy) (d : Q) (j : nat) :
  kd_query pts p = (Some d, j) ->
  exists q, pts !! j = Some q /\ d = dist2 q p /\
            forall q', q' ∈ pts -> d <= dist2 q' p.
Proof.
  unfold kd_query. destruct (argmin pts p) as [[d' j']|] eqn:E; [|discriminate].
  intros [= <- <-]. exact (argmin_spec _ _ _ _ E).
Qed.



Lemma dist_lt_Some (od : option Q) (md : bound) :
  dist_lt od md = true -> exists d, od = Some d.
Proof. destruct od; [eauto|discriminate]. Qed.

Lemma lookup_combine_eq {A B} (l1 : list A) (l2 : list B) (i : nat) :
  combine l1 l2 !! i = (a ← l1 !! i; b ← l2 !! i; Some (a, b)).
Proof.
  revert l2 i. induction l1 as [|x l1 IH]; intros [|y l2] [|i]; cbn; try reflexivity.
  - destruct (l1 !! i); reflexivity.
  - apply IH.
Qed.

Lemma elem_of_combine_seq {A} (l : list A) (k : nat) (x : A) :
  (k, x) ∈ combine (seq 0 (length l)) l <-> l !! k = Some x.
Proof.
  rewrite list_elem_of_lookup. split.
  - intros (i & Hi). apply lookup_combine in Hi as [H1 H2].
    apply lookup_seq in H1 as [-> _]. exact H2.
  - intros Hk. exists k. rewrite lookup_combine_eq, Hk.
    rewrite lookup_seq_lt by (eapply lookup_lt_Some; eauto). reflexivity.
Qed.


Section WithMesh.
Context {polygon branch_table : Type}.
Variable find_nearest_branch :
  branch_table -> list (Z * xy * polygon) -> bool -> bound -> list (option Q).
Implicit Types (m : @mesh polygon branch_table) (s : Links1d2d).

Lemma elem_of_links_1d_to_2d m (md : bound) (i j : Z) :
  (i, j) ∈ links_1d_to_2d m md <->
  exists (k jj : nat) (p : xy) (od : option Q),
    i = (Z.of_nat k + 1)%Z /\ j = (Z.of_nat jj + 1)%Z /\
    mesh1d_nodes m !! k = Some p /\
    kd_query (face_centers m) p = (od, jj) /\ dist_lt od md = true.
Proof.
  unfold links_1d_to_2d. rewrite list_elem_of_fmap. split.
  - intros ([k [od jj]] & Heq & Hin). cbn in Heq. injection Heq as -> ->.
    apply list_elem_of_In, filter_In in Hin as [Hin Hd]. cbn in Hd.
    apply list_elem_of_In in Hin.
    rewrite <- (length_map (kd_query (face_centers m))) in Hin.
    apply elem_of_combine_seq in Hin. rewrite list_lookup_fmap in Hin.
    destruct (mesh1d_nodes m !! k) as [p|] eqn:Hp; [|discriminate].
    cbn in Hin. injection Hin as Hq.
    exists k, jj, p, od. auto.
  - intros (k & jj & p & od & -> & -> & Hp & Hq & Hd).
    exists (k, (od, jj)). split; [reflexivity|].
    apply list_elem_of_In, filter_In. split; [|exact Hd].
    apply list_elem_of_In.
    rewrite <- (length_map (kd_query (face_centers m))).
    apply elem_of_combine_seq. rewrite list_lookup_fmap, Hp. cbn. rewrite Hq. reflexivity.
Qed.


Lemma links_1d_to_2d_sound m (md : bound) (link : Z * Z) :
  link ∈ links_1d_to_2d m md -> nearest_face m md link.
Proof.
  destruct link as [i j]. intros Hin.
  apply elem_of_links_1d_to_2d in Hin as (k & jj & p & od & -> & -> & Hp & Hq & Hd).
  destruct (dist_lt_Some _ _ Hd) as [d ->].
  destruct (kd_query_Some _ _ _ _ Hq) as (c & Hc & -> & Hmin).
  exists p, c. cbn [fst snd].
  replace (Z.to_nat (Z.of_nat k + 1 - 1)) with k by lia.
  replace (Z.to_nat (Z.of_nat jj + 1 - 1)) with jj by lia.
  repeat split; auto; lia.
Qed.


Lemma elem_of_candidate_cells m (md : bound) (b : bool) (c : Z * xy * polygon) :
  c ∈ candidate_cells find_nearest_branch m md b ->
  exists i : nat, fst (fst c) = (Z.of_nat i + 1)%Z /\
                  faces m !! i = Some (snd (fst c), snd c).
Proof.
  unfold candidate_cells. intros Hin.
  apply list_elem_of_fmap in Hin as ([c' bo] & -> & Hin).
  apply list_elem_of_In, filter_In in Hin as [Hin _].
  apply in_combine_l, list_elem_of_In in Hin. cbn [fst].
  apply list_elem_of_omap in Hin as (i & _ & Hi).
  destruct (faces m !! i) as [f|] eqn:Hf; [|discriminate]. cbn in Hi. injection Hi as <-.
  exists i. cbn. split; [reflexivity|]. destruct f; exact Hf.
Qed.

Lemma links_2d_to_1d_sound m (md : bound) (b : bool) (link : Z * Z) :
  link ∈ links_2d_to_1d find_nearest_branch m md b -> nearest_node m md link.
Proof.
  destruct link as [i j]. intros Hin. unfold links_2d_to_1d in Hin.
  apply list_elem_of_fmap in Hin as ([c [od jj]] & Heq & Hin).
  cbn in Heq. injection Heq as -> ->.
  apply list_elem_of_In, filter_In in Hin as [Hin Hd]. cbn in Hd.
  apply list_elem_of_In, list_elem_of_fmap in Hin as (c' & Heq & Hc).
  injection Heq as <- Hq. symmetry in Hq.
  destruct (elem_of_candidate_cells m md b c Hc) as (k & Hk & Hf).
  destruct (dist_lt_Some _ _ Hd) as [d ->].
  destruct (kd_query_Some _ _ _ _ Hq) as (p & Hp & -> & Hmin).
  exists p, (snd (fst c)). cbn [fst snd]. rewrite Hk.
  replace (Z.to_nat (Z.of_nat k + 1 - 1)) with k by lia.
  replace (Z.to_nat (Z.of_nat jj + 1 - 1)) with jj by lia.
  unfold face_centers. rewrite list_lookup_fmap, Hf.
  repeat split; auto; lia.
Qed.

(** X10.  Every link made by generate_2d_to_1d joins an existing face to an
    existing 1D node that is nearest to the face centre and nearer than
    max_distance, and a face gets at most one link; this also holds for the
    table left after the boundary checks (intersecting mode). *)
Theorem links_2d_to_1d_nearest m (md : bound) (b : bool) :
  (forall link, link ∈ links_2d_to_1d find_nearest_branch m md b ->
                nearest_node m md link) /\
  NoDup (map snd (links_2d_to_1d find_nearest_branch m md b)) /\
  (forall link,
      link ∈ pairs (snd (generate_2d_to_1d find_nearest_branch m md true no_links)) ->
      nearest_node m md link) /\
  NoDup (faces2d (snd (generate_2d_to_1d find_nearest_branch m md true no_links))).
Proof.
  pose proof (fun b => links_2d_to_1d_sound m md b) as H1.
  assert (H2 : forall b, NoDup (map snd (links_2d_to_1d find_nearest_branch m md b))).
  { clear b. intros b. unfold links_2d_to_1d.
    rewrite <- list_fmap_compose.
    apply NoDup_map_filter. rewrite <- list_fmap_compose.
    exact (candidate_cells_NoDup find_nearest_branch m md b). }
  split; [apply H1|]. split; [apply H2|].
  unfold generate_2d_to_1d.
  destruct (extend_no_links (links_2d_to_1d find_nearest_branch m md true)) as [Hal Hp].
  destruct (check_boundaries_sublist m _ Hal) as [Hal' Hsub].
  rewrite Hp in Hsub. split.
  - intros link Hin. apply (H1 true). eapply elem_of_sublist; eauto.
  - rewrite (faces2d_pairs _ Hal').
    eapply sublist_NoDup; [apply (H2 true)|]. apply fmap_sublist. exact Hsub.
Qed.

End WithMesh.

Lemma combine_app_eq {A B} (from from' : list A) (to to' : list B) :
  length from = length to ->
  combine (from ++ from') (to ++ to') = combine from to ++ combine from' to'.
Proof.
  intros Hlen. revert to Hlen.
  induction from as [|x from IH]; intros [|y to] Hlen; try discriminate.
  - reflexivity.
  - cbn. rewrite IH by (cbn in Hlen; lia). reflexivity.
Qed.

Lemma pairs_extend (s : Links1d2d) (new : list (Z * Z)) :
  aligned s -> aligned (extend s new) /\ pairs (extend s new) = pairs s ++ new.
Proof.
  intros Hal. unfold aligned, pairs, extend in *. cbn.
  rewrite !length_app, !length_map. split; [lia|].
  rewrite combine_app_eq by exact Hal. rewrite map_fst_pairs. reflexivity.
Qed.

Lemma for_each_collect_OK {A} (g : Z -> result A) (l : list Z) (r acc : list A) :
  Forall2 (fun i x => g i = OK x) l r ->
  for_each l (fun i acc => p ← g i; OK (acc ++ [p])) acc = OK (acc ++ r).
Proof.
  intros HF. revert acc. induction HF as [|i x l r Hi HF IH]; intros acc; cbn.
  - rewrite app_nil_r. reflexivity.
  - rewrite Hi. cbn. rewrite IH, <- app_assoc. reflexivity.
Qed.

Lemma np_getitem_lookup {A} (a : list A) (i : Z) (x : A) :
  (1 <= i)%Z -> a !! Z.to_nat (i - 1) = Some x -> np_getitem a (i - 1) = OK x.
Proof.
  intros Hi Hx. unfold np_getitem.
  assert ((0 <=? i - 1)%Z = true) as -> by (apply Z.leb_le; lia).
  unfold getitem. rewrite Hx. reflexivity.
Qed.

Lemma getitem_all {A} (a : list A) (l : list Z) :
  Forall (fun i => (1 <= i <= Z.of_nat (length a))%Z) l ->
  exists r, Forall2 (fun i x => np_getitem a (i - 1) = OK x /\
                                a !! Z.to_nat (i - 1) = Some x) l r.
Proof.
  induction 1 as [|i l Hi _ [r IH]]; [exists []; constructor|].
  destruct (lookup_lt_is_Some_2 a (Z.to_nat (i - 1)) ltac:(lia)) as [x Hx].
  exists (x :: r). constructor; [|exact IH].
  split; [apply np_getitem_lookup; [lia|exact Hx]|exact Hx].
Qed.

Lemma Forall2_combine {A B C D} (P : A -> C -> Prop) (Q : B -> D -> Prop)
    (l1 : list A) (l2 : list B) (r1 : list C) (r2 : list D) :
  Forall2 P l1 r1 -> Forall2 Q l2 r2 ->
  Forall2 (fun ab cd => P (fst ab) (fst cd) /\ Q (snd ab) (snd cd))
          (combine l1 l2) (combine r1 r2).
Proof.
  intros H1. revert l2 r2. induction H1 as [|a c l1 r1 Hac H1 IH];
    intros l2 r2 H2; [constructor|].
  destruct H2 as [|b d l2 r2 Hbd H2]; [constructor|].
  cbn. constructor; [split; assumption|apply IH; exact H2].
Qed.

Section WithMesh.
Context {polygon branch_table : Type}.
Variable find_nearest_branch :
  branch_table -> list (Z * xy * polygon) -> bool -> bound -> list (option Q).
Implicit Types (m : @mesh polygon branch_table) (s : Links1d2d).

Lemma lookup_valid m (i j : Z) (p c : xy) :
  (1 <= i)%Z -> (1 <= j)%Z ->
  mesh1d_nodes m !! Z.to_nat (i - 1) = Some p ->
  face_centers m !! Z.to_nat (j - 1) = Some c ->
  (1 <= i <= Z.of_nat (length (mesh1d_nodes m)))%Z /\
  (1 <= j <= Z.of_nat (length (faces m)))%Z.
Proof.
  intros Hi Hj Hp Hc. apply lookup_lt_Some in Hp, Hc.
  unfold face_centers in Hc. rewrite length_map in Hc. lia.
Qed.

Lemma ids_valid_sublist m s s' :
  pairs s' `sublist_of` pairs s -> ids_valid m s -> ids_valid m s'.
Proof.
  intros Hsub Hv i j Hin. apply Hv. eapply elem_of_sublist; eauto.
Qed.

Lemma ids_valid_extend m s (new : list (Z * Z)) :
  aligned s -> ids_valid m s ->
  (forall link, link ∈ new ->
     (1 <= fst link <= Z.of_nat (length (mesh1d_nodes m)))%Z /\
     (1 <= snd link <= Z.of_nat (length (faces m)))%Z) ->
  aligned (extend s new) /\ ids_valid m (extend s new).
Proof.
  intros Hal Hv Hnew. destruct (pairs_extend s new Hal) as [Hal' Hp].
  split; [exact Hal'|]. intros i j Hin. rewrite Hp in Hin.
  apply elem_of_app in Hin as [Hin|Hin]; [apply Hv; exact Hin|].
  exact (Hnew (i, j) Hin).
Qed.

(** X11.  If both link lists have the same length and every stored id names an
    existing 1D node and an existing 2D face, this still holds after
    generate_1d_to_2d, generate_2d_to_1d (intersecting), check_boundary_link
    and remove_1d2d_link, whatever their outcome. *)
Theorem links_stay_valid m s :
  aligned s -> ids_valid m s ->
  (forall md,
      aligned (snd (generate_1d_to_2d m md s)) /\
      ids_valid m (snd (generate_1d_to_2d m md s))) /\
  (forall md,
      aligned (snd (generate_2d_to_1d find_nearest_branch m md true s)) /\
      ids_valid m (snd (generate_2d_to_1d find_nearest_branch m md true s))) /\
  (forall c,
      aligned (snd (check_boundary_link m c s)) /\
      ids_valid m (snd (check_boundary_link m c s))) /\
  (forall x y kind md,
      aligned (snd (remove_1d2d_link m x y kind md s)) /\
      ids_valid m (snd (remove_1d2d_link m x y kind md s))).
Proof.
  intros Hal Hv. split; [|split; [|split]].
  - intros md. unfold generate_1d_to_2d.
    destruct (ids_valid_extend m s (links_1d_to_2d m md) Hal Hv) as [Hal1 Hv1].
    { intros link Hin.
      apply links_1d_to_2d_sound in Hin as (p & c & Hi & Hj & Hp & Hc & _).
      exact (lookup_valid m _ _ p c Hi Hj Hp Hc). }
    destruct (check_boundaries_sublist m _ Hal1) as [Hal2 Hsub].
    split; [exact Hal2|]. exact (ids_valid_sublist m _ _ Hsub Hv1).
  - intros md. unfold generate_2d_to_1d.
    destruct (ids_valid_extend m s (links_2d_to_1d find_nearest_branch m md true)
                Hal Hv) as [Hal1 Hv1].
    { intros link Hin.
      apply links_2d_to_1d_sound in Hin as (p & c & Hi & Hj & Hp & Hc & _).
      exact (lookup_valid m _ _ p c Hi Hj Hp Hc). }
    destruct (check_boundaries_sublist m _ Hal1) as [Hal2 Hsub].
    split; [exact Hal2|]. exact (ids_valid_sublist m _ _ Hsub Hv1).
  - intros c. destruct (check_boundary_link_sublist m c s Hal) as [Hal' Hsub].
    split; [exact Hal'|]. exact (ids_valid_sublist m _ _ Hsub Hv).
  - intros x y kind md.
    destruct (remove_1d2d_link_sublist m x y kind md s Hal) as [Hal' Hsub].
    split; [exact Hal'|]. exact (ids_valid_sublist m _ _ Hsub Hv).
Qed.

(** With valid ids a non-empty table gives one line per link, from the
    coordinates of its node to the centre of its face. *)
Lemma get_1d2dlinks_lines m (as_gdf : bool) s :
  aligned s -> ids_valid m s -> nodes1d s <> [] ->
  exists lines,
    get_1d2dlinks m as_gdf s =
      OK (Some (if as_gdf then LinkFrame (combine (pairs s) lines)
                else LinkArray lines)) /\
    Forall2 (fun link line =>
               mesh1d_nodes m !! Z.to_nat (fst link - 1) = Some (fst line) /\
               face_centers m !! Z.to_nat (snd link - 1) = Some (snd line))
            (pairs s) lines.
Proof.
  intros Hal Hv Hne.
  assert (Hn : Forall (fun i => (1 <= i <= Z.of_nat (length (mesh1d_nodes m)))%Z)
                      (nodes1d s)).
  { apply Forall_forall. intros i Hi. rewrite (nodes1d_pairs s Hal) in Hi.
    apply list_elem_of_fmap in Hi as ([i' j] & -> & Hin). apply (Hv i' j Hin). }
  assert (Hf : Forall (fun j => (1 <= j <= Z.of_nat (length (face_centers m)))%Z)
                      (faces2d s)).
  { apply Forall_forall. intros j Hj. rewrite (faces2d_pairs s Hal) in Hj.
    apply list_elem_of_fmap in Hj as ([i j'] & -> & Hin).
    unfold face_centers. rewrite length_map. apply (Hv i j' Hin). }
  destruct (getitem_all _ _ Hn) as [from Hfrom].
  destruct (getitem_all _ _ Hf) as [to Hto].
  exists (combine from to). split.
  - unfold get_1d2dlinks.
    assert (Hany : any_id (nodes1d s) = true).
    { destruct (nodes1d s) as [|i l]; [congruence|]. cbn.
      apply Forall_cons in Hn as [Hi _].
      assert ((i =? 0)%Z = false) as -> by (apply Z.eqb_neq; lia). reflexivity. }
    rewrite Hany. cbn [negb].
    rewrite (for_each_collect_OK (fun i => np_getitem (mesh1d_nodes m) (i - 1)%Z)
               (nodes1d s) from []).
    2:{ eapply Forall2_impl; [exact Hfrom|]. intros i x [Hx _]. exact Hx. }
    cbn [mbind result_bind app].
    rewrite (for_each_collect_OK (fun i => np_getitem (face_centers m) (i - 1)%Z)
               (faces2d s) to []).
    2:{ eapply Forall2_impl; [exact Hto|]. intros i x [Hx _]. exact Hx. }
    cbn [mbind result_bind app].
    assert (Hlen : length from = length to).
    { apply Forall2_length in Hfrom, Hto. unfold aligned in Hal. congruence. }
    rewrite Hlen, Nat.eqb_refl. cbn [negb].
    destruct as_gdf; reflexivity.
  - eapply Forall2_impl.
    + apply (Forall2_combine _ _ _ _ _ _ Hfrom Hto).
    + intros link line [[_ H1] [_ H2]]. auto.
Qed.

(** X12.  On a table whose lists have the same length and whose ids name
    existing nodes and faces, get_1d2dlinks never raises: it returns None for
    the empty table and else one line per link, from the coordinates of the
    link's node to the centre of its face. *)
Theorem get_1d2dlinks_valid m (as_gdf : bool) s :
  aligned s -> ids_valid m s ->
  (nodes1d s = [] -> get_1d2dlinks m as_gdf s = OK None) /\
  (nodes1d s <> [] ->
   exists lines,
     get_1d2dlinks m as_gdf s =
       OK (Some (if as_gdf then LinkFrame (combine (pairs s) lines)
                 else LinkArray lines)) /\
     Forall2 (fun link line =>
                mesh1d_nodes m !! Z.to_nat (fst link - 1) = Some (fst line) /\
                face_centers m !! Z.to_nat (snd link - 1) = Some (snd line))
             (pairs s) lines).
Proof.
  intros Hal Hv. split.
  - intros Hn. unfold get_1d2dlinks. rewrite Hn. reflexivity.
  - intros Hne. destruct (get_1d2dlinks_lines m as_gdf s Hal Hv Hne) as (lines & Hget & Hall).
    exists lines. split; [exact Hget|exact Hall].
Qed.

End WithMesh.

(** * The lists of the 1D mesh *)

Lemma lookup_edge_range (start n : Z) (j : nat) (a b : Z) :
  edge_range start n !! j = Some (a, b) <->
  (Z.of_nat j < n)%Z /\ a = (start + Z.of_nat j)%Z /\ b = (start + Z.of_nat j + 1)%Z.
Proof.
  unfold edge_range. rewrite list_lookup_fmap. split.
  - intros Hl. destruct (seq 0 (Z.to_nat n) !! j) as [k|] eqn:E; [|discriminate].
    apply lookup_seq in E as [-> Hlt]. cbn in Hl. injection Hl as <- <-. lia.
  - intros (Hlt & -> & ->). rewrite lookup_seq_lt by lia. reflexivity.
Qed.

Lemma length_edge_range (start n : Z) : length (edge_range start n) = Z.to_nat n.
Proof. unfold edge_range. rewrite length_map, length_seq. reflexivity. Qed.

Lemma set_first_from_lookup (l l' : list (Z * Z)) (v : Z) :
  set_first_from l v = OK l' ->
  length l' = length l /\ (1 <= length l)%nat /\
  forall j a b, l' !! j = Some (a, b) ->
    (j = 0%nat /\ a = v /\ exists a0, l !! 0%nat = Some (a0, b)) \/
    (j <> 0%nat /\ l !! j = Some (a, b)).
Proof.
  destruct l as [|[a0 b0] tl]; [discriminate|]. cbn. intros [= <-].
  split; [reflexivity|]. split; [cbn; lia|].
  intros [|j] a b Hl.
  - cbn in Hl. injection Hl as <- <-. left. eauto.
  - right. split; [lia|exact Hl].
Qed.

Lemma set_last_to_lookup (l l' : list (Z * Z)) (v : Z) :
  set_last_to l v = OK l' ->
  length l' = length l /\ (1 <= length l)%nat /\
  forall j a b, l' !! j = Some (a, b) ->
    (j = pred (length l) /\ b = v /\ exists b0, l !! j = Some (a, b0)) \/
    (j <> pred (length l) /\ l !! j = Some (a, b)).
Proof.
  unfold set_last_to. destruct (rev l) as [|[a0 b0] r] eqn:E; [discriminate|].
  intros [= <-].
  assert (Hl : l = rev r ++ [(a0, b0)]).
  { rewrite <- (rev_involutive l), E. reflexivity. }
  subst l. cbn [rev]. rewrite !length_app. cbn [length].
  split; [reflexivity|]. split; [lia|].
  intros j a b Hj.
  destruct (lt_dec j (length (rev r))) as [Hlt|Hge].
  - right. rewrite lookup_app_l in Hj by exact Hlt.
    split; [lia|]. rewrite lookup_app_l by exact Hlt. exact Hj.
  - left. rewrite lookup_app_r in Hj by lia.
    destruct (j - length (rev r))%nat as [|k] eqn:Ek; [|destruct k; discriminate Hj].
    cbn in Hj. injection Hj as <- <-.
    split; [lia|]. split; [reflexivity|]. exists b0.
    rewrite lookup_app_r by lia. rewrite Ek. reflexivity.
Qed.

Lemma trimmed_offsets (o : list Q) (fp lp : bool) (half : Q) (o' : list Q) (nl : Z) :
  (match (if lp then removelast (if fp then tail o else o)
          else (if fp then tail o else o)) with
   | [] => ([half], (Z.of_nat (length o) - 1 + 1)%Z)
   | _ :: _ => (if lp then removelast (if fp then tail o else o)
                else (if fp then tail o else o), (Z.of_nat (length o) - 1)%Z)
   end) = (o', nl) ->
  (1 <= length o')%nat /\
  (nl + 1 - (if fp then 1 else 0) - (if lp then 1 else 0) <= Z.of_nat (length o'))%Z.
Proof.
  set (o1 := if fp then tail o else o).
  set (o2 := if lp then removelast o1 else o1).
  assert (H1 : length o1 = (length o - (if fp then 1 else 0))%nat).
  { unfold o1. destruct fp; [destruct o; cbn; lia|lia]. }
  assert (H2 : length o2 = (length o1 - (if lp then 1 else 0))%nat).
  { unfold o2. destruct lp; [|lia].
    destruct o1 as [|x l] using rev_ind; [reflexivity|].
    rewrite removelast_last, length_app. cbn. lia. }
  destruct o2 as [|x l] eqn:E; intros [= <- <-]; cbn [length] in *.
  - split; [lia|]. destruct fp, lp; lia.
  - split; [lia|]. destruct fp, lp; lia.
Qed.

Section Topology.
Context {point : Type} `{Countable point}.
Implicit Types (b : Branch point) (st : net_state (point := point)) (p q : point).

Lemma index_of_lt (l : list point) p (i : nat) :
  index_of l p = OK i -> (i < length l)%nat.
Proof.
  revert i. induction l as [|x l IH]; intros i; cbn; [discriminate|].
  destruct (bool_decide (x = p)); [intros [= <-]; lia|].
  destruct (index_of l p) as [j|e|]; cbn; try discriminate.
  intros [= <-]. specialize (IH j eq_refl). lia.
Qed.

Lemma add_branch_consistent (offs : gmap string (list Q)) (i : nat) b st st' :
  mesh_consistent st -> add_branch offs i b st = OK st' ->
  mesh_consistent st' /\
  (Z.of_nat i + 1)%Z ∈ mesh1d_branchidx st' /\
  (forall x, x ∈ mesh1d_branchidx st -> x ∈ mesh1d_branchidx st') /\
  length (network_edge_nodes st') = S (length (network_edge_nodes st)).
Proof.
  intros (Hlen & Hedges & Hdict & Hnet).
  unfold add_branch, getitem.
  destruct (coords b !! 0%nat) as [p|]; cbn [mbind result_bind]; [|discriminate].
  destruct (last (coords b)) as [q|]; cbn [mbind result_bind]; [|discriminate].
  destruct (offs !! Index b) as [o|]; cbn [mbind result_bind]; [|discriminate].
  set (fp := contains (nodes st) p).
  set (nodes1 := if fp then nodes st else nodes st ++ [p]).
  set (lp := contains nodes1 q).
  set (nodes2 := if lp then nodes1 else nodes1 ++ [q]).
  match goal with |- context [let '(_, _) := ?e in _] =>
    destruct e as [o' nl] eqn:Eo end.
  apply trimmed_offsets in Eo as [Ho1 Ho2].
  destruct (index_of nodes2 p) as [i1|e|] eqn:E1; cbn [mbind result_bind]; try discriminate.
  destruct (index_of nodes2 q) as [i2|e|] eqn:E2; cbn [mbind result_bind]; try discriminate.
  destruct (Nat.eqb i1 i2) eqn:En; [discriminate|].
  apply Nat.eqb_neq in En. apply index_of_lt in E1, E2.
  set (N := Z.of_nat (length (mesh1d_branchidx st))) in *.
  assert (Hn2 : (length (nodes st) <= length nodes2)%nat).
  { unfold nodes2, nodes1. destruct lp, fp; rewrite ?length_app; cbn; lia. }
  intros Hrun.
  apply bind_OK_inv in Hrun as ([l1 d1] & Hfirst & Hrun).
  apply bind_OK_inv in Hrun as ([l2 d2] & Hlast & Hrun).
  injection Hrun as <-. unfold mesh_consistent. cbn.
  rewrite !length_app, repeat_length.
  set (M := Z.of_nat (length (mesh1d_branchidx st) + length o')).
  set (s := if fp then (N + 1 - 1)%Z else (N + 1)%Z) in *.
  (* the first step *)
  assert (Hs1 : length l1 = Z.to_nat nl /\ (1 <= nl)%Z /\
    (forall j a c, l1 !! j = Some (a, c) ->
       (Z.of_nat j < nl)%Z /\ c = (s + Z.of_nat j + 1)%Z /\
       ((1 <= a <= N)%Z /\ fp = true /\ j = 0%nat \/
        a = (s + Z.of_nat j)%Z /\ (fp = true -> j <> 0%nat))) /\
    (forall k v, d1 !! k = Some v ->
       (1 <= v <= N)%Z \/ fp = false /\ v = (N + 1)%Z)).
  { destruct fp.
    - apply bind_OK_inv in Hfirst as (v & Hv & Hfirst).
      apply bind_OK_inv in Hfirst as (l & Hl & Hfirst).
      injection Hfirst as <- <-.
      unfold dict_get in Hv. destruct (edge_nodes_dict st !! p) as [v'|] eqn:Ev;
        [|discriminate]. injection Hv as ->.
      apply set_first_from_lookup in Hl as (Hl1 & Hl2 & Hl3).
      rewrite length_edge_range in Hl1, Hl2.
      split; [exact Hl1|]. split; [lia|]. split.
      + intros j a c Hj. destruct (Hl3 j a c Hj) as [(-> & -> & a0 & Ha0)|[Hj0 Hj']].
        * apply lookup_edge_range in Ha0 as (H1 & _ & ->).
          split; [exact H1|]. split; [reflexivity|]. left.
          split; [exact (Hdict p v Ev)|]. auto.
        * apply lookup_edge_range in Hj' as (H1 & -> & ->).
          split; [exact H1|]. split; [reflexivity|]. right. auto.
      + intros k v' Hk. left. exact (Hdict k v' Hk).
    - apply bind_OK_inv in Hfirst as ([a0 c0] & He & Hfirst).
      injection Hfirst as <- <-.
      destruct (edge_range s nl !! 0%nat) as [e0|] eqn:E0; [|discriminate].
      injection He as ->.
      apply lookup_edge_range in E0 as (H1 & Ha0 & _).
      split; [apply length_edge_range|]. split; [lia|]. split.
      + intros j a c Hj. apply lookup_edge_range in Hj as (Hj1 & -> & ->).
        split; [exact Hj1|]. split; [reflexivity|]. right. split; [reflexivity|discriminate].
      + intros k v Hk. cbn [fst] in Hk. destruct (decide (k = p)) as [->|Hne].
        * rewrite lookup_insert_eq in Hk. injection Hk as <-. right.
          split; [reflexivity|]. unfold s in Ha0. lia.
        * rewrite lookup_insert_ne in Hk by congruence. left. exact (Hdict k v Hk). }
  destruct Hs1 as (Hl1 & Hnl & Hl1k & Hd1).
  (* the second step *)
  assert (Hs2 :
    (forall j a c, l2 !! j = Some (a, c) ->
       ((1 <= a <= N)%Z \/
        a = (s + Z.of_nat j)%Z /\ (Z.of_nat j < nl)%Z /\ (fp = true -> j <> 0%nat)) /\
       ((1 <= c <= N)%Z \/ fp = false /\ c = (N + 1)%Z \/
        c = (s + Z.of_nat j + 1)%Z /\ (Z.of_nat j < nl)%Z /\
        (lp = true -> (Z.of_nat j < nl - 1)%Z))) /\
    (forall k v, d2 !! k = Some v ->
       (1 <= v <= N)%Z \/ fp = false /\ v = (N + 1)%Z \/
       lp = false /\ v = (s + nl)%Z)).
  { destruct lp.
    - apply bind_OK_inv in Hlast as (v & Hv & Hlast).
      apply bind_OK_inv in Hlast as (l & Hl & Hlast).
      injection Hlast as <- <-.
      unfold dict_get in Hv. destruct (d1 !! q) as [v'|] eqn:Ev; [|discriminate].
      injection Hv as ->.
      apply set_last_to_lookup in Hl as (Hl2a & Hl2b & Hl2c).
      split.
      + intros j a c Hj. destruct (Hl2c j a c Hj) as [(Hjl & -> & c0 & Hc0)|[Hjl Hj']].
        * destruct (Hl1k j a c0 Hc0) as (H1 & _ & Ha). split.
          -- destruct Ha as [(Ha & _ & _)|[Ha Hfp]]; [left; exact Ha|right; auto].
          -- destruct (Hd1 q v Ev) as [Hv|Hv]; auto.
        * destruct (Hl1k j a c Hj') as (H1 & -> & Ha). split.
          -- destruct Ha as [(Ha & _ & _)|[Ha Hfp]]; [left; exact Ha|right; auto].
          -- right. right. split; [reflexivity|]. split; [exact H1|]. intros _.
             apply lookup_lt_Some in Hj'. lia.
      + intros k v' Hk. destruct (Hd1 k v' Hk) as [Hv|Hv]; auto.
    - apply bind_OK_inv in Hlast as ([a0 c0] & He & Hlast).
      injection Hlast as <- <-.
      destruct (last l1) as [e0|] eqn:E0; [|discriminate]. injection He as ->.
      rewrite last_lookup in E0.
      destruct (Hl1k _ _ _ E0) as (H1 & Hc0 & _).
      split.
      + intros j a c Hj. destruct (Hl1k j a c Hj) as (Hj1 & -> & Ha). split.
        * destruct Ha as [(Ha & _ & _)|[Ha Hfp]]; [left; exact Ha|right; auto].
        * right. right. split; [reflexivity|]. split; [exact Hj1|discriminate].
      + intros k v Hk. cbn [snd] in Hk. destruct (decide (k = q)) as [->|Hne].
        * rewrite lookup_insert_eq in Hk. injection Hk as <-. right. right.
          split; [reflexivity|]. lia.
        * rewrite lookup_insert_ne in Hk by congruence.
          destruct (Hd1 k v Hk) as [Hv|Hv]; auto. }
  destruct Hs2 as [Hl2k Hd2].
  assert (HM : M = (N + Z.of_nat (length o'))%Z) by (unfold M, N; lia).
  assert (Hsb : (s = if fp then N else N + 1)%Z) by (unfold s; destruct fp; lia).
  split; [|split; [|split]].
  - split; [lia|]. split; [|split].
    + intros a c Hin. apply elem_of_app in Hin as [Hin|Hin].
      * destruct (Hedges a c Hin). lia.
      * apply list_elem_of_lookup in Hin as [j Hj].
        destruct (Hl2k j a c Hj) as [Ha Hc].
        split.
        -- destruct Ha as [Ha|(-> & Hj1 & Hfp)]; [lia|].
           destruct fp, lp; try specialize (Hfp eq_refl); lia.
        -- destruct Hc as [Hc|[[_ ->]|(-> & Hj1 & Hlp)]]; [lia|lia|].
           destruct fp, lp; try specialize (Hlp eq_refl); lia.
    + intros k v Hk. destruct (Hd2 k v Hk) as [Hv|[[_ ->]|[Hlp ->]]]; [lia|lia|].
      rewrite Hlp in Ho2. destruct fp; lia.
    + intros a c Hin. apply elem_of_app in Hin as [Hin|Hin].
      * destruct (Hnet a c Hin) as (H1 & H2 & H3). lia.
      * apply list_elem_of_singleton in Hin. injection Hin as -> ->. lia.
  - apply elem_of_app. right. destruct o' as [|x o']; [cbn in Ho1; lia|]. left.
  - intros x Hx. apply elem_of_app. left. exact Hx.
  - cbn. lia.
Qed.

Lemma loop_consistent (offs : gmap string (list Q)) (l : list (nat * Branch point))
    st st' :
  mesh_consistent st ->
  for_each l (fun ib st => add_branch offs (fst ib) (snd ib) st) st = OK st' ->
  mesh_consistent st' /\
  (forall ib, ib ∈ l -> (Z.of_nat (fst ib) + 1)%Z ∈ mesh1d_branchidx st') /\
  (forall x, x ∈ mesh1d_branchidx st -> x ∈ mesh1d_branchidx st') /\
  length (network_edge_nodes st') = (length (network_edge_nodes st) + length l)%nat /\
  (forall ib, ib ∈ l -> open_ended (snd ib)).
Proof.
  revert st. induction l as [|[i b] l IH]; intros st Hc Hrun.
  - cbn in Hrun. injection Hrun as <-. split; [exact Hc|].
    split; [intros ib Hib; inversion Hib|]. split; [auto|]. split; [cbn; lia|].
    intros ib Hib. inversion Hib.
  - cbn [for_each] in Hrun. apply bind_OK_inv in Hrun as (st1 & Hadd & Hrun).
    cbn [fst snd] in Hadd.
    destruct (add_branch_consistent _ _ _ _ _ Hc Hadd) as (Hc1 & Hi & Hkeep & Hlen).
    destruct (add_branch_nodes _ _ _ _ _ Hadd) as (p & q & Hends & Hpq & _).
    destruct (IH st1 Hc1 Hrun) as (Hc' & Hall & Hkeep' & Hlen' & Hopen).
    split; [exact Hc'|]. split; [|split; [|split]].
    + intros ib Hib. apply elem_of_cons in Hib as [->|Hib]; [|auto].
      apply Hkeep'. exact Hi.
    + auto.
    + rewrite Hlen', Hlen. cbn. lia.
    + intros ib Hib. apply elem_of_cons in Hib as [->|Hib]; [|auto].
      exists p, q. auto.
Qed.

(** X13.  When generate_1dnetwork returns, the lists it hands to the mesh fit
    together: branchidx and branchoffset have the same length, every mesh edge
    and every entry of the node dictionary names an existing mesh node
    (between 1 and numnode), there is one network edge per branch joining two
    different existing nodes, every branch has at least one mesh node, and no
    branch is a ring. *)
Theorem network_mesh_consistent (fuel : nat) (branches : list (Branch point))
    (structures : option (list Structure)) (self_offsets : gmap string (list Q))
    (d : Q) st (m : gmap string (list Q)) :
  generate_1dnetwork fuel branches structures self_offsets d = OK (st, m) ->
  mesh_consistent st /\
  length (network_edge_nodes st) = length branches /\
  (forall i : nat, (i < length branches)%nat ->
     (Z.of_nat i + 1)%Z ∈ mesh1d_branchidx st) /\
  (forall b, b ∈ branches -> open_ended b).
Proof.
  intros Hrun. unfold generate_1dnetwork in Hrun.
  destruct branches as [|b0 bs]; [discriminate|].
  set (branches := b0 :: bs) in *.
  apply bind_OK_inv in Hrun as (offs & _ & Hrun).
  apply bind_OK_inv in Hrun as (st0 & Hloop & Hrun).
  injection Hrun as -> ->.
  apply loop_consistent in Hloop as (Hc & Hall & _ & Hlen & Hopen).
  2:{ unfold mesh_consistent. cbn. split; [reflexivity|].
      split; [intros a b Hin; inversion Hin|].
      split; [intros p v Hin; rewrite lookup_empty in Hin; discriminate|].
      intros a b Hin. inversion Hin. }
  assert (Hsl : length (sorted_branches branches) = length branches)
    by apply length_sort_by.
  split; [exact Hc|]. split; [|split].
  - rewrite Hlen, length_combine, length_seq, Nat.min_id. cbn [length net_init network_edge_nodes].
    rewrite Hsl. reflexivity.
  - intros i Hi.
    destruct (lookup_lt_is_Some_2 (sorted_branches branches) i ltac:(lia)) as [b Hb].
    apply (Hall (i, b)). apply elem_of_combine_seq. exact Hb.
  - intros b Hb.
    apply (proj2 (elem_of_sort_by
             (fun b b' => Qlt_bool (geom_length b) (geom_length b')) b branches)) in Hb.
    fold (sorted_branches branches) in Hb.
    apply list_elem_of_lookup in Hb as [i Hb].
    apply (Hopen (i, b)). apply elem_of_combine_seq. exact Hb.
Qed.

End Topology.

Lemma network_mesh_consistent_witness :
  exists st m,
    generate_1dnetwork 0 [branch_a; branch_b] None ∅ 40 = OK (st, m) /\
    mesh_consistent st /\
    length (network_edge_nodes st) = 2%nat /\
    (forall i : nat, (i < 2)%nat -> (Z.of_nat i + 1)%Z ∈ mesh1d_branchidx st) /\
    (forall b, b ∈ [branch_a; branch_b] -> open_ended b).
Proof.
  destruct (generate_1dnetwork 0 [branch_a; branch_b] None ∅ 40) as [[st m]|e|] eqn:E;
    [|vm_compute in E; discriminate E..].
  exists st, m. split; [reflexivity|].
  exact (network_mesh_consistent 0 [branch_a; branch_b] None ∅ 40 st m E).
Defined.

Lemma check_boundary_link_effect_witness :
  aligned three_links /\
  pairs (snd (check_boundary_link three_nodes (0, 0) three_links)) = [(3, 3)]%Z.
Proof.
  assert (Hal : aligned three_links) by reflexivity.
  assert (Hok : fst (check_boundary_link three_nodes (0, 0) three_links) = OK tt)
    by (vm_compute; reflexivity).
  split; [exact Hal|].
  destruct (check_boundary_link_effect three_nodes (0, 0) three_links Hal Hok)
    as [_ ->].
  vm_compute. reflexivity.
Defined.

Lemma remove_1d2d_link_effect_witness :
  aligned three_links /\
  pairs (snd (remove_1d2d_link three_nodes 0 0 "1d" (Finite 1) three_links))
    = [(2, 2); (3, 3)]%Z.
Proof.
  assert (Hal : aligned three_links) by reflexivity.
  split; [exact Hal|].
  pose proof (proj2 (remove_1d2d_link_effect three_nodes 0 0 (Finite 1) three_links Hal)
                    true) as H.
  cbv beta iota zeta in H.
  destruct (argmin (mesh1d_nodes three_nodes) (0, 0)) as [[dmin imin]|] eqn:E;
    [|vm_compute in E; discriminate E].
  destruct H as (_ & _ & ->).
  vm_compute in E. injection E as <- <-. vm_compute. reflexivity.
Defined.


Lemma links_2d_to_1d_nearest_witness :
  (1, 1)%Z ∈ links_2d_to_1d every_cell_near three_nodes Inf true /\
  nearest_node three_nodes Inf (1, 1)%Z.
Proof.
  assert (Hin : (1, 1)%Z ∈ links_2d_to_1d every_cell_near three_nodes Inf true)
    by (vm_compute; left).
  split; [exact Hin|].
  exact (proj1 (links_2d_to_1d_nearest every_cell_near three_nodes Inf true)
           (1, 1)%Z Hin).
Defined.

Lemma three_links_valid : ids_valid three_nodes three_links.
Proof.
  intros i j Hin. vm_compute in Hin.
  repeat (apply elem_of_cons in Hin as [[= -> ->]|Hin]; [vm_compute; intuition discriminate|]).
  inversion Hin.
Qed.

Lemma links_stay_valid_witness :
  aligned three_links /\ ids_valid three_nodes three_links /\
  ids_valid three_nodes (snd (generate_1d_to_2d three_nodes Inf three_links)) /\
  ids_valid three_nodes (snd (check_boundary_link three_nodes (0, 0) three_links)).
Proof.
  assert (Hal : aligned three_links) by reflexivity.
  pose proof three_links_valid as Hv.
  destruct (links_stay_valid every_cell_near three_nodes three_links Hal Hv)
    as (H1 & _ & H3 & _).
  split; [exact Hal|]. split; [exact Hv|].
  split; [exact (proj2 (H1 Inf))|exact (proj2 (H3 (0, 0)))].
Defined.

Lemma get_1d2dlinks_valid_witness :
  aligned three_links /\ ids_valid three_nodes three_links /\
  exists lines,
    get_1d2dlinks three_nodes false three_links = OK (Some (LinkArray lines)) /\
    length lines = 4%nat.
Proof.
  assert (Hal : aligned three_links) by reflexivity.
  pose proof three_links_valid as Hv.
  split; [exact Hal|]. split; [exact Hv|].
  destruct (proj2 (get_1d2dlinks_valid three_nodes false three_links Hal Hv))
    as (lines & Hget & Hall); [discriminate|].
  exists lines. split; [exact Hget|].
  apply Forall2_length in Hall. rewrite <- Hall. reflexivity.
Defined.

(** * Removals read from a file *)

Lemma for_store_filter {A} (items : list A)
    (body : A -> Links1d2d -> result unit * Links1d2d)
    (keep : A -> Z * Z -> bool) (s : Links1d2d) :
  (forall x t, aligned t ->
     fst (body x t) = OK tt /\ aligned (snd (body x t)) /\
     pairs (snd (body x t)) = List.filter (keep x) (pairs t)) ->
  aligned s ->
  fst (for_store items body s) = OK tt /\
  aligned (snd (for_store items body s)) /\
  pairs (snd (for_store items body s)) =
    List.filter (fun link => forallb (fun x => keep x link) items) (pairs s).
Proof.
  intros Hb. revert s. induction items as [|x items IH]; intros s Hal.
  - cbn. split; [reflexivity|]. split; [exact Hal|].
    symmetry. apply filter_all. reflexivity.
  - cbn [for_store]. destruct (Hb x s Hal) as (H1 & H2 & H3).
    destruct (body x s) as [r s'] eqn:E. cbn [fst snd] in H1, H2, H3. subst r.
    destruct (IH s' H2) as (I1 & I2 & I3).
    split; [exact I1|]. split; [exact I2|].
    rewrite I3, H3, filter_filter. reflexivity.
Qed.

Lemma for_store_skip {A} (items : list A)
    (body : A -> Links1d2d -> result unit * Links1d2d) (s : Links1d2d) :
  (forall x, x ∈ items -> body x s = (OK tt, s)) ->
  for_store items body s = (OK tt, s).
Proof.
  induction items as [|x items IH]; intros Hb; [reflexivity|].
  cbn [for_store]. rewrite (Hb x) by left.
  apply IH. intros y Hy. apply Hb. right. exact Hy.
Qed.

Lemma for_store_first_raise {A} (items : list A)
    (body : A -> Links1d2d -> result unit * Links1d2d) (s : Links1d2d)
    (e : exn) (stops : A -> bool) :
  (forall x, stops x = true -> body x s = (Raise e, s)) ->
  (forall x, stops x = false -> body x s = (OK tt, s)) ->
  existsb stops items = true ->
  for_store items body s = (Raise e, s).
Proof.
  intros Hs Hn. induction items as [|x items IH]; [discriminate|].
  cbn [existsb for_store]. destruct (stops x) eqn:E.
  - intros _. rewrite (Hs x E). reflexivity.
  - cbn. intros Hex. rewrite (Hn x E). apply IH. exact Hex.
Qed.

Lemma forallb_negb_existsb {A} (f : A -> bool) (l : list A) :
  forallb (fun x => negb (f x)) l = negb (existsb f l).
Proof.
  induction l as [|x l IH]; [reflexivity|]. cbn. rewrite IH.
  destruct (f x); reflexivity.
Qed.

Lemma filter_ext_eq {A} (f g : A -> bool) (l : list A) :
  (forall x, f x = g x) -> List.filter f l = List.filter g l.
Proof.
  intros H. induction l as [|x l IH]; [reflexivity|]. cbn. rewrite H, IH. reflexivity.
Qed.

Lemma lookup_combine_Some {A B} (l1 : list A) (l2 : list B) (i : nat) (a : A) (b : B) :
  l1 !! i = Some a -> l2 !! i = Some b -> combine l1 l2 !! i = Some (a, b).
Proof. intros H1 H2. rewrite lookup_combine_eq, H1, H2. reflexivity. Qed.

Lemma square_nonneg (a : Q) : 0 <= a * a.
Proof.
  destruct (Qlt_le_dec a 0) as [Hneg|Hpos].
  - assert (H : 0 <= (- a) * (- a)) by (apply Qmult_le_0_compat; lra).
    assert (E : (- a) * (- a) == a * a) by ring.
    apply (Qle_trans _ _ _ H). apply Qle_lteq. right. exact E.
  - apply Qmult_le_0_compat; exact Hpos.
Qed.

Lemma dist2_nonneg (p q : xy) : 0 <= dist2 p q.
Proof.
  unfold dist2.
  pose proof (square_nonneg (fst p - fst q)).
  pose proof (square_nonneg (snd p - snd q)). lra.
Qed.

Lemma dist2_refl (p : xy) : dist2 p p == 0.
Proof. unfold dist2. ring. Qed.

Section WithMesh.
Context {polygon branch_table : Type}.
Implicit Types (m : @mesh polygon branch_table) (s : Links1d2d).

(** One removal at [(x, y)] within 2, as a filter on the pairs. *)
Lemma remove_within_2 m (x y : Q) (is1d : bool) s (q : xy) :
  let kind := if is1d then "1d" else "2d" in
  let pts := if is1d then mesh1d_nodes m else face_centers m in
  let proj : Z * Z -> Z := if is1d then fst else snd in
  aligned s -> q ∈ pts ->
  fst (remove_1d2d_link m x y kind (Finite 2) s) = OK tt /\
  aligned (snd (remove_1d2d_link m x y kind (Finite 2) s)) /\
  pairs (snd (remove_1d2d_link m x y kind (Finite 2) s)) =
    List.filter (fun link =>
                   negb match removal_target pts (x, y) with
                        | Some k => Z.eqb (proj link) k
                        | None => false
                        end) (pairs s).
Proof.
  intros kind pts proj Hal Hq.
  pose proof (remove_1d2d_link_cases m x y is1d (Finite 2) s Hal) as H.
  cbv zeta in H. fold kind pts proj in H. unfold removal_target.
  destruct (argmin pts (x, y)) as [[dmin imin]|] eqn:E.
  - destruct H as (H1 & H2 & H3). split; [exact H1|]. split; [exact H2|].
    rewrite H3. destruct (dist_gt dmin (Finite 2)); [|reflexivity].
    symmetry. apply filter_all. reflexivity.
  - destruct pts; [inversion Hq|discriminate E].
Qed.

(** X14.  With node '2d', remove_1d2d_from_numlimdt leaves the table as it is
    when no line of the file reaches the threshold, and raises ValueError at
    the first such line on a mesh without faces. Otherwise it returns normally
    and removes exactly the links of the faces whose centre is nearest to the
    point of such a line and not farther than 2 from it; all other links are
    kept, in order. *)
Theorem numlimdt_2d_effect m (idx : list (xy * xy) -> xy -> nat)
    (rows : list (xy * Z)) (threshold : Q) s :
  aligned s ->
  let over := fun row : xy * Z => Qle_bool threshold (inject_Z (snd row)) in
  let r := remove_1d2d_from_numlimdt m idx rows threshold "2d" s in
  (existsb over rows = false -> r = (OK tt, s)) /\
  (face_centers m = [] -> existsb over rows = true -> r = (Raise ValueError, s)) /\
  (face_centers m <> [] ->
   fst r = OK tt /\ aligned (snd r) /\
   pairs (snd r) =
     List.filter
       (fun link =>
          negb (existsb (fun row =>
                           over row &&
                           match removal_target (face_centers m) (fst row) with
                           | Some j => Z.eqb (snd link) j
                           | None => false
                           end) rows))
       (pairs s)).
Proof.
  intros Hal over r. unfold r, remove_1d2d_from_numlimdt.
  change (String.eqb "2d" "1d") with false. change (String.eqb "2d" "2d") with true.
  cbv iota. fold over. split; [|split].
  - intros Hex. apply for_store_skip. intros row Hrow. cbv beta.
    fold (over row).
    assert (over row = false) as ->; [|reflexivity].
    destruct (over row) eqn:E; [|reflexivity].
    rewrite <- Hex. symmetry. apply existsb_exists. exists row.
    split; [apply list_elem_of_In; exact Hrow|exact E].
  - intros Hf Hex.
    apply (for_store_first_raise rows _ s ValueError over); [| |exact Hex].
    + intros row Hrow. cbv beta. fold (over row). rewrite Hrow.
      pose proof (remove_1d2d_link_cases m (fst (fst row)) (snd (fst row)) false
                    (Finite 2) s Hal) as H.
      cbv zeta in H. rewrite Hf in H. exact H.
    + intros row Hrow. cbv beta. fold (over row). rewrite Hrow. reflexivity.
  - intros Hne.
    destruct (face_centers m) as [|q0 cs] eqn:Ec; [congruence|]. rewrite <- Ec.
    assert (Hq : q0 ∈ face_centers m) by (rewrite Ec; left).
    set (keep := fun (row : xy * Z) (link : Z * Z) =>
                   negb (over row &&
                         match removal_target (face_centers m) (fst row) with
                         | Some j => Z.eqb (snd link) j
                         | None => false
                         end)).
    destruct (for_store_filter rows
                (fun row t =>
                   if over row
                   then remove_1d2d_link m (fst (fst row)) (snd (fst row)) "2d" (Finite 2) t
                   else (OK tt, t)) keep s) as (H1 & H2 & H3); [|exact Hal|].
    + intros row t Ht. unfold keep. destruct (over row); cbn [andb].
      * destruct (remove_within_2 m (fst (fst row)) (snd (fst row)) false t q0 Ht Hq)
          as (R1 & R2 & R3).
        split; [exact R1|]. split; [exact R2|].
        rewrite R3. destruct row as [[x y] n]. reflexivity.
      * cbn. split; [reflexivity|]. split; [exact Ht|].
        symmetry. apply filter_all. reflexivity.
    + split; [exact H1|]. split; [exact H2|]. etransitivity; [exact H3|].
      apply filter_ext_eq. intros link. unfold keep.
      apply forallb_negb_existsb.
Qed.

(** With valid ids a non-empty table gives a frame with one row per link,
    whose line starts at the coordinates of the link's node. *)
Lemma get_1d2dlinks_frame_rows m s :
  aligned s -> ids_valid m s -> nodes1d s <> [] ->
  exists lines,
    get_1d2dlinks m true s = OK (Some (LinkFrame (combine (pairs s) lines))) /\
    length lines = length (pairs s) /\
    forall (k : nat) (link : Z * Z) (line : xy * xy),
      pairs s !! k = Some link -> lines !! k = Some line ->
      mesh1d_nodes m !! Z.to_nat (fst link - 1) = Some (fst line).
Proof.
  intros Hal Hv Hne.
  destruct (get_1d2dlinks_lines m true s Hal Hv Hne) as (lines & Hget & Hall).
  exists lines. split; [exact Hget|]. split.
  - symmetry. exact (Forall2_length _ _ _ Hall).
  - intros k link line Hk Hl.
    destruct (Forall2_lookup_lr _ _ _ _ _ _ Hall Hk Hl) as [H _]. exact H.
Qed.

(** A removal at the coordinates of a 1D node takes out the links of that
    node, when no other node has the same coordinates. *)
Lemma removal_target_node m (i : Z) (p : xy) :
  nodes_distinct m -> (1 <= i)%Z ->
  mesh1d_nodes m !! Z.to_nat (i - 1) = Some p ->
  removal_target (mesh1d_nodes m) p = Some i.
Proof.
  intros Hd Hi Hp. unfold removal_target.
  destruct (argmin (mesh1d_nodes m) p) as [[d k]|] eqn:E.
  - destruct (argmin_spec _ _ _ _ E) as (q & Hq & -> & Hmin).
    assert (Hin : p ∈ mesh1d_nodes m) by (eapply list_elem_of_lookup_2; exact Hp).
    pose proof (Hmin p Hin) as Hle. pose proof (dist2_refl p) as H0.
    pose proof (dist2_nonneg q p) as Hge.
    assert (Hz : dist2 q p == 0) by lra.
    pose proof (Hd k (Z.to_nat (i - 1)) q p Hq Hp Hz) as ->.
    assert (dist_gt (dist2 q p) (Finite 2) = false) as ->.
    { unfold dist_gt. apply orb_false_iff. split.
      - reflexivity.
      - apply Qlt_bool_false. lra. }
    f_equal. lia.
  - destruct (mesh1d_nodes m); [discriminate Hp|discriminate E].
Qed.

(** X15.  With node '1d', on a non-empty table with valid ids and a mesh whose
    nodes have distinct coordinates, every line of the file that reaches the
    threshold removes all links of the 1D node of the link that idxmin picks
    among the links as they were before the loop; the distance limit of 2
    never applies, however far the point is from that link. *)
Theorem numlimdt_1d_effect m (idx : list (xy * xy) -> xy -> nat)
    (rows : list (xy * Z)) (threshold : Q) s :
  aligned s -> ids_valid m s -> nodes1d s <> [] -> nodes_distinct m ->
  (forall lines p, lines <> [] -> (idx lines p < length lines)%nat) ->
  exists lines,
    get_1d2dlinks m true s = OK (Some (LinkFrame (combine (pairs s) lines))) /\
    let over := fun row : xy * Z => Qle_bool threshold (inject_Z (snd row)) in
    let r := remove_1d2d_from_numlimdt m idx rows threshold "1d" s in
    fst r = OK tt /\ aligned (snd r) /\
    pairs (snd r) =
      List.filter
        (fun link =>
           negb (existsb (fun row =>
                            over row &&
                            match pairs s !! idx lines (fst row) with
                            | Some picked => Z.eqb (fst link) (fst picked)
                            | None => false
                            end) rows))
        (pairs s).
Proof.
  intros Hal Hv Hne Hd Hidx.
  destruct (get_1d2dlinks_frame_rows m s Hal Hv Hne) as (lines & Hget & Hlen & Hline).
  exists lines. split; [exact Hget|]. intros over r.
  assert (Hlines : lines <> []).
  { intros ->. cbn in Hlen. unfold pairs in Hlen. rewrite length_combine in Hlen.
    unfold aligned in Hal. destruct (nodes1d s); [congruence|].
    destruct (faces2d s); cbn in Hal, Hlen; lia. }
  assert (Hsnd : map snd (combine (pairs s) lines) = lines)
    by (apply map_snd_combine_eq; symmetry; exact Hlen).
  set (keep := fun (row : xy * Z) (link : Z * Z) =>
                 negb (over row &&
                       match pairs s !! idx lines (fst row) with
                       | Some picked => Z.eqb (fst link) (fst picked)
                       | None => false
                       end)).
  set (body := fun (row : xy * Z) (t : Links1d2d) =>
                 if over row then
                   match combine (pairs s) lines !! idx lines (fst row) with
                   | Some r0 =>
                       remove_1d2d_link m (fst (fst (snd r0))) (snd (fst (snd r0)))
                         "1d" (Finite 2) t
                   | None => (Raise KeyError, t)
                   end
                 else (OK tt, t)).
  assert (Hr : r = for_store rows body s).
  { unfold r, remove_1d2d_from_numlimdt.
    change (String.eqb "1d" "1d") with true. change (String.eqb "1d" "2d") with false.
    cbv iota. rewrite Hget. cbn [mbind result_bind]. rewrite Hsnd. reflexivity. }
  rewrite Hr.
  destruct (for_store_filter rows body keep s) as (H1 & H2 & H3); [|exact Hal|].
  - intros row t Ht. unfold body, keep. destruct (over row); cbn [andb].
    + pose proof (Hidx lines (fst row) Hlines) as Hlt.
      destruct (lookup_lt_is_Some_2 lines _ Hlt) as [line Hl].
      rewrite Hlen in Hlt.
      destruct (lookup_lt_is_Some_2 (pairs s) _ Hlt) as [picked Hp].
      assert (Hc : combine (pairs s) lines !! idx lines (fst row) = Some (picked, line))
        by exact (lookup_combine_Some _ _ _ _ _ Hp Hl).
      match goal with
      | |- context [match ?X with Some _ => _ | None => (Raise KeyError, t) end] =>
          replace X with (Some (picked, line)) by (symmetry; exact Hc)
      end.
      rewrite Hp. cbn [fst snd].
      pose proof (Hline _ _ _ Hp Hl) as Hnode.
      assert (Hin : picked ∈ pairs s) by (eapply list_elem_of_lookup_2; exact Hp).
      destruct picked as [i0 j0]. destruct (Hv i0 j0 Hin) as [[Hi0 _] _].
      cbn [fst] in Hnode.
      assert (Hq : fst line ∈ mesh1d_nodes m)
        by (eapply list_elem_of_lookup_2; exact Hnode).
      destruct (remove_within_2 m (fst (fst line)) (snd (fst line)) true t (fst line)
                  Ht Hq) as (R1 & R2 & R3).
      split; [exact R1|]. split; [exact R2|]. etransitivity; [exact R3|].
      replace (fst (fst line), snd (fst line)) with (fst line)
        by (destruct (fst line); reflexivity).
      rewrite (removal_target_node m i0 (fst line) Hd Hi0 Hnode). reflexivity.
    + cbn. split; [reflexivity|]. split; [exact Ht|].
      symmetry. apply filter_all. reflexivity.
  - split; [exact H1|]. split; [exact H2|]. etransitivity; [exact H3|].
    apply filter_ext_eq. intros link. unfold keep. apply forallb_negb_existsb.
Qed.

(** X16.  For a node other than '1d' and '2d', remove_1d2d_from_numlimdt
    raises NameError (the local name links is not bound) at the first line
    that reaches the threshold, and returns normally when there is none. With
    node '1d' on an empty table it raises AttributeError at the first such
    line, since get_1d2dlinks returned None. The table is unchanged in all
    these cases. *)
Theorem numlimdt_without_links m (idx : list (xy * xy) -> xy -> nat)
    (rows : list (xy * Z)) (threshold : Q) (node : string) s :
  let over := fun row : xy * Z => Qle_bool threshold (inject_Z (snd row)) in
  let r := remove_1d2d_from_numlimdt m idx rows threshold node s in
  (node <> "1d" -> existsb over rows = false -> r = (OK tt, s)) /\
  (node <> "1d" -> node <> "2d" -> existsb over rows = true ->
   r = (Raise NameError, s)) /\
  (node = "1d" -> nodes1d s = [] ->
   r = if existsb over rows then (Raise AttributeError, s) else (OK tt, s)).
Proof.
  intros over r. unfold r, remove_1d2d_from_numlimdt. split; [|split].
  - intros H1 Hex. apply String.eqb_neq in H1. rewrite H1.
    apply for_store_skip. intros row Hrow. cbv beta. fold (over row).
    assert (over row = false) as ->; [|reflexivity].
    destruct (over row) eqn:E; [|reflexivity].
    rewrite <- Hex. symmetry. apply existsb_exists. exists row.
    split; [apply list_elem_of_In; exact Hrow|exact E].
  - intros H1 H2 Hex. apply String.eqb_neq in H1, H2. rewrite H1, H2.
    apply (for_store_first_raise rows _ s NameError over); [| |exact Hex].
    + intros row Hrow. cbv beta. fold (over row). rewrite Hrow. reflexivity.
    + intros row Hrow. cbv beta. fold (over row). rewrite Hrow. reflexivity.
  - intros -> Hn. change (String.eqb "1d" "1d") with true.
    change (String.eqb "1d" "2d") with false. cbv iota.
    unfold get_1d2dlinks. rewrite Hn. cbn [any_id existsb negb mbind result_bind].
    destruct (existsb over rows) eqn:Hex.
    + apply (for_store_first_raise rows _ s AttributeError over); [| |exact Hex].
      * intros row Hrow. cbv beta. fold (over row). rewrite Hrow. reflexivity.
      * intros row Hrow. cbv beta. fold (over row). rewrite Hrow. reflexivity.
    + apply for_store_skip. intros row Hrow. cbv beta. fold (over row).
      assert (over row = false) as ->; [|reflexivity].
      destruct (over row) eqn:E; [|reflexivity].
      rewrite <- Hex. symmetry. apply existsb_exists. exists row.
      split; [apply list_elem_of_In; exact Hrow|exact E].
Qed.

End WithMesh.

Lemma three_nodes_distinct : nodes_distinct three_nodes.
Proof.
  intros i j p q Hi Hj Hd.
  destruct i as [|[|[|i]]]; destruct j as [|[|[|j]]];
    try reflexivity; try discriminate Hi; try discriminate Hj;
    cbn in Hi, Hj; injection Hi as <-; injection Hj as <-;
    vm_compute in Hd; discriminate Hd.
Qed.

Lemma numlimdt_2d_effect_witness :
  aligned three_links /\
  pairs (snd (remove_1d2d_from_numlimdt three_nodes (fun _ _ => O)
                [((10, 1), 5%Z); ((0, 1), 1%Z)] 3 "2d" three_links))
    = [(1, 1); (3, 3)]%Z.
Proof.
  assert (Hal : aligned three_links) by reflexivity.
  split; [exact Hal|].
  destruct (numlimdt_2d_effect three_nodes (fun _ _ => O)
              [((10, 1), 5%Z); ((0, 1), 1%Z)] 3 three_links Hal) as (_ & _ & H).
  destruct H as (_ & _ & ->); [vm_compute; discriminate|].
  vm_compute. reflexivity.
Defined.

Lemma numlimdt_1d_effect_witness :
  aligned three_links /\ ids_valid three_nodes three_links /\
  nodes_distinct three_nodes /\
  (exists lines,
     get_1d2dlinks three_nodes true three_links =
       OK (Some (LinkFrame (combine (pairs three_links) lines))) /\
     fst (remove_1d2d_from_numlimdt three_nodes (fun lines _ => (length lines - 1)%nat)
            [((500, 500), 7%Z)] 3 "1d" three_links) = OK tt) /\
  pairs (snd (remove_1d2d_from_numlimdt three_nodes
                (fun lines _ => (length lines - 1)%nat)
                [((500, 500), 7%Z)] 3 "1d" three_links))
    = [(2, 2); (3, 3)]%Z.
Proof.
  assert (Hal : aligned three_links) by reflexivity.
  pose proof three_links_valid as Hv.
  pose proof three_nodes_distinct as Hd.
  assert (Hne : nodes1d three_links <> []) by discriminate.
  assert (Hidx : forall (lines : list (xy * xy)) (p : xy),
             lines <> [] -> (length lines - 1 < length lines)%nat).
  { intros lines p Hl. destruct lines; [congruence|cbn; lia]. }
  split; [exact Hal|]. split; [exact Hv|]. split; [exact Hd|]. split.
  - destruct (numlimdt_1d_effect three_nodes (fun lines _ => (length lines - 1)%nat)
                [((500, 500), 7%Z)] 3 three_links Hal Hv Hne Hd Hidx)
      as (lines & Hget & H1 & _).
    exists lines. split; [exact Hget|exact H1].
  - vm_compute. reflexivity.
Defined.

Lemma numlimdt_without_links_witness :
  remove_1d2d_from_numlimdt three_nodes (fun _ _ => O)
    [((0, 0), 1%Z); ((10, 1), 5%Z)] 3 "3d" three_links
    = (Raise NameError, three_links).
Proof.
  apply (proj1 (proj2 (numlimdt_without_links three_nodes (fun _ _ => O)
                         [((0, 0), 1%Z); ((10, 1), 5%Z)] 3 "3d" three_links))).
  - discriminate.
  - discriminate.
  - reflexivity.
Defined.
